(** * Verification of lifx-async: request streams, connection pool, conductor
    and frame effects.

    Shallow embedding of [src/lifx/network/connection.py],
    [src/lifx/effects/conductor.py], [src/lifx/effects/frame_effect.py] and
    the catalog of frame effects.  Python floats that are only added,
    multiplied, divided and compared (timeouts, clock readings) are modelled
    as rationals [Q]; floats that go through [math.sin], [**] or [exp] are
    modelled as reals [R]. *)

From Stdlib Require Import ZArith Lia List Bool String.
From Stdlib Require Import QArith Qfield Qring.
From Stdlib Require Import Reals Lra.
From Stdlib Require Import Psatz.
Import ListNotations.

(* ------------------------------------------------------------------ *)
(** ** The request/response engine ([_ActualConnection]) *)

Module Connection.

Local Open Scope Z_scope.

(** [_STATE_UNHANDLED_PKT_TYPE = 223] *)
Definition STATE_UNHANDLED_PKT_TYPE : Z := 223.

(** The parsed LIFX header fields the request paths look at. *)
Record LifxHeader := mkHeader {
  sequence : Z;
  pkt_type : Z
}.

Definition payload := list Byte.byte.

(** One call of [receive_packet(timeout=recv_timeout)]: the transport timed
    out ([LifxTimeoutError]), a datagram parsed into a header and payload,
    or a datagram that [parse_message] rejected (it raises, and the
    exception is not caught by the request loop). *)
Inductive recv_result :=
  | RecvTimeout
  | RecvPacket (h : LifxHeader) (p : payload)
  | RecvMalformed.

(** One iteration of the [while True] polling loop, as the environment
    (the clock and the socket) drives it: the [time.monotonic()] reading
    taken at the top of the loop, the outcome of [receive_packet], and the
    [time.monotonic()] reading taken after a receive timeout. *)
Record poll := mkPoll {
  clock_top : Q;
  received : recv_result;
  clock_after : Q
}.

(** Errors that leave the generator. *)
Inductive lifx_error :=
  | LifxConnectionError
  | LifxTimeoutError
  | LifxUnsupportedCommandError
  | LifxProtocolError.

(** How one attempt (the body of the [try] of one iteration of
    [for attempt in range(max_retries + 1)]) ends. *)
Inductive attempt_end :=
  | AttTimeout              (* built-in [TimeoutError] raised in the attempt *)
  | AttReturn               (* [return]: the stream ends successfully *)
  | AttRaise (e : lifx_error)
  | AttPending.             (* the environment supplied no further poll *)

(** How the whole generator ends. *)
Inductive stream_end :=
  | StreamReturn
  | StreamRaise (e : lifx_error)
  | StreamPending.

Definition yielded := (LifxHeader * payload)%type.

Definition remaining_le_zero (deadline now : Q) : bool :=
  Qle_bool (deadline - now) 0.

(** The receive loop of one attempt of [request_stream]
    (connection.py, the [while True] loop).  Returns the values yielded,
    the final [has_yielded] flag and how the attempt ended. *)
Fixpoint stream_attempt (seq : Z) (expected_pkt_type : option Z)
    (attempt_deadline : Q) (has_yielded : bool) (polls : list poll)
    : list yielded * bool * attempt_end :=
  match polls with
  | [] => ([], has_yielded, AttPending)
  | pl :: rest =>
      if remaining_le_zero attempt_deadline (clock_top pl) then
        if negb has_yielded then ([], has_yielded, AttTimeout)
        else ([], has_yielded, AttReturn)
      else
        match received pl with
        | RecvTimeout =>
            if has_yielded then
              stream_attempt seq expected_pkt_type attempt_deadline has_yielded rest
            else if Qle_bool attempt_deadline (clock_after pl) then
              ([], has_yielded, AttTimeout)
            else
              stream_attempt seq expected_pkt_type attempt_deadline has_yielded rest
        | RecvMalformed => ([], has_yielded, AttRaise LifxProtocolError)
        | RecvPacket h p =>
            if negb (Z.eqb (sequence h) seq) then
              stream_attempt seq expected_pkt_type attempt_deadline has_yielded rest
            else if Z.eqb (pkt_type h) STATE_UNHANDLED_PKT_TYPE then
              ([], has_yielded, AttRaise LifxUnsupportedCommandError)
            else
              match expected_pkt_type with
              | Some t =>
                  if negb (Z.eqb (pkt_type h) t) then
                    ([], has_yielded, AttRaise LifxProtocolError)
                  else
                    let '(ys, hy, e) :=
                      stream_attempt seq expected_pkt_type attempt_deadline true rest in
                    ((h, p) :: ys, hy, e)
              | None =>
                  let '(ys, hy, e) :=
                    stream_attempt seq expected_pkt_type attempt_deadline true rest in
                  ((h, p) :: ys, hy, e)
              end
        end
  end.

(** The receive loop of one attempt of [request_ack_stream]; it yields at
    most once ([yield; return]). *)
Fixpoint ack_attempt (seq : Z) (attempt_deadline : Q) (polls : list poll)
    : nat * attempt_end :=
  match polls with
  | [] => (0%nat, AttPending)
  | pl :: rest =>
      if remaining_le_zero attempt_deadline (clock_top pl) then (0%nat, AttTimeout)
      else
        match received pl with
        | RecvTimeout =>
            if Qle_bool attempt_deadline (clock_after pl) then (0%nat, AttTimeout)
            else ack_attempt seq attempt_deadline rest
        | RecvMalformed => (0%nat, AttRaise LifxProtocolError)
        | RecvPacket h _ =>
            if negb (Z.eqb (sequence h) seq) then ack_attempt seq attempt_deadline rest
            else if Z.eqb (pkt_type h) STATE_UNHANDLED_PKT_TYPE then
              (0%nat, AttRaise LifxUnsupportedCommandError)
            else (1%nat, AttReturn)
        end
  end.

(** Modelled from the spec: [MessageBuilder.next_sequence] (lifx.network.message,
    not in src) — "sequence is 8-bit wrapping per connection": it returns the
    current counter and advances it modulo 256. *)
Definition next_sequence (counter : Z) : Z * Z :=
  (counter, (counter + 1) mod 256).

(** [total_weight = (2 ** (max_retries + 1)) - 1] *)
Definition total_weight (max_retries : nat) : Z :=
  2 ^ (Z.of_nat max_retries + 1) - 1.

(** [base_timeout = timeout / total_weight] *)
Definition base_timeout (timeout : Q) (max_retries : nat) : Q :=
  timeout / inject_Z (total_weight max_retries).

(** [current_timeout = base_timeout * (2**attempt)] *)
Definition current_timeout (base : Q) (attempt : nat) : Q :=
  base * inject_Z (2 ^ Z.of_nat attempt).

(** The environment of one attempt: the [time.monotonic()] reading taken as
    [attempt_start] and the polls of the receive loop. *)
Definition attempt_env := (Q * list poll)%type.

(** The [for attempt in range(max_retries + 1)] loop of [request_stream],
    from attempt number [attempt] on, with [n] iterations left.  The retry
    sleep has no effect on the model.  The final [bool] is [has_yielded];
    [None] as the end means the loop was left by [break] or ran out. *)
Fixpoint stream_attempts (n attempt max_retries : nat) (base : Q)
    (expected_pkt_type : option Z) (counter : Z) (has_yielded : bool)
    (env : list attempt_env)
    : list yielded * bool * option stream_end :=
  match n with
  | O => ([], has_yielded, None)
  | S n' =>
      match env with
      | [] => ([], has_yielded, Some StreamPending)
      | (attempt_start, polls) :: env' =>
          let '(seq, counter') := next_sequence counter in
          let attempt_deadline := (attempt_start + current_timeout base attempt)%Q in
          let '(ys, hy, e) :=
            stream_attempt seq expected_pkt_type attempt_deadline has_yielded polls in
          match e with
          | AttTimeout =>
              if Nat.ltb attempt max_retries then
                let '(ys', hy', e') :=
                  stream_attempts n' (S attempt) max_retries base expected_pkt_type
                    counter' hy env' in
                (ys ++ ys', hy', e')
              else (ys, hy, None)
          | AttReturn => (ys, hy, Some StreamReturn)
          | AttRaise err => (ys, hy, Some (StreamRaise err))
          | AttPending => (ys, hy, Some StreamPending)
          end
      end
  end.

(** [_ActualConnection.request_stream]: [is_open] is the connection state,
    [counter] the builder's sequence counter, [env] one entry per attempt. *)
Definition request_stream (is_open : bool) (timeout : Q) (max_retries : nat)
    (expected_pkt_type : option Z) (counter : Z) (env : list attempt_env)
    : list yielded * stream_end :=
  if negb is_open then ([], StreamRaise LifxConnectionError)
  else
    let base := base_timeout timeout max_retries in
    let '(ys, hy, e) :=
      stream_attempts (S max_retries) 0 max_retries base expected_pkt_type counter
        false env in
    match e with
    | Some e' => (ys, e')
    | None => if negb hy then (ys, StreamRaise LifxTimeoutError) else (ys, StreamReturn)
    end.

(** The attempt loop of [request_ack_stream]; the [nat] counts yields. *)
Fixpoint ack_attempts (n attempt max_retries : nat) (base : Q) (counter : Z)
    (env : list attempt_env) : nat * option stream_end :=
  match n with
  | O => (0%nat, None)
  | S n' =>
      match env with
      | [] => (0%nat, Some StreamPending)
      | (attempt_start, polls) :: env' =>
          let '(seq, counter') := next_sequence counter in
          let attempt_deadline := (attempt_start + current_timeout base attempt)%Q in
          match ack_attempt seq attempt_deadline polls with
          | (k, AttTimeout) =>
              if Nat.ltb attempt max_retries then
                let '(k', e') := ack_attempts n' (S attempt) max_retries base counter' env' in
                (k + k', e')%nat
              else (k, None)
          | (k, AttReturn) => (k, Some StreamReturn)
          | (k, AttRaise err) => (k, Some (StreamRaise err))
          | (k, AttPending) => (k, Some StreamPending)
          end
      end
  end.

(** [_ActualConnection.request_ack_stream]. *)
Definition request_ack_stream (is_open : bool) (timeout : Q) (max_retries : nat)
    (counter : Z) (env : list attempt_env) : nat * stream_end :=
  if negb is_open then (0%nat, StreamRaise LifxConnectionError)
  else
    let base := base_timeout timeout max_retries in
    match ack_attempts (S max_retries) 0 max_retries base counter env with
    | (k, Some e) => (k, e)
    | (k, None) => (k, StreamRaise LifxTimeoutError)
    end.

(** Sum of a list of rationals. *)
Definition Qsum (l : list Q) : Q := fold_right Qplus 0%Q l.

(** No poll of an attempt brings a parsed packet carrying the attempt's
    sequence number (nor an unparsable datagram). *)
Definition no_matching_response (seq : Z) (polls : list poll) : Prop :=
  Forall (fun pl => match received pl with
                    | RecvTimeout => True
                    | RecvPacket h _ => sequence h <> seq
                    | RecvMalformed => False
                    end) polls.

(** The clock passes the attempt deadline at the top of some poll. *)
Definition attempt_expires (attempt_deadline : Q) (polls : list poll) : Prop :=
  Exists (fun pl => Qle attempt_deadline (clock_top pl)) polls.

(** Every one of the [n] attempts from attempt number [k] on receives no
    matching response and runs until its deadline. *)
Fixpoint silent_attempts (n k : nat) (base : Q) (counter : Z)
    (env : list attempt_env) : Prop :=
  match n with
  | O => True
  | S n' =>
      match env with
      | [] => False
      | (attempt_start, polls) :: env' =>
          no_matching_response (fst (next_sequence counter)) polls /\
          attempt_expires (attempt_start + current_timeout base k)%Q polls /\
          silent_attempts n' (S k) base (snd (next_sequence counter)) env'
      end
  end.

End Connection.

(* ------------------------------------------------------------------ *)
(** ** The connection pool ([ConnectionPool]) *)

Module Pool.

(** [ConnectionPoolMetrics] counters used by [get_connection]. *)
Record Metrics := mkMetrics {
  total_requests : nat;
  hits : nat;
  misses : nat;
  evictions : nat
}.

(** A connection is an object identity; [open_conns] is the set of
    connection objects whose [is_open] is true (a connection may be closed
    from elsewhere while it sits in the pool). *)
Definition conn := nat.

(** [self.connections: OrderedDict[str, tuple[_ActualConnection, float]]],
    as an association list in insertion order (first = least recently
    used). *)
Definition entries := list (string * (conn * Q)).

Record ConnectionPool := mkPool {
  max_connections : nat;
  connections : entries;
  open_conns : list conn;
  next_conn : nat;
  metrics : Metrics
}.

Definition empty_metrics : Metrics := mkMetrics 0 0 0 0.

(** [ConnectionPool(max_connections)] *)
Definition new_pool (max : nat) : ConnectionPool :=
  mkPool max [] [] 0 empty_metrics.

Definition is_open (open_ : list conn) (c : conn) : bool :=
  existsb (Nat.eqb c) open_.

(** [self.connections.get(serial)] / [serial in self.connections] *)
Fixpoint od_get (k : string) (l : entries) : option (conn * Q) :=
  match l with
  | [] => None
  | (k', v) :: rest => if String.eqb k k' then Some v else od_get k rest
  end.

(** [self.connections[serial] = v]: update in place when present,
    append at the end otherwise. *)
Fixpoint od_set (k : string) (v : conn * Q) (l : entries) : entries :=
  match l with
  | [] => [(k, v)]
  | (k', v') :: rest =>
      if String.eqb k k' then (k, v) :: rest else (k', v') :: od_set k v rest
  end.

(** [self.connections.move_to_end(serial)] *)
Definition od_move_to_end (k : string) (l : entries) : entries :=
  match od_get k l with
  | Some v => filter (fun e => negb (String.eqb k (fst e))) l ++ [(k, v)]
  | None => l
  end.

(** [self.connections.popitem(last=False)]; [None] is the [KeyError] of an
    empty dict. *)
Definition od_popitem_first (l : entries) : option ((string * (conn * Q)) * entries) :=
  match l with
  | [] => None
  | e :: rest => Some (e, rest)
  end.

(** [_ActualConnection.close()]: the object is no longer open. *)
Definition close (c : conn) (open_ : list conn) : list conn :=
  filter (fun c' => negb (Nat.eqb c c')) open_.

Inductive pool_result :=
  | PoolOk (p : ConnectionPool) (c : conn)
  | PoolKeyError (p : ConnectionPool).

Definition result_pool (r : pool_result) : ConnectionPool :=
  match r with PoolOk p _ => p | PoolKeyError p => p end.

(** [ConnectionPool.get_connection(serial, ...)] at [time.time() = now]. *)
Definition get_connection (serial : string) (now : Q) (p : ConnectionPool)
    : pool_result :=
  let m := metrics p in
  let m := mkMetrics (S (total_requests m)) (hits m) (misses m) (evictions m) in
  match od_get serial (connections p) with
  | Some (c, _) =>
      if is_open (open_conns p) c then
        (* cache hit: move to end = most recently used *)
        let m' := mkMetrics (total_requests m) (S (hits m)) (misses m) (evictions m) in
        let conns := od_set serial (c, now) (od_move_to_end serial (connections p)) in
        PoolOk (mkPool (max_connections p) conns (open_conns p) (next_conn p) m') c
      else
        (* stale entry: treated as a miss below *)
        let m' := mkMetrics (total_requests m) (hits m) (S (misses m)) (evictions m) in
        let c_new := next_conn p in
        let open1 := c_new :: open_conns p in
        if Nat.leb (max_connections p) (List.length (connections p)) then
          match od_popitem_first (connections p) with
          | None => PoolKeyError (mkPool (max_connections p) (connections p) open1
                                        (S c_new) m')
          | Some ((_, (old, _)), rest) =>
              let m'' := mkMetrics (total_requests m') (hits m') (misses m')
                                   (S (evictions m')) in
              PoolOk (mkPool (max_connections p) (od_set serial (c_new, now) rest)
                             (close old open1) (S c_new) m'') c_new
          end
        else
          PoolOk (mkPool (max_connections p) (od_set serial (c_new, now) (connections p))
                         open1 (S c_new) m') c_new
  | None =>
      let m' := mkMetrics (total_requests m) (hits m) (S (misses m)) (evictions m) in
      let c_new := next_conn p in
      let open1 := c_new :: open_conns p in
      if Nat.leb (max_connections p) (List.length (connections p)) then
        match od_popitem_first (connections p) with
        | None => PoolKeyError (mkPool (max_connections p) (connections p) open1
                                      (S c_new) m')
        | Some ((_, (old, _)), rest) =>
            let m'' := mkMetrics (total_requests m') (hits m') (misses m')
                                 (S (evictions m')) in
            PoolOk (mkPool (max_connections p) (od_set serial (c_new, now) rest)
                           (close old open1) (S c_new) m'') c_new
        end
      else
        PoolOk (mkPool (max_connections p) (od_set serial (c_new, now) (connections p))
                       open1 (S c_new) m') c_new
  end.

(** A sequence of [get_connection] calls; an exception stops the sequence. *)
Fixpoint run_requests (p : ConnectionPool) (reqs : list (string * Q)) : pool_result :=
  match reqs with
  | [] => PoolOk p 0%nat
  | (serial, now) :: rest =>
      match get_connection serial now p with
      | PoolOk p' _ => run_requests p' rest
      | PoolKeyError p' => PoolKeyError p'
      end
  end.

End Pool.

(* ------------------------------------------------------------------ *)
(** ** Python dicts keyed by strings, in insertion order *)

Module Dict.

Definition dict (A : Type) := list (string * A).

(** [d.get(k)] *)
Fixpoint get {A} (k : string) (d : dict A) : option A :=
  match d with
  | [] => None
  | (k', v) :: rest => if String.eqb k k' then Some v else get k rest
  end.

(** [d[k] = v]: in place when [k] is present, appended otherwise. *)
Fixpoint set {A} (k : string) (v : A) (d : dict A) : dict A :=
  match d with
  | [] => [(k, v)]
  | (k', v') :: rest => if String.eqb k k' then (k, v) :: rest else (k', v') :: set k v rest
  end.

(** [if k in d: del d[k]] *)
Definition del {A} (k : string) (d : dict A) : dict A :=
  filter (fun e => negb (String.eqb k (fst e))) d.

End Dict.

(* ------------------------------------------------------------------ *)
(** ** The effect conductor ([Conductor]) *)

Module Conductor.
Import Dict.

(** Effects and background tasks are compared by object identity ([is]):
    both are modelled by identifiers.  A light is modelled by its serial,
    which is all the conductor uses to key its registry. *)
Definition effect_id := nat.
Definition task_id := nat.
Definition Light := string.

Section Model.

(** [PreState] is captured and restored by [DeviceStateManager] (not part of
    this development); only its identity matters here. *)
Variable PreState : Type.
(** [effect.is_light_compatible(light)] *)
Variable is_light_compatible : effect_id -> Light -> bool.
(** [effect.inherit_prestate(other)] *)
Variable inherit_prestate : effect_id -> effect_id -> bool.
(** [self._state_manager.capture_state(light)]: the light's current state. *)
Variable capture_state : Light -> PreState.

(** [RunningEffect(effect, prestate, task)] *)
Record RunningEffect := mkRunning {
  effect : effect_id;
  prestate : PreState;
  task : task_id
}.

(** The conductor's state: [self._running], each effect object's
    [participants] list, and the identity of the next task
    [asyncio.create_task] returns. *)
Record ConductorState := mkConductor {
  running : dict RunningEffect;
  participants : effect_id -> list Light;
  next_task : task_id
}.

Definition set_participants (ps : effect_id -> list Light) (e : effect_id)
    (l : list Light) : effect_id -> list Light :=
  fun e' => if Nat.eqb e' e then l else ps e'.

(** [Conductor.effect(light)] *)
Definition effect_of (s : ConductorState) (light : Light) : option effect_id :=
  match get light (running s) with
  | Some r => Some (effect r)
  | None => None
  end.

(** [_filter_compatible_lights(effect, participants)] *)
Definition filter_compatible (e : effect_id) (lights : list Light) : list Light :=
  filter (is_light_compatible e) lights.

(** Register [light] in [self._running] for every light of [ls]. *)
Definition register_all (ls : list Light) (f : Light -> RunningEffect)
    (d : dict RunningEffect) : dict RunningEffect :=
  fold_left (fun acc light => set light (f light) acc) ls d.

(** The pre-state [start] records for [light]: inherited from the effect
    running there when the new effect accepts it, captured otherwise. *)
Definition start_prestate (e : effect_id) (d : dict RunningEffect) (light : Light)
    : PreState :=
  match get light d with
  | Some cur => if inherit_prestate e (effect cur) then prestate cur else capture_state light
  | None => capture_state light
  end.

(** [Conductor.start(effect, participants)] for a frame effect:
    [effect.participants = filtered_participants] is set before the task
    is created, then every participant is registered under the new task. *)
Definition start (e : effect_id) (ps : list Light) (s : ConductorState)
    : ConductorState :=
  let filtered := filter_compatible e ps in
  match filtered with
  | [] => s
  | _ :: _ =>
      let t := next_task s in
      let d := running s in
      mkConductor
        (register_all filtered (fun light => mkRunning e (start_prestate e d light) t) d)
        (set_participants (participants s) e filtered)
        (S t)
  end.

(** [for running in self._running.values(): if running.effect is effect:
    task = running.task; break] *)
Fixpoint find_task (e : effect_id) (d : dict RunningEffect) : option task_id :=
  match d with
  | [] => None
  | (_, r) :: rest => if Nat.eqb (effect r) e then Some (task r) else find_task e rest
  end.

(** The lights of [compatible] not already running [effect]. *)
Definition not_running_effect (e : effect_id) (d : dict RunningEffect)
    (compatible : list Light) : list Light :=
  filter (fun light => match get light d with
                       | Some r => negb (Nat.eqb (effect r) e)
                       | None => true
                       end) compatible.

(** [Conductor.add_lights(effect, lights)]. *)
Definition add_lights (e : effect_id) (lights : list Light) (s : ConductorState)
    : ConductorState :=
  let compatible := filter_compatible e lights in
  match compatible with
  | [] => s
  | _ :: _ =>
      let new_lights := not_running_effect e (running s) compatible in
      match new_lights with
      | [] => s
      | _ :: _ =>
          match find_task e (running s) with
          | None => s
          | Some t =>
              mkConductor
                (register_all new_lights (fun light => mkRunning e (capture_state light) t)
                   (running s))
                (set_participants (participants s) e (participants s e ++ new_lights))
                (next_task s)
          end
      end
  end.

(** [Conductor.stop(lights)].  The first locked block collects the
    pre-states to restore and the tasks to cancel; the tasks are awaited
    outside the lock, when other coroutines may change the registry
    ([interleave]); the second locked block restores the lights
    ([restore_ok = false] when a restore raises, so [stop] raises) and
    deletes every light of [lights] from the registry.  On return, the
    final state and the restorations performed. *)
Definition stop (lights : list Light) (s : ConductorState)
    (interleave : ConductorState -> ConductorState) (restore_ok : bool)
    : option (ConductorState * list (Light * PreState)) :=
  let lights_to_restore :=
    flat_map (fun light => match get light (running s) with
                           | Some r => [(light, prestate r)]
                           | None => []
                           end) lights in
  let s1 := interleave s in
  if restore_ok then
    Some (mkConductor (fold_left (fun d light => del light d) lights (running s1))
                      (participants s1) (next_task s1),
          lights_to_restore)
  else None.

End Model.

Arguments mkRunning {PreState}.
Arguments effect {PreState}.
Arguments prestate {PreState}.
Arguments task {PreState}.
Arguments mkConductor {PreState}.
Arguments running {PreState}.
Arguments participants {PreState}.
Arguments next_task {PreState}.
Arguments effect_of {PreState}.
Arguments register_all {PreState}.
Arguments start_prestate {PreState}.
Arguments start {PreState}.
Arguments find_task {PreState}.
Arguments not_running_effect {PreState}.
Arguments add_lights {PreState}.
Arguments stop {PreState}.

End Conductor.

(* ------------------------------------------------------------------ *)
(** ** Frame effects ([lifx/effects/frame_effect.py] and the catalog) *)

(** Python floats are modelled as real numbers (no rounding, no
    infinities); a raised exception ([ZeroDivisionError], [IndexError],
    [TypeError]) is [None]. *)
Module Frames.
Local Open Scope R_scope.

Record HSBK := mkHSBK { hue : R; saturation : R; brightness : R; kelvin : R }.

Record FrameContext := mkContext {
  elapsed_s : R;
  device_index : Z;
  pixel_count : Z;
  canvas_width : Z;
  canvas_height : Z }.

Local Notation "'let?' x ':=' e 'in' k" :=
  (match e with Some x => k | None => None end)
  (at level 200, x name, e at level 100, k at level 200).

(** *** Python numeric built-ins *)

(** [math.floor]: [up x] is the least integer strictly above [x]. *)
Definition py_floor (x : R) : Z := (up x - 1)%Z.

(** [int(x)] on a float truncates toward zero. *)
Definition py_int (x : R) : Z :=
  if Rle_dec 0 x then py_floor x else (- py_floor (- x))%Z.

(** [round(x)]: round half to even. *)
Definition py_round (x : R) : Z :=
  let f := py_floor x in
  let d := x - IZR f in
  if Rlt_dec d (1 / 2) then f
  else if Req_EM_T d (1 / 2) then (if Z.even f then f else (f + 1)%Z)
  else (f + 1)%Z.

(** [x / y] on floats: [ZeroDivisionError] when [y = 0]. *)
Definition py_div (x y : R) : option R :=
  if Req_EM_T y 0 then None else Some (x / y).

(** [x % m] on floats: the result has the sign of [m]. *)
Definition py_fmod (x m : R) : option R :=
  if Req_EM_T m 0 then None else Some (x - m * IZR (py_floor (x / m))).

(** [a // b] and [a % b] on ints (floor division, as [Z.div]). *)
Definition py_zdiv (a b : Z) : option Z :=
  if Z.eqb b 0 then None else Some (a / b)%Z.
Definition py_zmod (a b : Z) : option Z :=
  if Z.eqb b 0 then None else Some (a mod b)%Z.

(** [x ** y] for a positive exponent [y]: a negative base gives a complex
    number, on which the following [min]/[max] raise [TypeError]. *)
Definition py_pow (x y : R) : option R :=
  if Rlt_dec x 0 then None
  else if Req_EM_T x 0 then Some 0 else Some (Rpower x y).

(** [max(0.0, min(1.0, x))] *)
Definition clamp01 (x : R) : R := Rmax 0 (Rmin 1 x).

(** [xs[i]] with Python's negative indices. *)
Definition py_index {A} (xs : list A) (i : Z) : option A :=
  if (0 <=? i)%Z then nth_error xs (Z.to_nat i)
  else if (Z.of_nat (List.length xs) + i <? 0)%Z then None
  else nth_error xs (Z.to_nat (Z.of_nat (List.length xs) + i)).

(** [range(n)] *)
Definition py_range (n : Z) : list Z := map Z.of_nat (seq 0 (Z.to_nat n)).

(** The [for i in range(n): colors.append(...)] loops: the first
    exception ends the frame. *)
Fixpoint map_frame {A} (f : Z -> option A) (l : list Z) : option (list A) :=
  match l with
  | [] => Some []
  | i :: rest =>
      let? c := f i in
      let? cs := map_frame f rest in
      Some (c :: cs)
  end.

(** *** Constructors *)

Inductive init_result (A : Type) := Constructed (x : A) | ValueError.
Arguments Constructed {A}.
Arguments ValueError {A}.

Record FrameEffect := mkFrameEffect {
  power_on : bool; fps : R; duration : option R }.

(** [FrameEffect.__init__]; [LIFXEffect.__init__] only stores [power_on]. *)
Definition FrameEffect_init (power_on : bool) (fps : R) (duration : option R)
  : init_result FrameEffect :=
  if Rle_dec fps 0 then ValueError
  else match duration with
       | Some d => if Rle_dec d 0 then ValueError
                   else Constructed (mkFrameEffect power_on fps duration)
       | None => Constructed (mkFrameEffect power_on fps duration)
       end.

(** [not (lo <= x <= hi)] *)
Definition out_of (lo hi x : R) : bool :=
  if Rle_dec lo x then (if Rle_dec x hi then false else true) else true.

Record EffectRainbow := mkRainbow {
  rainbow_base : FrameEffect;
  period : R; rainbow_brightness : R; rainbow_saturation : R; spread : R }.

Definition EffectRainbow_init (power_on : bool) (period brightness saturation spread : R)
  : init_result EffectRainbow :=
  if Rle_dec period 0 then ValueError
  else if out_of 0 1 brightness then ValueError
  else if out_of 0 1 saturation then ValueError
  else if out_of 0 360 spread then ValueError
  else match FrameEffect_init power_on 20 None with
       | Constructed base =>
           Constructed (mkRainbow base period brightness saturation spread)
       | ValueError => ValueError
       end.

Record EffectFlame := mkFlame {
  flame_base : FrameEffect;
  intensity : R; speed : R; kelvin_min : Z; kelvin_max : Z; flame_brightness : R }.

Section FlameInit.

(** [lifx.const.MIN_KELVIN] and [lifx.const.MAX_KELVIN] *)
Variables MIN_KELVIN MAX_KELVIN : Z.

Definition EffectFlame_init (power_on : bool) (intensity speed : R)
  (kelvin_min kelvin_max : Z) (brightness : R) : init_result EffectFlame :=
  if out_of 0 1 intensity then ValueError
  else if Rle_dec speed 0 then ValueError
  else if (kelvin_min <? MIN_KELVIN)%Z then ValueError
  else if (MAX_KELVIN <? kelvin_max)%Z then ValueError
  else if (kelvin_max <? kelvin_min)%Z then ValueError
  else if out_of 0 1 brightness then ValueError
  else match FrameEffect_init power_on 20 None with
       | Constructed base =>
           Constructed (mkFlame base intensity speed kelvin_min kelvin_max brightness)
       | ValueError => ValueError
       end.

End FlameInit.

(** *** [EffectFlame.generate_frame] *)

Definition flicker (t seed : R) : R :=
  let v1 := sin (t * 3.7 + seed * 17.1) * 0.5 + 0.5 in
  let v2 := sin (t * 7.3 + seed * 31.7) * 0.25 + 0.5 in
  let v3 := sin (t * 13.1 + seed * 53.3) * 0.125 + 0.5 in
  (v1 + v2 + v3) / 3.

Definition flame_generate_frame (fx : EffectFlame) (ctx : FrameContext)
  : option (list HSBK) :=
  let t := elapsed_s ctx * speed fx in
  let is_matrix := (1 <? canvas_height ctx)%Z in
  let kelvin_range := (kelvin_max fx - kelvin_min fx)%Z in
  map_frame (fun i =>
    let? seed := py_div (IZR i) (IZR (Z.max (pixel_count ctx) 1)) in
    let fl := flicker t seed in
    let pixel_brightness :=
      flame_brightness fx * (1 - intensity fx + intensity fx * fl) in
    let? pixel_brightness :=
      if is_matrix then
        let? y := py_zdiv i (canvas_width ctx) in
        let? yh := py_div (IZR y) (IZR (canvas_height ctx)) in
        let? p := py_pow yh 0.7 in
        Some (pixel_brightness * (1 - p))
      else Some pixel_brightness in
    Some (mkHSBK (IZR (py_round (fl * 40)))
                 (0.85 + 0.15 * (1 - fl))
                 (clamp01 pixel_brightness)
                 (IZR (py_round (IZR (kelvin_min fx) + fl * IZR kelvin_range)))))
    (py_range (pixel_count ctx)).

(** *** The frame loop ([FrameEffect.async_play]), one tick *)

Record Animator := mkAnimator {
  anim_pixel_count : Z; anim_canvas_width : Z; anim_canvas_height : Z }.

Fixpoint contexts_from (elapsed : R) (idx : Z) (anims : list Animator)
  : list FrameContext :=
  match anims with
  | [] => []
  | a :: rest =>
      mkContext elapsed idx (anim_pixel_count a) (anim_canvas_width a)
                (anim_canvas_height a) :: contexts_from elapsed (idx + 1) rest
  end.

(** The [for idx, animator in enumerate(self._animators)] body: the frames
    handed to [send_frame], in order, and whether [generate_frame] raised
    (which ends [async_play]). *)
Fixpoint tick_from {P : Type} (generate_frame : FrameContext -> option (list HSBK))
  (as_tuple : HSBK -> P) (elapsed : R) (idx : Z) (anims : list Animator)
  : list (Animator * list P) * bool :=
  match anims with
  | [] => ([], false)
  | animator :: rest =>
      let ctx := mkContext elapsed idx (anim_pixel_count animator)
                   (anim_canvas_width animator) (anim_canvas_height animator) in
      match generate_frame ctx with
      | None => ([], true)
      | Some hsbk_frame =>
          let protocol_frame := map as_tuple hsbk_frame in
          let '(sent, raised) := tick_from generate_frame as_tuple elapsed (idx + 1) rest in
          ((animator, protocol_frame) :: sent, raised)
      end
  end.

Definition frame_tick {P : Type} (generate_frame : FrameContext -> option (list HSBK))
  (as_tuple : HSBK -> P) (elapsed : R) (anims : list Animator) :=
  tick_from generate_frame as_tuple elapsed 0 anims.

Definition frame_contexts (elapsed : R) (anims : list Animator) :=
  contexts_from elapsed 0 anims.

(** *** The rest of the catalog *)

Definition sum_R (xs : list R) : R := fold_right Rplus 0 xs.

(** Shortest-path hue difference ([if diff > 180: ... elif diff < -180: ...]). *)
Definition hue_wrap (diff : R) : R :=
  if Rlt_dec 180 diff then diff - 360
  else if Rlt_dec diff (-180) then diff + 360
  else diff.

Section Catalog.

(** [lifx.const.KELVIN_NEUTRAL] *)
Variable KELVIN_NEUTRAL : R.

(** [EffectRainbow.generate_frame] *)
Definition rainbow_generate_frame (fx : EffectRainbow) (ctx : FrameContext)
  : option (list HSBK) :=
  let? q := py_div (elapsed_s ctx) (period fx) in
  let degrees_scrolled := q * 360 in
  let? device_offset := py_fmod (IZR (device_index ctx) * spread fx) 360 in
  map_frame (fun i =>
    let? r := py_div (IZR i) (IZR (pixel_count ctx)) in
    let pixel_offset := r * 360 in
    let? h := py_fmod (degrees_scrolled + device_offset + pixel_offset) 360 in
    Some (mkHSBK (IZR (py_round h)) (rainbow_saturation fx)
                 (rainbow_brightness fx) KELVIN_NEUTRAL))
    (py_range (pixel_count ctx)).

Record EffectAurora := mkAurora {
  aurora_base : FrameEffect;
  aurora_speed : R; aurora_brightness : R; palette : list R; aurora_spread : R }.

(** [EffectAurora._palette_hue] *)
Definition palette_hue (fx : EffectAurora) (position : R) : option Z :=
  let n := Z.of_nat (List.length (palette fx)) in
  let scaled := position * IZR n in
  let? idx := py_zmod (py_int scaled) n in
  let frac := scaled - IZR (py_int scaled) in
  let? h1 := py_index (palette fx) idx in
  let? j := py_zmod (idx + 1) n in
  let? h2 := py_index (palette fx) j in
  let diff := hue_wrap (h2 - h1) in
  let? h := py_fmod (h1 + frac * diff) 360 in
  Some (py_round h).

(** [EffectAurora.generate_frame] *)
Definition aurora_generate_frame (fx : EffectAurora) (ctx : FrameContext)
  : option (list HSBK) :=
  let t := elapsed_s ctx * aurora_speed fx * 0.05 in
  let? device_offset := py_div (IZR (device_index ctx) * aurora_spread fx) 360 in
  let is_matrix := (1 <? canvas_height ctx)%Z in
  map_frame (fun i =>
    let? s := py_div (IZR i) (IZR (Z.max (pixel_count ctx) 1)) in
    let? position := py_fmod (s + t + device_offset) 1 in
    let? hue := palette_hue fx position in
    let brightness_mod := 0.5 + 0.5 * sin (s * PI * 3 + t * 6) in
    let pixel_brightness := aurora_brightness fx * brightness_mod in
    let? pixel_brightness :=
      if is_matrix then
        let? y := py_zdiv i (canvas_width ctx) in
        let? y_norm := py_div (IZR y) (IZR (Z.max (canvas_height ctx - 1) 1)) in
        Some (pixel_brightness * sin (y_norm * PI))
      else Some pixel_brightness in
    let saturation := 0.7 + 0.3 * sin (position * 2 * PI) in
    Some (mkHSBK (IZR hue) saturation (clamp01 pixel_brightness) KELVIN_NEUTRAL))
    (py_range (pixel_count ctx)).

End Catalog.

(** [EffectColorloop]; [initial_colors] and [direction] are written by
    [async_setup] ([_initial_colors], [_direction]). *)
Record EffectColorloop := mkColorloop {
  colorloop_base : FrameEffect;
  colorloop_period : R; change : R; colorloop_spread : R;
  colorloop_brightness : option R;
  saturation_min : R; saturation_max : R;
  transition : option R; synchronized : bool;
  initial_colors : list HSBK; direction : Z }.

Definition generate_synchronized_color (fx : EffectColorloop) (degrees_rotated : R)
  : option HSBK :=
  let base_hue := match initial_colors fx with c :: _ => hue c | [] => 0 end in
  let? h := py_fmod (base_hue + degrees_rotated) 360 in
  let new_hue := py_round h in
  let shared_saturation := (saturation_min fx + saturation_max fx) / 2 in
  let n := INR (List.length (initial_colors fx)) in
  let? shared_brightness :=
    match colorloop_brightness fx with
    | Some b => Some b
    | None => py_div (sum_R (map brightness (initial_colors fx))) n
    end in
  let? k := py_div (sum_R (map kelvin (initial_colors fx))) n in
  Some (mkHSBK (IZR new_hue) shared_saturation shared_brightness (IZR (py_int k))).

Definition generate_spread_color (fx : EffectColorloop) (degrees_rotated : R)
  (device_index : Z) : option HSBK :=
  let color_index :=
    Z.min device_index (Z.of_nat (List.length (initial_colors fx)) - 1) in
  let? c := py_index (initial_colors fx) color_index in
  let base_hue := hue c in
  let? device_spread_offset := py_fmod (IZR device_index * colorloop_spread fx) 360 in
  let? h := py_fmod (base_hue + degrees_rotated + device_spread_offset) 360 in
  let b := match colorloop_brightness fx with Some b => b | None => brightness c end in
  Some (mkHSBK (IZR (py_round h)) ((saturation_min fx + saturation_max fx) / 2)
               b (kelvin c)).

(** [EffectColorloop.generate_frame]; [[color] * n] is [repeat]. *)
Definition colorloop_generate_frame (fx : EffectColorloop) (ctx : FrameContext)
  : option (list HSBK) :=
  match initial_colors fx with
  | [] => Some (repeat (mkHSBK 0 1 0.8 3500) (Z.to_nat (pixel_count ctx)))
  | _ :: _ =>
      let? q := py_div (elapsed_s ctx) (colorloop_period fx) in
      let degrees_rotated := q * 360 * IZR (direction fx) in
      let? color :=
        if synchronized fx then generate_synchronized_color fx degrees_rotated
        else generate_spread_color fx degrees_rotated (device_index ctx) in
      Some (repeat color (Z.to_nat (pixel_count ctx)))
  end.


(** [EffectProgress]: [foreground] is an HSBK or a list of gradient stops. *)
Inductive Foreground := FgColor (c : HSBK) | FgGradient (stops : list HSBK).

Record EffectProgress := mkProgress {
  progress_base : FrameEffect;
  start_value : R; end_value : R; position : R;
  foreground : Foreground; background : HSBK;
  spot_brightness : R; spot_width : R; spot_speed : R }.

(** [EffectProgress._gradient_color] *)
Definition gradient_color (position : R) (stops : list HSBK) : option HSBK :=
  let position := clamp01 position in
  let n := (Z.of_nat (List.length stops) - 1)%Z in
  let scaled := position * IZR n in
  let idx := Z.min (py_int scaled) (n - 1) in
  let frac := scaled - IZR idx in
  let? c1 := py_index stops idx in
  let? c2 := py_index stops (idx + 1) in
  let hue_diff := hue_wrap (hue c2 - hue c1) in
  let? h := py_fmod (hue c1 + frac * hue_diff) 360 in
  Some (mkHSBK (IZR (py_round h))
               (saturation c1 + frac * (saturation c2 - saturation c1))
               (brightness c1 + frac * (brightness c2 - brightness c1))
               (IZR (py_round (kelvin c1 + frac * (kelvin c2 - kelvin c1))))).

(** [EffectProgress._foreground_at] *)
Definition foreground_at (fx : EffectProgress) (position : R) : option HSBK :=
  match foreground fx with
  | FgColor c => Some c
  | FgGradient stops => gradient_color position stops
  end.

(** [EffectProgress.generate_frame] *)
Definition progress_generate_frame (fx : EffectProgress) (ctx : FrameContext)
  : option (list HSBK) :=
  let value_range := end_value fx - start_value fx in
  let? fill :=
    if Rlt_dec 0 value_range then py_div (position fx - start_value fx) value_range
    else Some 0 in
  let fill := clamp01 fill in
  let fill_end := py_round (fill * IZR (pixel_count ctx)) in
  let '(spot_pos, spot_pixel_width) :=
    if (0 <? fill_end)%Z then
      (IZR fill_end * ((sin (elapsed_s ctx * spot_speed fx * 2 * PI) + 1) / 2),
       Rmax 1 (spot_width fx * IZR fill_end))
    else (0, 1) in
  map_frame (fun i =>
    if (i <? fill_end)%Z then
      let? bar_pos := py_div (IZR i) (IZR (Z.max (pixel_count ctx - 1) 1)) in
      let? base := foreground_at fx bar_pos in
      let dist := Rabs (IZR i - spot_pos) in
      let? r := py_div dist spot_pixel_width in
      let boost := exp (- (r ^ 2)) in
      let pixel_brightness :=
        brightness base + boost * (spot_brightness fx - brightness base) in
      Some (mkHSBK (hue base) (saturation base) (clamp01 pixel_brightness)
                   (kelvin base))
    else Some (background fx))
    (py_range (pixel_count ctx)).

(** [SunOrigin] ([Literal["bottom", "center"]]) *)
Inductive SunOrigin := Bottom | Center.

(** The colour phases of [_sun_frame]: (hue, saturation, brightness, kelvin). *)
Definition sun_phase (pp norm_dist brightness pp_bright : R) : Z * R * R * Z :=
  if Rlt_dec pp 0.2 then
    let phase := pp / 0.2 in
    (240%Z, 0.8, brightness * 0.02 * (1 + phase * 2), 1500%Z)
  else if Rlt_dec pp 0.4 then
    let phase := (pp - 0.2) / 0.2 in
    (py_round (280 + phase * 60), 0.7 + 0.2 * (1 - norm_dist),
     brightness * (0.06 + 0.14 * phase), py_round (1500 + phase * 500))
  else if Rlt_dec pp 0.6 then
    let phase := (pp - 0.4) / 0.2 in
    (py_round (20 + phase * 20), 0.8 - 0.2 * phase,
     brightness * pp_bright, py_round (2000 + phase * 1000))
  else if Rlt_dec pp 0.8 then
    let phase := (pp - 0.6) / 0.2 in
    (py_round (50 + phase * 10), 0.6 - 0.3 * phase,
     brightness * pp_bright, py_round (3000 + phase * 500))
  else
    let phase := (pp - 0.8) / 0.2 in
    (60%Z, Rmax 0.1 (0.3 - 0.2 * phase),
     brightness * pp_bright, py_round (3500 + phase * 500)).

(** [_sun_frame] *)
Definition sun_frame (ctx : FrameContext) (progress brightness : R)
  (origin : SunOrigin) : option (list HSBK) :=
  let progress := clamp01 progress in
  let cx := (IZR (canvas_width ctx) - 1) / 2 in
  let cy := match origin with
            | Center => (IZR (canvas_height ctx) - 1) / 2
            | Bottom => IZR (canvas_height ctx - 1)
            end in
  let max_dist :=
    if Rlt_dec 0 cx then sqrt (cx * cx + cy * cy)
    else if Rlt_dec 0 cy then sqrt (cx * cx + cy * cy) else 1 in
  let spread := 0.6 in
  map_frame (fun i =>
    let? x := py_zmod i (canvas_width ctx) in
    let? y := py_zdiv i (canvas_width ctx) in
    let dx := IZR x - cx in
    let dy := IZR y - cy in
    let dist := sqrt (dx * dx + dy * dy) in
    let? norm_dist :=
      if Rlt_dec 0 max_dist then py_div dist max_dist else Some 0 in
    let pp := clamp01 (progress * (1 + spread) - norm_dist * spread) in
    let? pp_bright := py_pow pp 2.2 in
    let '(hue0, saturation0, pixel_brightness0, kelvin0) :=
      sun_phase pp norm_dist brightness pp_bright in
    let proximity := Rmax 0 (1 - norm_dist * 1.5) in
    let pixel_brightness := pixel_brightness0 * (0.5 + 0.5 * proximity) in
    let '(hue1, saturation1) :=
      if Rlt_dec norm_dist 0.5 then
        let warmth := 1 - norm_dist * 2 in
        (Z.max 0 (hue0 - py_round (warmth * 20)), Rmin 1 (saturation0 + warmth * 0.2))
      else (hue0, saturation0) in
    Some (mkHSBK (IZR (Z.max 0 (Z.min 360 hue1))) saturation1
                 (clamp01 pixel_brightness) (IZR kelvin0)))
    (py_range (pixel_count ctx)).

Record EffectSunrise := mkSunrise {
  sunrise_base : FrameEffect; sunrise_brightness : R; sunrise_origin : SunOrigin }.

Record EffectSunset := mkSunset {
  sunset_base : FrameEffect; sunset_brightness : R; power_off : bool;
  sunset_origin : SunOrigin }.

(** [EffectSunrise.generate_frame]: [if self._duration] is false for
    [None] and for [0.0]. *)
Definition sunrise_generate_frame (fx : EffectSunrise) (ctx : FrameContext)
  : option (list HSBK) :=
  let? progress :=
    match duration (sunrise_base fx) with
    | Some d => if Req_EM_T d 0 then Some 1 else py_div (elapsed_s ctx) d
    | None => Some 1
    end in
  sun_frame ctx progress (sunrise_brightness fx) (sunrise_origin fx).

(** [EffectSunset.generate_frame] *)
Definition sunset_generate_frame (fx : EffectSunset) (ctx : FrameContext)
  : option (list HSBK) :=
  let? r :=
    match duration (sunset_base fx) with
    | Some d => if Req_EM_T d 0 then Some 0 else py_div (elapsed_s ctx) d
    | None => Some 0
    end in
  sun_frame ctx (1 - r) (sunset_brightness fx) (sunset_origin fx).

(** A frame is produced and has one colour per pixel. *)
Definition frame_has_pixel_count (frame : option (list HSBK)) (ctx : FrameContext)
  : Prop :=
  exists colors, frame = Some colors /\ Z.of_nat (List.length colors) = pixel_count ctx.

(** Population variance of the pixel brightnesses of a frame. *)
Definition mean (xs : list R) : R := sum_R xs / INR (List.length xs).
Definition variance (xs : list R) : R :=
  sum_R (map (fun x => (x - mean xs) ^ 2) xs) / INR (List.length xs).
Definition brightness_variance (frame : list HSBK) : R :=
  variance (map brightness frame).

(** All pixels of a frame have the same brightness. *)
Definition constant_brightness (frame : list HSBK) : Prop :=
  forall c c', In c frame -> In c' frame -> brightness c = brightness c'.

End Frames.

(* ------------------------------------------------------------------ *)
(** ** Retry backoff and response checks ([_ActualConnection]) *)

Module ConnectionMore.
Import Connection.
(** [_RETRY_SLEEP_BASE = 0.1] *)
Definition RETRY_SLEEP_BASE : Q := 1 # 10.

(** [random.uniform(a, b)] is [a + (b - a) * random.random()]; [u] is the
    value drawn by [random.random()], in [[0, 1)]. *)
Definition uniform (a b u : Q) : Q := a + (b - a) * u.

(** [_ActualConnection._calculate_retry_sleep_with_jitter(attempt)] *)
Definition calculate_retry_sleep_with_jitter (attempt : nat) (u : Q) : Q :=
  let exponential_delay := RETRY_SLEEP_BASE * inject_Z (2 ^ Z.of_nat attempt) in
  uniform 0 exponential_delay u.

(** The sleeps of a request whose attempts [0 .. n-1] all time out and are
    retried ([if attempt < max_retries: sleep]); [us] are the draws. *)
Fixpoint retry_sleeps (attempt : nat) (us : list Q) : list Q :=
  match us with
  | [] => []
  | u :: us' => calculate_retry_sleep_with_jitter attempt u :: retry_sleeps (S attempt) us'
  end.

(** Errors an attempt raises. *)
Definition attempt_error_ok (e : attempt_end) : Prop :=
  match e with
  | AttRaise err => err = LifxProtocolError \/ err = LifxUnsupportedCommandError
  | _ => True
  end.

Definition valid_response (seq : Z) (exp : option Z) (y : yielded) : Prop :=
  sequence (fst y) = seq /\ pkt_type (fst y) <> STATE_UNHANDLED_PKT_TYPE /\
  match exp with Some t => pkt_type (fst y) = t | None => True end.

(** The errors a request stream may raise besides [LifxTimeoutError]. *)
Definition stream_error_ok (e : option stream_end) : Prop :=
  match e with
  | Some (StreamRaise err) => err = LifxProtocolError \/ err = LifxUnsupportedCommandError
  | _ => True
  end.
End ConnectionMore.

(* ------------------------------------------------------------------ *)
(** ** Pool metrics and lifecycle ([ConnectionPool]) *)

Module PoolMore.
Import Pool.

(** [ConnectionPoolMetrics.hit_rate] *)
Definition hit_rate (m : Metrics) : Q :=
  if Nat.ltb 0 (total_requests m)
  then inject_Z (Z.of_nat (hits m)) / inject_Z (Z.of_nat (total_requests m))
  else 0.

(** [ConnectionPool.close_all]: every pooled connection is closed, then the
    dict is cleared. *)
Definition close_all (p : ConnectionPool) : ConnectionPool :=
  mkPool (max_connections p) []
         (fold_left (fun o e => close (fst (snd e)) o) (connections p) (open_conns p))
         (next_conn p) (metrics p).

(** A pooled connection closed by another holder of it
    ([_ActualConnection.close()]). *)
Definition close_elsewhere (c : conn) (p : ConnectionPool) : ConnectionPool :=
  mkPool (max_connections p) (connections p) (close c (open_conns p))
         (next_conn p) (metrics p).

(** The pool states a program can reach: [ConnectionPool(max_connections)],
    then [get_connection] calls (also one that raised) and closes of
    connections from elsewhere. *)
Inductive reachable (max : nat) : ConnectionPool -> Prop :=
  | reach_new : reachable max (new_pool max)
  | reach_get serial now p :
      reachable max p -> reachable max (result_pool (get_connection serial now p))
  | reach_close c p : reachable max p -> reachable max (close_elsewhere c p).

(** The invariant [get_connection] keeps: one entry per serial, and every
    connection object the pool knows was created before [next_conn]; the
    metric counters add up. *)
Definition pool_inv (p : ConnectionPool) : Prop :=
  NoDup (map fst (connections p)) /\
  Forall (fun e => (fst (snd e) < next_conn p)%nat) (connections p) /\
  Forall (fun c => (c < next_conn p)%nat) (open_conns p) /\
  (hits (metrics p) + misses (metrics p) = total_requests (metrics p))%nat /\
  (evictions (metrics p) <= misses (metrics p))%nat.
End PoolMore.

(* ------------------------------------------------------------------ *)
(** ** Removing lights and effect cleanup ([Conductor]) *)

Module ConductorMore.
Import Dict Conductor.

Local Open Scope nat_scope.

(** [Animator] objects are compared by identity only. *)
Definition animator := nat.

(** [enumerate(effect.participants)] searched for the first participant
    whose serial is [serial]. *)
Fixpoint index_of (serial : Light) (ps : list Light) : option nat :=
  match ps with
  | [] => None
  | p :: rest =>
      if String.eqb p serial then Some 0
      else match index_of serial rest with Some i => Some (S i) | None => None end
  end.

(** [xs.pop(idx)], only called with [idx < len(xs)]. *)
Fixpoint pop_at {A} (idx : nat) (xs : list A) : list A :=
  match xs, idx with
  | [], _ => []
  | _ :: rest, 0 => rest
  | x :: rest, S i => x :: pop_at i rest
  end.

(** [effect._animators] of every frame effect object. *)
Definition set_animators (an : effect_id -> list animator) (e : effect_id)
    (l : list animator) : effect_id -> list animator :=
  fun e' => if Nat.eqb e' e then l else an e'.

(** [tasks_to_cancel.add(task)] on a set. *)
Definition set_add (t : task_id) (ts : list task_id) : list task_id :=
  if existsb (Nat.eqb t) ts then ts else ts ++ [t].

Section Remove.

Variable PreState : Type.
(** [isinstance(effect, FrameEffect)] *)
Variable is_frame_effect : effect_id -> bool.

(** [sum(1 for r in self._running.values()
         if r.task is running.task and r.effect is effect)] *)
Definition count_running (t : task_id) (e : effect_id) (d : dict (RunningEffect PreState))
    : nat :=
  List.length (filter (fun kv => Nat.eqb (task (snd kv)) t && Nat.eqb (effect (snd kv)) e) d).

(** The locked loop of [Conductor.remove_lights(lights, restore_state)]:
    the registry and participants, the animators of frame effects, the
    set [tasks_to_cancel] and the list [lights_to_restore]. *)
Fixpoint remove_lights_loop (restore_state : bool) (lights : list Light)
    (s : ConductorState PreState) (anims : effect_id -> list animator)
    (cancel : list task_id) (restore : list (Light * PreState))
    : ConductorState PreState * (effect_id -> list animator) * list task_id
      * list (Light * PreState) :=
  match lights with
  | [] => (s, anims, cancel, restore)
  | serial :: rest =>
      match get serial (running s) with
      | None => remove_lights_loop restore_state rest s anims cancel restore
      | Some r =>
          let e := effect r in
          let anims' :=
            if is_frame_effect e then
              match index_of serial (participants s e) with
              | Some idx =>
                  if Nat.ltb idx (List.length (anims e))
                  then set_animators anims e (pop_at idx (anims e))
                  else anims
              | None => anims
              end
            else anims in
          let parts' := set_participants (participants s) e
                          (filter (fun p => negb (String.eqb p serial)) (participants s e)) in
          let restore' := if restore_state then restore ++ [(serial, prestate r)] else restore in
          let remaining := count_running (task r) e (running s) in
          let cancel' := if Nat.leb remaining 1 then set_add (task r) cancel else cancel in
          remove_lights_loop restore_state rest
            (mkConductor (del serial (running s)) parts' (next_task s))
            anims' cancel' restore'
      end
  end.

(** [Conductor.remove_lights(lights, restore_state)]: the state after the
    locked block, the tasks it cancels and the pre-states it restores. *)
Definition remove_lights (restore_state : bool) (lights : list Light)
    (s : ConductorState PreState) (anims : effect_id -> list animator)
    : ConductorState PreState * (effect_id -> list animator) * list task_id
      * list (Light * PreState) :=
  remove_lights_loop restore_state lights s anims [] [].

(** Whether light [l] is registered to effect [e] in [d]. *)
Definition registered_to (e : effect_id) (d : dict (RunningEffect PreState)) (l : Light) : bool :=
  match get l d with Some r => Nat.eqb (effect r) e | None => false end.

(** [t] is the task of some registered light, and every light registered
    under [t] is among [lights]. *)
Definition covers (t : task_id) (d : dict (RunningEffect PreState)) (lights : list Light) : Prop :=
  (exists k x, In (k, x) d /\ task x = t) /\
  (forall k x, In (k, x) d -> task x = t -> In k lights).

End Remove.

(** How [await effect.async_perform(participants)] ended in
    [_run_effect_with_cleanup]. *)
Inductive outcome := Completed | Failed | Cancelled.

(** [Conductor._run_effect_with_cleanup(effect, participants)] after the
    effect ran: on completion the pre-states to restore (when
    [effect.restore_on_complete]) are read under the lock, then every
    participant is deleted from the registry; an exception deletes them
    too; a cancellation is re-raised and changes nothing. *)
Definition run_effect_cleanup {PreState} (o : outcome) (restore_on_complete : bool)
    (ps : list Light) (s : ConductorState PreState)
    : ConductorState PreState * list (Light * PreState) :=
  let deregistered :=
    mkConductor (fold_left (fun d light => del light d) ps (running s))
                (participants s) (next_task s) in
  match o with
  | Completed =>
      let lights_to_restore :=
        if restore_on_complete
        then flat_map (fun light => match get light (running s) with
                                    | Some r => [(light, prestate r)]
                                    | None => []
                                    end) ps
        else [] in
      (deregistered, lights_to_restore)
  | Failed => (deregistered, [])
  | Cancelled => (s, [])
  end.

Arguments count_running {PreState}.
Arguments remove_lights_loop {PreState}.
Arguments remove_lights {PreState}.
Arguments registered_to {PreState}.
Arguments covers {PreState}.

End ConductorMore.

(* ------------------------------------------------------------------ *)
(** ** More of the frame effects *)

Module FramesMore.
Import Frames.
Local Open Scope R_scope.

(** [EffectColorloop.__init__]: the checks in source order, then
    [fps = max(20.0, (360.0 / change) / period) if change > 0 else 20.0]
    (both divisors are positive there), [super().__init__(power_on, fps,
    None)], and the runtime state [_initial_colors = []], [_direction = 1]. *)
Definition EffectColorloop_init (power_on : bool) (period change spread : R)
  (brightness : option R) (saturation_min saturation_max : R)
  (transition : option R) (synchronized : bool) : init_result EffectColorloop :=
  if Rle_dec period 0 then ValueError
  else if out_of 0 360 change then ValueError
  else if out_of 0 360 spread then ValueError
  else if match brightness with Some b => out_of 0 1 b | None => false end
  then ValueError
  else if out_of 0 1 saturation_min then ValueError
  else if out_of 0 1 saturation_max then ValueError
  else if Rlt_dec saturation_max saturation_min then ValueError
  else if match transition with
          | Some t => if Rlt_dec t 0 then true else false
          | None => false
          end
  then ValueError
  else
    let fps := if Rlt_dec 0 change then Rmax 20 (360 / change / period) else 20 in
    match FrameEffect_init power_on fps None with
    | Constructed base =>
        Constructed (mkColorloop base period change spread brightness
                       saturation_min saturation_max transition synchronized [] 1)
    | ValueError => ValueError
    end.

(** The same frame context at another [elapsed_s]. *)
Definition with_elapsed (ctx : FrameContext) (t : R) : FrameContext :=
  mkContext t (device_index ctx) (pixel_count ctx) (canvas_width ctx)
            (canvas_height ctx).

End FramesMore.

(* ================================================================== *)
(** * Proofs *)
(* ================================================================== *)

(* ------------------------------------------------------------------ *)
(** ** Proofs about the request/response engine *)

Module ConnectionProofs.
Import Connection.

Local Open Scope Z_scope.

Lemma remaining_le_zero_true (dl now : Q) :
  Qle dl now -> remaining_le_zero dl now = true.
Proof.
  intro H. unfold remaining_le_zero. apply Qle_bool_iff.
  apply (Qplus_le_l _ _ now). ring_simplify. exact H.
Qed.

Lemma stream_attempt_silent (seq : Z) (exp : option Z) (dl : Q) (polls : list poll) :
  no_matching_response seq polls -> attempt_expires dl polls ->
  stream_attempt seq exp dl false polls = ([], false, AttTimeout).
Proof.
  induction polls as [|pl rest IH]; intros Hno Hexp.
  - inversion Hexp.
  - inversion Hno as [|? ? Hpl Hrest]; subst. cbv beta in Hpl.
    simpl. destruct (remaining_le_zero dl (clock_top pl)) eqn:Hrem; [reflexivity|].
    assert (Hexp' : attempt_expires dl rest).
    { inversion Hexp as [? ? Hhd|? ? Htl]; subst; [|exact Htl].
      rewrite remaining_le_zero_true in Hrem by exact Hhd. discriminate. }
    destruct (received pl) as [|h p|] eqn:Hr.
    + destruct (Qle_bool dl (clock_after pl)); [reflexivity|].
      apply IH; assumption.
    + apply Z.eqb_neq in Hpl. rewrite Hpl. simpl.
      apply IH; assumption.
    + contradiction.
Qed.

Lemma stream_attempts_silent (R : nat) (base : Q) (exp : option Z) :
  forall n k counter env,
    (n + k = S R)%nat ->
    silent_attempts n k base counter env ->
    stream_attempts n k R base exp counter false env = ([], false, None).
Proof.
  induction n as [|n IH]; intros k counter env Hnk Hs; [reflexivity|].
  destruct env as [|[st polls] env']; [contradiction|].
  destruct Hs as (Hno & Hexp & Hs').
  unfold next_sequence in Hno, Hs'; cbn [fst snd] in Hno, Hs'.
  cbn [stream_attempts next_sequence].
  rewrite (stream_attempt_silent _ exp _ _ Hno Hexp).
  destruct (Nat.ltb k R) eqn:Hk.
  - rewrite (IH (S k) _ env'); [reflexivity| lia | exact Hs'].
  - reflexivity.
Qed.

Lemma Qsum_app (l1 l2 : list Q) : (Qsum (l1 ++ l2) == Qsum l1 + Qsum l2)%Q.
Proof.
  induction l1 as [|x l1 IH]; simpl.
  - ring.
  - unfold Qsum in *. rewrite IH. ring.
Qed.

Lemma timeouts_geometric (b : Q) (n : nat) :
  (Qsum (map (current_timeout b) (seq 0 n)) == b * inject_Z (2 ^ Z.of_nat n - 1))%Q.
Proof.
  induction n as [|n IH].
  - simpl. ring.
  - rewrite seq_S, map_app, Qsum_app, IH. simpl Qsum.
    unfold current_timeout.
    rewrite Nat2Z.inj_succ, Z.pow_succ_r by lia.
    replace (2 * 2 ^ Z.of_nat n - 1) with (2 ^ Z.of_nat n + (2 ^ Z.of_nat n - 1)) by ring.
    rewrite inject_Z_plus. ring.
Qed.

Lemma total_weight_pos (R : nat) : 1 <= total_weight R.
Proof.
  unfold total_weight.
  assert (2 ^ 1 <= 2 ^ (Z.of_nat R + 1)) by (apply Z.pow_le_mono_r; lia).
  simpl in H. lia.
Qed.

(** Claim C1: if no response with the matching sequence number arrives
    during any of the [max_retries + 1] attempts (every attempt runs to its
    deadline), [request_stream] raises [LifxTimeoutError] and yields
    nothing. *)
Theorem request_stream_silent_device_times_out (timeout : Q) (max_retries : nat)
    (expected_pkt_type : option Z) (c0 : Z) (env : list attempt_env) :
  silent_attempts (S max_retries) 0 (base_timeout timeout max_retries) c0 env ->
  request_stream true timeout max_retries expected_pkt_type c0 env
  = ([], StreamRaise LifxTimeoutError).
Proof.
  intro H. unfold request_stream. cbv zeta. cbn [negb].
  rewrite (stream_attempts_silent max_retries _ expected_pkt_type (S max_retries) 0 c0 env);
    [reflexivity | lia | exact H].
Qed.

Lemma request_stream_silent_device_times_out_witness :
  silent_attempts 1 0 (base_timeout 1 0) 0 [(0%Q, [mkPoll 2 RecvTimeout 2])] /\
  request_stream true 1 0 (Some 118) 0 [(0%Q, [mkPoll 2 RecvTimeout 2])]
  = ([], StreamRaise LifxTimeoutError).
Proof.
  assert (H : silent_attempts 1 0 (base_timeout 1 0) 0 [(0%Q, [mkPoll 2 RecvTimeout 2])]).
  { cbn [silent_attempts]. split; [|split; [|exact I]].
    - constructor; [exact I | constructor].
    - apply Exists_cons_hd. vm_compute. discriminate. }
  split; [exact H | exact (request_stream_silent_device_times_out 1 0 (Some 118) 0 _ H)].
Defined.

(** Claim C2: the per-attempt timeouts [base * 2^n], with
    [base = timeout / (2^(max_retries+1) - 1)], sum over the
    [max_retries + 1] attempts to the overall timeout. *)
Theorem attempt_timeouts_sum_to_overall (timeout : Q) (max_retries : nat) :
  base_timeout timeout max_retries
    = (timeout / inject_Z (2 ^ (Z.of_nat max_retries + 1) - 1))%Q /\
  (forall n, current_timeout (base_timeout timeout max_retries) n
             = (base_timeout timeout max_retries * inject_Z (2 ^ Z.of_nat n))%Q) /\
  (Qsum (map (current_timeout (base_timeout timeout max_retries)) (seq 0 (S max_retries)))
   == timeout)%Q.
Proof.
  split; [reflexivity|]. split; [reflexivity|].
  rewrite timeouts_geometric.
  rewrite Nat2Z.inj_succ. unfold Z.succ.
  unfold base_timeout.
  assert (Hw : ~ (inject_Z (total_weight max_retries) == 0)%Q).
  { intro Hq. unfold Qeq in Hq. simpl in Hq.
    pose proof (total_weight_pos max_retries). lia. }
  unfold total_weight in *. field. exact Hw.
Qed.

(** Claim C3: during an attempt of [request_stream] or
    [request_ack_stream], a received packet whose sequence differs from
    the attempt's sequence is dropped: the loop goes on with the next poll
    in the same state, nothing is yielded and no error is raised. *)
Theorem foreign_sequence_is_dropped (seq : Z) (expected_pkt_type : option Z)
    (attempt_deadline : Q) (has_yielded : bool) (pl : poll) (rest : list poll)
    (h : LifxHeader) (p : payload) :
  remaining_le_zero attempt_deadline (clock_top pl) = false ->
  received pl = RecvPacket h p ->
  sequence h <> seq ->
  stream_attempt seq expected_pkt_type attempt_deadline has_yielded (pl :: rest)
  = stream_attempt seq expected_pkt_type attempt_deadline has_yielded rest /\
  ack_attempt seq attempt_deadline (pl :: rest) = ack_attempt seq attempt_deadline rest.
Proof.
  intros Hrem Hrecv Hseq. apply Z.eqb_neq in Hseq.
  split; simpl; rewrite Hrem, Hrecv, Hseq; reflexivity.
Qed.

Lemma foreign_sequence_is_dropped_witness :
  let pl := mkPoll 0 (RecvPacket (mkHeader 7 223) []) 0 in
  remaining_le_zero 1 (clock_top pl) = false /\
  stream_attempt 3 None 1 false [pl] = stream_attempt 3 None 1 false [] /\
  ack_attempt 3 1 [pl] = ack_attempt 3 1 [].
Proof.
  cbv zeta.
  assert (Hrem : remaining_le_zero 1 0 = false) by reflexivity.
  split; [exact Hrem|].
  exact (foreign_sequence_is_dropped 3 None 1 false
           (mkPoll 0 (RecvPacket (mkHeader 7 223) []) 0) [] (mkHeader 7 223) []
           Hrem eq_refl ltac:(discriminate)).
Defined.

End ConnectionProofs.

(* ------------------------------------------------------------------ *)
(** ** Proofs about the connection pool *)

Module PoolProofs.
Import Pool.

Lemma od_set_length_le (k : string) (v : conn * Q) (l : entries) :
  (List.length (od_set k v l) <= S (List.length l))%nat.
Proof.
  induction l as [|[k' v'] l IH]; simpl; [lia|].
  destruct (String.eqb k k'); simpl; lia.
Qed.

Lemma od_set_length_found (k : string) (v : conn * Q) (l : entries) :
  od_get k l <> None -> List.length (od_set k v l) = List.length l.
Proof.
  induction l as [|[k' v'] l IH]; simpl; intro H; [congruence|].
  destruct (String.eqb k k'); simpl; [reflexivity|]. f_equal. apply IH, H.
Qed.

Lemma od_get_filter_self (k : string) (l : entries) :
  od_get k (filter (fun e => negb (String.eqb k (fst e))) l) = None.
Proof.
  induction l as [|[k' v'] l IH]; simpl; [reflexivity|].
  destruct (String.eqb k k') eqn:E; simpl; [exact IH|]. rewrite E. exact IH.
Qed.

Lemma od_get_app_none (k : string) (l1 l2 : entries) :
  od_get k l1 = None -> od_get k (l1 ++ l2) = od_get k l2.
Proof.
  induction l1 as [|[k' v'] l1 IH]; simpl; intro H; [reflexivity|].
  destruct (String.eqb k k'); [discriminate|]. apply IH, H.
Qed.

Lemma od_set_app_none (k : string) (v : conn * Q) (l1 l2 : entries) :
  od_get k l1 = None -> od_set k v (l1 ++ l2) = l1 ++ od_set k v l2.
Proof.
  induction l1 as [|[k' v'] l1 IH]; simpl; intro H; [reflexivity|].
  destruct (String.eqb k k'); [discriminate|]. rewrite IH by exact H. reflexivity.
Qed.

Lemma filter_drops_key (k : string) (v : conn * Q) (l : entries) :
  od_get k l = Some v ->
  (List.length (filter (fun e => negb (String.eqb k (fst e))) l) < List.length l)%nat.
Proof.
  induction l as [|[k' v'] l IH]; simpl; intro H; [discriminate|].
  destruct (String.eqb k k') eqn:E; simpl.
  - pose proof (List.filter_length_le (fun e => negb (String.eqb k (fst e))) l). lia.
  - specialize (IH H). lia.
Qed.

(** The entries after a hit. *)
Lemma hit_entries (k : string) (c : conn) (t now : Q) (l : entries) :
  od_get k l = Some (c, t) ->
  od_set k (c, now) (od_move_to_end k l)
  = filter (fun e => negb (String.eqb k (fst e))) l ++ [(k, (c, now))].
Proof.
  intro H. unfold od_move_to_end. rewrite H.
  rewrite od_set_app_none by apply od_get_filter_self.
  simpl. rewrite String.eqb_refl. reflexivity.
Qed.

Lemma get_connection_max (serial : string) (now : Q) (p : ConnectionPool) :
  max_connections (result_pool (get_connection serial now p)) = max_connections p.
Proof.
  unfold get_connection.
  destruct (od_get serial (connections p)) as [[c t]|];
    [destruct (is_open (open_conns p) c)|]; try reflexivity;
    destruct (Nat.leb (max_connections p) (List.length (connections p)));
    try reflexivity;
    destruct (od_popitem_first (connections p)) as [[[? [? ?]] ?]|]; reflexivity.
Qed.

Lemma get_connection_bounded (serial : string) (now : Q) (p : ConnectionPool) :
  (List.length (connections p) <= max_connections p)%nat ->
  (List.length (connections (result_pool (get_connection serial now p)))
   <= max_connections p)%nat.
Proof.
  intro Hle. unfold get_connection.
  destruct (od_get serial (connections p)) as [[c t]|] eqn:Hget.
  - destruct (is_open (open_conns p) c).
    + simpl. rewrite (hit_entries _ _ _ _ _ Hget), length_app. simpl.
      pose proof (filter_drops_key _ _ _ Hget). lia.
    + destruct (Nat.leb (max_connections p) (List.length (connections p))) eqn:Hcap.
      * apply Nat.leb_le in Hcap.
        destruct (connections p) as [|[k [old t']] rest] eqn:Hc; simpl; [lia|].
        pose proof (od_set_length_le serial (next_conn p, now) rest). simpl in Hle. lia.
      * apply Nat.leb_gt in Hcap. simpl.
        rewrite od_set_length_found by congruence. lia.
  - destruct (Nat.leb (max_connections p) (List.length (connections p))) eqn:Hcap.
    + apply Nat.leb_le in Hcap.
      destruct (connections p) as [|[k [old t']] rest] eqn:Hc; simpl; [lia|].
      pose proof (od_set_length_le serial (next_conn p, now) rest). simpl in Hle. lia.
    + apply Nat.leb_gt in Hcap. simpl.
      pose proof (od_set_length_le serial (next_conn p, now) (connections p)). lia.
Qed.

Lemma run_requests_bounded (reqs : list (string * Q)) :
  forall p, (List.length (connections p) <= max_connections p)%nat ->
  (List.length (connections (result_pool (run_requests p reqs))) <= max_connections p)%nat.
Proof.
  induction reqs as [|[serial now] reqs IH]; intros p Hle; simpl; [exact Hle|].
  pose proof (get_connection_bounded serial now p Hle) as Hb.
  pose proof (get_connection_max serial now p) as Hm.
  destruct (get_connection serial now p) as [p' c|p'] eqn:E; simpl in Hb, Hm |- *.
  - rewrite <- Hm. apply IH. rewrite Hm. exact Hb.
  - exact Hb.
Qed.

(** Claim C5: over any sequence of [get_connection] calls the pool never
    holds more than [max_connections] entries; a request for an unpooled
    serial at capacity closes and removes exactly the least-recently-used
    entry and appends the new connection; a request for a pooled open serial
    moves its entry to the most-recently-used end; and with capacity 2 the
    requests S1, S2, S3 give [evictions = 1, hits = 0, misses = 3] with S1
    evicted. *)
Theorem pool_lru_policy :
  (forall p reqs, (List.length (connections p) <= max_connections p)%nat ->
     (List.length (connections (result_pool (run_requests p reqs)))
      <= max_connections p)%nat) /\
  (forall serial now p k0 c0 t0 rest,
     od_get serial (connections p) = None ->
     connections p = (k0, (c0, t0)) :: rest ->
     List.length (connections p) = max_connections p ->
     exists p', get_connection serial now p = PoolOk p' (next_conn p) /\
       connections p' = rest ++ [(serial, (next_conn p, now))] /\
       open_conns p' = close c0 (next_conn p :: open_conns p) /\
       evictions (metrics p') = S (evictions (metrics p))) /\
  (forall serial now p c t,
     od_get serial (connections p) = Some (c, t) ->
     is_open (open_conns p) c = true ->
     exists p', get_connection serial now p = PoolOk p' c /\
       connections p' = filter (fun e => negb (String.eqb serial (fst e))) (connections p)
                        ++ [(serial, (c, now))] /\
       open_conns p' = open_conns p /\
       hits (metrics p') = S (hits (metrics p))) /\
  (exists p', run_requests (new_pool 2) [("S1", 0%Q); ("S2", 1%Q); ("S3", 2%Q)]%string
              = PoolOk p' 0%nat /\
     evictions (metrics p') = 1%nat /\ hits (metrics p') = 0%nat /\
     misses (metrics p') = 3%nat /\
     map fst (connections p') = ["S2"; "S3"]%string /\
     od_get "S1"%string (connections p') = None).
Proof.
  split; [|split; [|split]].
  - intros p reqs Hle. apply run_requests_bounded, Hle.
  - intros serial now p k0 c0 t0 rest Hget Hc Hlen.
    unfold get_connection. rewrite Hget, Hc.
    rewrite Hc in Hlen. rewrite <- Hlen, Nat.leb_refl.
    cbn [od_popitem_first].
    assert (Hrest : od_get serial rest = None).
    { rewrite Hc in Hget. simpl in Hget. destruct (String.eqb serial k0); [discriminate|].
      exact Hget. }
    eexists. split; [reflexivity|]. cbn [connections open_conns metrics evictions].
    split; [|split; reflexivity].
    rewrite <- (app_nil_r rest) at 1. rewrite od_set_app_none by exact Hrest.
    reflexivity.
  - intros serial now p c t Hget Hopen.
    unfold get_connection. rewrite Hget, Hopen.
    eexists. split; [reflexivity|]. cbn [connections open_conns metrics hits].
    split; [|split; reflexivity].
    apply hit_entries with (t := t), Hget.
  - eexists. split; [vm_compute; reflexivity|].
    vm_compute. repeat split.
Qed.

Lemma pool_lru_policy_witness :
  exists p', get_connection "S3" 2 (mkPool 2 [("S1", (0%nat, 0%Q)); ("S2", (1%nat, 1%Q))]
                                       [0%nat; 1%nat] 2 (mkMetrics 2 0 2 0))%string
             = PoolOk p' 2%nat /\
    connections p' = [("S2", (1%nat, 1%Q)); ("S3", (2%nat, 2%Q))]%string /\
    open_conns p' = close 0%nat [2%nat; 0%nat; 1%nat] /\ evictions (metrics p') = 1%nat.
Proof.
  destruct pool_lru_policy as (_ & Hevict & _ & _).
  exact (Hevict "S3"%string 2%Q
           (mkPool 2 [("S1", (0%nat, 0%Q)); ("S2", (1%nat, 1%Q))]%string
                   [0%nat; 1%nat] 2 (mkMetrics 2 0 2 0))
           "S1"%string 0%nat 0%Q [("S2", (1%nat, 1%Q))]%string
           eq_refl eq_refl eq_refl).
Defined.

End PoolProofs.

(* ------------------------------------------------------------------ *)
(** ** Proofs about the conductor *)

Module ConductorProofs.
Import Dict Conductor.

Local Open Scope nat_scope.

Section Proofs.

Variable PreState : Type.
Variable is_light_compatible : effect_id -> Light -> bool.
Variable inherit_prestate : effect_id -> effect_id -> bool.
Variable capture_state : Light -> PreState.

Lemma get_set {A} (k k' : string) (v : A) (d : dict A) :
  get k (set k' v d) = if String.eqb k k' then Some v else get k d.
Proof.
  induction d as [|[k'' v''] d IH]; simpl.
  - destruct (String.eqb k k'); reflexivity.
  - destruct (String.eqb k' k'') eqn:E1; simpl.
    + apply String.eqb_eq in E1; subst k''. destruct (String.eqb k k'); reflexivity.
    + rewrite IH. destruct (String.eqb k k') eqn:E2; [|reflexivity].
      apply String.eqb_eq in E2; subst k'. rewrite E1. reflexivity.
Qed.

Lemma get_del_absent {A} (k k' : string) (d : dict A) :
  get k d = None -> get k (del k' d) = None.
Proof.
  unfold del. induction d as [|[k'' v''] d IH]; simpl; intro H; [reflexivity|].
  destruct (String.eqb k k'') eqn:E; [discriminate|].
  destruct (negb (String.eqb k' k'')); simpl; [rewrite E|]; apply IH, H.
Qed.

Lemma get_del_self {A} (k : string) (d : dict A) : get k (del k d) = None.
Proof.
  unfold del. induction d as [|[k'' v''] d IH]; simpl; [reflexivity|].
  destruct (String.eqb k k'') eqn:E; simpl; [exact IH|]. rewrite E. exact IH.
Qed.

Lemma get_fold_del {A} (k : string) (ls : list string) :
  forall d : dict A, In k ls -> get k (fold_left (fun d light => del light d) ls d) = None.
Proof.
  assert (Hkeep : forall ls' (d : dict A), get k d = None ->
            get k (fold_left (fun d light => del light d) ls' d) = None).
  { induction ls' as [|l ls' IH]; intros d Hd; simpl; [exact Hd|].
    apply IH, get_del_absent, Hd. }
  induction ls as [|l ls IH]; intros d Hin; [contradiction|].
  simpl. destruct Hin as [<-|Hin].
  - apply Hkeep, get_del_self.
  - apply IH, Hin.
Qed.

Lemma get_register_all (k : string) (ls : list Light) (f : Light -> RunningEffect PreState) :
  forall d, get k (register_all ls f d)
            = if existsb (String.eqb k) ls then Some (f k) else get k d.
Proof.
  unfold register_all.
  induction ls as [|l ls IH]; intro d; simpl; [reflexivity|].
  rewrite IH, get_set.
  destruct (String.eqb k l) eqn:E; simpl.
  - apply String.eqb_eq in E; subst l. destruct (existsb (String.eqb k) ls); reflexivity.
  - reflexivity.
Qed.

Lemma get_Forall {A} (Q : A -> Prop) (k : string) (d : dict A) (v : A) :
  Forall (fun kv => Q (snd kv)) d -> get k d = Some v -> Q v.
Proof.
  induction d as [|[k' v'] d IH]; simpl; intros HF Hg; [discriminate|].
  inversion HF as [|? ? Hhd Htl]; subst.
  destruct (String.eqb k k'); [injection Hg as <-; exact Hhd | apply IH; assumption].
Qed.

Lemma set_Forall {A} (Q : A -> Prop) (k : string) (v : A) (d : dict A) :
  Forall (fun kv => Q (snd kv)) d -> Q v -> Forall (fun kv => Q (snd kv)) (set k v d).
Proof.
  induction d as [|[k' v'] d IH]; simpl; intros HF Hv.
  - constructor; [exact Hv | constructor].
  - inversion HF as [|? ? Hhd Htl]; subst.
    destruct (String.eqb k k'); constructor; auto.
Qed.

Lemma register_all_Forall (Q : RunningEffect PreState -> Prop) (ls : list Light)
    (f : Light -> RunningEffect PreState) :
  (forall l, Q (f l)) ->
  forall d, Forall (fun kv => Q (snd kv)) d ->
  Forall (fun kv => Q (snd kv)) (register_all ls f d).
Proof.
  intros Hf. unfold register_all.
  induction ls as [|l ls IH]; intros d Hd; simpl; [exact Hd|].
  apply IH, set_Forall; [exact Hd | apply Hf].
Qed.

Lemma find_task_found (e : effect_id) (t : task_id) (d : dict (RunningEffect PreState))
    (k : string) (r : RunningEffect PreState) :
  Forall (fun kv => effect (snd kv) = e -> task (snd kv) = t) d ->
  get k d = Some r -> effect r = e -> find_task e d = Some t.
Proof.
  induction d as [|[k' r'] d IH]; simpl; intros HF Hg He; [discriminate|].
  inversion HF as [|? ? Hhd Htl]; subst. simpl in Hhd.
  destruct (Nat.eqb (effect r') (effect r)) eqn:E.
  - apply Nat.eqb_eq in E. rewrite Hhd by exact E. reflexivity.
  - destruct (String.eqb k k').
    + injection Hg as <-. rewrite Nat.eqb_refl in E. discriminate.
    + apply (IH Htl Hg eq_refl).
Qed.

(** [add_lights] once the effect's task is known. *)
Lemma add_lights_registers (e : effect_id) (L : list Light) (s : ConductorState PreState)
    (t : task_id) :
  find_task e (running s) = Some t ->
  participants (add_lights is_light_compatible capture_state e L s) e
  = participants s e ++ not_running_effect e (running s) (filter_compatible is_light_compatible e L) /\
  running (add_lights is_light_compatible capture_state e L s)
  = register_all (not_running_effect e (running s) (filter_compatible is_light_compatible e L))
      (fun light => mkRunning e (capture_state light) t) (running s).
Proof.
  intro Ht. unfold add_lights.
  destruct (filter_compatible is_light_compatible e L) as [|c cs] eqn:Hc.
  - simpl. rewrite app_nil_r. split; reflexivity.
  - destruct (not_running_effect e (running s) (c :: cs)) as [|n ns] eqn:Hn.
    + rewrite app_nil_r. split; reflexivity.
    + rewrite Ht. simpl. unfold set_participants. rewrite Nat.eqb_refl.
      split; reflexivity.
Qed.

Lemma new_lights_after_start (e : effect_id) (Pc L : list Light) (t : task_id)
    (g : Light -> PreState) (d0 : dict (RunningEffect PreState)) :
  Forall (fun kv => effect (snd kv) <> e) d0 ->
  not_running_effect e (register_all Pc (fun light => mkRunning e (g light) t) d0)
    (filter_compatible is_light_compatible e L)
  = filter (fun l => is_light_compatible e l && negb (existsb (String.eqb l) Pc)) L.
Proof.
  intro H0. unfold not_running_effect, filter_compatible.
  induction L as [|l L IH]; simpl; [reflexivity|].
  destruct (is_light_compatible e l); simpl; [|exact IH].
  rewrite get_register_all. destruct (existsb (String.eqb l) Pc); simpl.
  - rewrite Nat.eqb_refl. exact IH.
  - destruct (get l d0) as [r|] eqn:Hg.
    + pose proof (get_Forall (fun r => effect r <> e) l d0 r H0 Hg) as Hne.
      simpl in Hne. apply Nat.eqb_neq in Hne. rewrite Hne. simpl. f_equal. exact IH.
    + f_equal. exact IH.
Qed.

(** Claim C4: once [stop(lights)] returns, no light of [lights] has an
    effect in the registry, whatever ran on it before and whatever other
    coroutines did while [stop] awaited. *)
Theorem stop_clears_effects (lights : list Light) (s : ConductorState PreState)
    (interleave : ConductorState PreState -> ConductorState PreState) (restore_ok : bool)
    (s' : ConductorState PreState) (restored : list (Light * PreState)) :
  stop lights s interleave restore_ok = Some (s', restored) ->
  forall light, In light lights -> effect_of s' light = None.
Proof.
  intros Hstop light Hin. unfold stop in Hstop.
  destruct restore_ok; [|discriminate].
  injection Hstop as <- _. unfold effect_of. simpl.
  rewrite get_fold_del by exact Hin. reflexivity.
Qed.

(** Claim C6: right after [start(e, P)] registered the compatible lights
    [Pc] of [P] (with [e] a fresh effect object), [add_lights(e, L)] makes
    [e]'s participants [Pc ++ L'], where [L'] keeps, in order, the
    compatible lights of [L] not in [Pc]; each light of [L'] is registered
    with a freshly captured pre-state under [e]'s task, and every other
    light keeps its registry entry. *)
Theorem add_lights_appends_new_participants (e : effect_id) (P L : list Light)
    (s0 : ConductorState PreState) :
  Forall (fun kv => effect (snd kv) <> e) (running s0) ->
  filter_compatible is_light_compatible e P <> [] ->
  let s1 := start is_light_compatible inherit_prestate capture_state e P s0 in
  let s2 := add_lights is_light_compatible capture_state e L s1 in
  let Pc := filter_compatible is_light_compatible e P in
  let L' := filter (fun l => is_light_compatible e l && negb (existsb (String.eqb l) Pc)) L in
  participants s2 e = Pc ++ L' /\
  (forall l, In l L' -> get l (running s2) = Some (mkRunning e (capture_state l) (next_task s0))) /\
  (forall l, ~ In l L' -> get l (running s2) = get l (running s1)).
Proof.
  intros H0 Hne. cbv zeta.
  set (Pc := filter_compatible is_light_compatible e P) in *.
  set (g := fun light => mkRunning e (start_prestate inherit_prestate capture_state e (running s0) light)
                          (next_task s0)).
  assert (Hs1 : start is_light_compatible inherit_prestate capture_state e P s0
                = mkConductor (register_all Pc g (running s0))
                              (set_participants (participants s0) e Pc) (S (next_task s0))).
  { unfold start. fold Pc. destruct Pc; [contradiction | reflexivity]. }
  rewrite Hs1.
  destruct Pc as [|p ps] eqn:HPc; [contradiction|].
  assert (Htask : find_task e (register_all (p :: ps) g (running s0)) = Some (next_task s0)).
  { apply (find_task_found e (next_task s0) _ p (g p)).
    - apply (register_all_Forall (fun r => effect r = e -> task r = next_task s0));
        [intros l _; reflexivity|].
      apply Forall_impl with (2 := H0). intros [k r] Hr Heq. simpl in *. contradiction.
    - rewrite get_register_all. simpl. rewrite String.eqb_refl. reflexivity.
    - reflexivity. }
  destruct (add_lights_registers e L (mkConductor (register_all (p :: ps) g (running s0))
              (set_participants (participants s0) e (p :: ps)) (S (next_task s0)))
              (next_task s0) Htask) as [Hpart Hrun].
  cbn [running participants] in Hpart, Hrun.
  unfold g in Hpart, Hrun.
  rewrite new_lights_after_start in Hpart, Hrun by exact H0.
  fold g in Hpart, Hrun.
  split; [|split].
  - rewrite Hpart. unfold set_participants. rewrite Nat.eqb_refl. reflexivity.
  - intros l Hin. rewrite Hrun, get_register_all.
    replace (existsb (String.eqb l) _) with true; [reflexivity|].
    symmetry. apply existsb_exists. exists l. split; [exact Hin | apply String.eqb_refl].
  - intros l Hnin. rewrite Hrun, get_register_all.
    replace (existsb (String.eqb l) _) with false; [reflexivity|].
    symmetry. apply Bool.not_true_iff_false. intro Hex.
    apply existsb_exists in Hex. destruct Hex as [x [Hx Heq]].
    apply String.eqb_eq in Heq. subst x. contradiction.
Qed.

End Proofs.

(** A concrete conductor: lights are strings, "x" is incompatible with
    every effect, and a captured pre-state is the serial's length. *)
Definition demo_compatible (e : effect_id) (l : Light) : bool := negb (String.eqb l "x").
Definition demo_inherit (e e' : effect_id) : bool := false.
Definition demo_capture (l : Light) : nat := String.length l.
Definition demo_idle : ConductorState nat := mkConductor [] (fun _ => []) 0.
Definition demo_busy : ConductorState nat :=
  mkConductor [("a"%string, mkRunning 1 7 0)] (fun _ => []) 1.

Lemma stop_clears_effects_witness :
  exists s' restored,
    stop ["a"; "b"]%string demo_busy (fun s => s) true = Some (s', restored) /\
    effect_of s' "a"%string = None.
Proof.
  eexists. eexists. split; [reflexivity|].
  apply (stop_clears_effects nat ["a"; "b"]%string demo_busy (fun s => s) true _ _ eq_refl).
  left. reflexivity.
Defined.

Lemma add_lights_appends_new_participants_witness :
  participants (add_lights demo_compatible demo_capture 5 ["b"; "c"; "x"]%string
                  (start demo_compatible demo_inherit demo_capture 5 ["a"; "b"]%string demo_idle)) 5
  = ["a"; "b"; "c"]%string.
Proof.
  assert (H0 : Forall (fun kv => effect (snd kv) <> 5) (running demo_idle)) by constructor.
  assert (Hne : filter_compatible demo_compatible 5 ["a"; "b"]%string <> []).
  { vm_compute. discriminate. }
  destruct (add_lights_appends_new_participants nat demo_compatible demo_inherit demo_capture
              5 ["a"; "b"]%string ["b"; "c"; "x"]%string demo_idle H0 Hne) as [Hp _].
  rewrite Hp. reflexivity.
Defined.

End ConductorProofs.

(* ------------------------------------------------------------------ *)
(** ** Proofs about the frame effects *)

Module FramesProofs.
Import Frames.
Local Open Scope R_scope.

(** *** Python built-ins *)

Lemma py_div_none x y : py_div x y = None -> y = 0.
Proof. unfold py_div. destruct (Req_EM_T y 0); congruence. Qed.

Lemma py_div_some x y r : py_div x y = Some r -> r = x / y /\ y <> 0.
Proof. unfold py_div. destruct (Req_EM_T y 0); intro H; inversion H; auto. Qed.

Lemma py_fmod_none x m : py_fmod x m = None -> m = 0.
Proof. unfold py_fmod. destruct (Req_EM_T m 0); congruence. Qed.

Lemma py_zdiv_none a b : py_zdiv a b = None -> b = 0%Z.
Proof. unfold py_zdiv. destruct (Z.eqb_spec b 0); congruence. Qed.

Lemma py_zdiv_some a b r : py_zdiv a b = Some r -> r = (a / b)%Z.
Proof. unfold py_zdiv. destruct (Z.eqb b 0); congruence. Qed.

Lemma py_zmod_none a b : py_zmod a b = None -> b = 0%Z.
Proof. unfold py_zmod. destruct (Z.eqb_spec b 0); congruence. Qed.

Lemma py_zmod_some a b r : py_zmod a b = Some r -> b <> 0%Z /\ r = (a mod b)%Z.
Proof.
  unfold py_zmod. destruct (Z.eqb_spec b 0); intro H; inversion H; auto.
Qed.

Lemma py_pow_none x y : py_pow x y = None -> x < 0.
Proof.
  unfold py_pow. destruct (Rlt_dec x 0); [auto|].
  destruct (Req_EM_T x 0); discriminate.
Qed.

Lemma py_index_in {A} (xs : list A) i :
  (0 <= i < Z.of_nat (List.length xs))%Z -> py_index xs i <> None.
Proof.
  intros Hi. unfold py_index.
  destruct (Z.leb_spec 0 i); [|lia].
  apply nth_error_Some. lia.
Qed.

Lemma py_floor_spec x : IZR (py_floor x) <= x < IZR (py_floor x) + 1.
Proof.
  unfold py_floor. destruct (archimed x) as [H1 H2].
  rewrite minus_IZR. simpl. lra.
Qed.

Lemma py_int_nonneg x : 0 <= x -> (0 <= py_int x)%Z /\ IZR (py_int x) <= x.
Proof.
  intros Hx. unfold py_int. destruct (Rle_dec 0 x); [|lra].
  pose proof (py_floor_spec x) as [H1 H2]. split; [|lra].
  apply le_IZR. simpl.
  assert (-1 < IZR (py_floor x)) as H by lra.
  apply lt_IZR in H. apply IZR_le. lia.
Qed.

Lemma clamp01_range x : 0 <= clamp01 x <= 1.
Proof.
  unfold clamp01. split; [apply Rmax_l|].
  apply Rmax_lub; [lra | apply Rmin_l].
Qed.

Lemma out_of_true lo hi x : ~ (lo <= x <= hi) -> out_of lo hi x = true.
Proof.
  unfold out_of. intros H.
  destruct (Rle_dec lo x), (Rle_dec x hi); first [reflexivity | tauto].
Qed.

(** *** The pixel loops *)

Lemma py_range_in n i : In i (py_range n) -> (0 <= i < n)%Z.
Proof.
  unfold py_range. rewrite in_map_iff. intros [k [<- Hk]].
  apply in_seq in Hk. lia.
Qed.

Lemma py_range_length n : List.length (py_range n) = Z.to_nat n.
Proof. unfold py_range. rewrite length_map, length_seq. reflexivity. Qed.

Lemma map_frame_length {A} (f : Z -> option A) l :
  (forall i, In i l -> f i <> None) ->
  exists r, map_frame f l = Some r /\ List.length r = List.length l.
Proof.
  induction l as [|i l IH]; intros Hf; [exists []; auto|].
  simpl. destruct (f i) as [c|] eqn:Ec; [|exfalso; apply (Hf i); [left; reflexivity | exact Ec]].
  assert (Hl : forall j, In j l -> f j <> None)
    by (intros j Hj; apply Hf; simpl; auto).
  destruct (IH Hl) as [r [Hr1 Hr]]. rewrite Hr1.
  exists (c :: r). simpl. auto.
Qed.

Lemma map_frame_pixel_count {A} (f : Z -> option A) (n : Z) :
  (0 <= n)%Z ->
  (forall i, (0 <= i < n)%Z -> f i <> None) ->
  exists r, map_frame f (py_range n) = Some r /\ Z.of_nat (List.length r) = n.
Proof.
  intros Hn Hf. destruct (map_frame_length f (py_range n)) as [r [Hr Hl]].
  - intros i Hi. apply Hf, py_range_in, Hi.
  - exists r. split; [exact Hr|]. rewrite Hl, py_range_length. lia.
Qed.

Lemma map_frame_Forall {A} (f : Z -> option A) (P : A -> Prop) l r :
  map_frame f l = Some r ->
  (forall i c, In i l -> f i = Some c -> P c) -> Forall P r.
Proof.
  revert r. induction l as [|i l IH]; intros r Hr Hf; simpl in Hr.
  - inversion Hr. constructor.
  - destruct (f i) as [c|] eqn:Ec; [|discriminate].
    destruct (map_frame f l) as [cs|] eqn:Ecs; [|discriminate].
    inversion Hr. constructor.
    + apply (Hf i); simpl; auto.
    + apply IH; auto. intros j d Hj. apply Hf. simpl. auto.
Qed.

(** *** The frame loop *)

Lemma tick_from_sends {P : Type} (generate_frame : FrameContext -> option (list HSBK))
  (as_tuple : HSBK -> P) elapsed anims :
  forall idx frames,
  map generate_frame (contexts_from elapsed idx anims) = map Some frames ->
  tick_from generate_frame as_tuple elapsed idx anims
  = (combine anims (map (map as_tuple) frames), false).
Proof.
  induction anims as [|a rest IH]; intros idx frames Hg.
  - destruct frames; [reflexivity|discriminate].
  - destruct frames as [|f fs]; [discriminate|].
    simpl in Hg. injection Hg as Hf Hfs.
    simpl. rewrite Hf. rewrite (IH (idx + 1)%Z fs Hfs). reflexivity.
Qed.

(** *** Frame lengths *)

Ltac step :=
  match goal with
  | |- context [match ?e with Some _ => _ | None => None end] =>
      match e with
      | ?f ?x => let E := fresh "E" in destruct e eqn:E; [|exfalso]
      end
  end.

Ltac absurd_none :=
  match goal with
  | H : py_div _ _ = None |- False => apply py_div_none in H
  | H : py_fmod _ _ = None |- False => apply py_fmod_none in H
  | H : py_zdiv _ _ = None |- False => apply py_zdiv_none in H
  | H : py_zmod _ _ = None |- False => apply py_zmod_none in H
  | H : py_pow _ _ = None |- False => apply py_pow_none in H
  end.

Lemma IZR_neq0 z : (z <> 0)%Z -> IZR z <> 0.
Proof. intros Hz H. apply eq_IZR_R0 in H. contradiction. Qed.

Lemma rainbow_pixel_count KELVIN_NEUTRAL fx ctx :
  0 < period fx -> (0 <= pixel_count ctx)%Z ->
  frame_has_pixel_count (rainbow_generate_frame KELVIN_NEUTRAL fx ctx) ctx.
Proof.
  intros Hp Hn. unfold frame_has_pixel_count, rainbow_generate_frame. cbv zeta.
  step; [|apply py_div_none in E; lra].
  step; [|apply py_fmod_none in E0; lra].
  apply map_frame_pixel_count; [exact Hn|]. intros i Hi.
  step; [|apply py_div_none, eq_IZR_R0 in E1; lia].
  step; [discriminate|apply py_fmod_none in E2; lra].
Qed.

Lemma flame_pixel_count fx ctx :
  (0 <= pixel_count ctx)%Z -> (1 <= canvas_width ctx)%Z ->
  frame_has_pixel_count (flame_generate_frame fx ctx) ctx.
Proof.
  intros Hn Hw. unfold frame_has_pixel_count, flame_generate_frame. cbv zeta.
  apply map_frame_pixel_count; [exact Hn|]. intros i Hi.
  step; [|apply py_div_none, eq_IZR_R0 in E; lia].
  destruct (1 <? canvas_height ctx)%Z eqn:Hm; [|simpl; discriminate].
  apply Z.ltb_lt in Hm.
  step; [|apply py_zdiv_none in E0; lia].
  apply py_zdiv_some in E0.
  step; [|apply py_div_none, eq_IZR_R0 in E1; lia].
  apply py_div_some in E1 as [-> _].
  step; [simpl; discriminate|].
  apply py_pow_none in E1.
  assert (0 <= z)%Z by (subst z; apply Z.div_pos; lia).
  assert (0 <= IZR z / IZR (canvas_height ctx)).
  { unfold Rdiv. apply Rmult_le_pos; [apply IZR_le; lia|].
    left. apply Rinv_0_lt_compat, IZR_lt. lia. }
  lra.
Qed.

Lemma palette_hue_ok fx position :
  (1 <= List.length (palette fx))%nat -> palette_hue fx position <> None.
Proof.
  intros Hl. unfold palette_hue. cbv zeta.
  step; [|apply py_zmod_none in E; lia].
  apply py_zmod_some in E as [Hn ->].
  step; [|revert E; apply py_index_in; apply Z.mod_pos_bound; lia].
  step; [|apply py_zmod_none in E0; lia].
  apply py_zmod_some in E0 as [_ ->].
  step; [|revert E0; apply py_index_in; apply Z.mod_pos_bound; lia].
  step; [discriminate|apply py_fmod_none in E1; lra].
Qed.

Lemma aurora_pixel_count KELVIN_NEUTRAL fx ctx :
  (1 <= List.length (palette fx))%nat ->
  (0 <= pixel_count ctx)%Z -> (1 <= canvas_width ctx)%Z ->
  frame_has_pixel_count (aurora_generate_frame KELVIN_NEUTRAL fx ctx) ctx.
Proof.
  intros Hl Hn Hw. unfold frame_has_pixel_count, aurora_generate_frame. cbv zeta.
  step; [|apply py_div_none in E; lra].
  apply map_frame_pixel_count; [exact Hn|]. intros i Hi.
  step; [|apply py_div_none, eq_IZR_R0 in E0; lia].
  step; [|apply py_fmod_none in E1; lra].
  step; [|revert E2; apply palette_hue_ok; exact Hl].
  destruct (1 <? canvas_height ctx)%Z eqn:Hm; [|simpl; discriminate].
  step; [|apply py_zdiv_none in E3; lia].
  step; [simpl; discriminate|apply py_div_none, eq_IZR_R0 in E4; lia].
Qed.

Lemma synchronized_color_ok fx degrees_rotated :
  initial_colors fx <> [] -> generate_synchronized_color fx degrees_rotated <> None.
Proof.
  intros Hne. unfold generate_synchronized_color. cbv zeta.
  assert (Hlen : INR (List.length (initial_colors fx)) <> 0).
  { intros H. change 0 with (INR 0) in H. apply INR_eq in H.
    apply length_zero_iff_nil in H. contradiction. }
  step; [|apply py_fmod_none in E; lra].
  destruct (colorloop_brightness fx) as [b|]; cbv beta iota.
  - step; [discriminate|apply py_div_none in E0; contradiction].
  - step; [|apply py_div_none in E0; contradiction].
    step; [discriminate|apply py_div_none in E1; contradiction].
Qed.

Lemma spread_color_ok fx degrees_rotated d :
  initial_colors fx <> [] -> (0 <= d)%Z ->
  generate_spread_color fx degrees_rotated d <> None.
Proof.
  intros Hne Hd. unfold generate_spread_color. cbv zeta.
  assert (1 <= List.length (initial_colors fx))%nat.
  { destruct (initial_colors fx); [contradiction|simpl; lia]. }
  step; [|revert E; apply py_index_in; lia].
  step; [|apply py_fmod_none in E0; lra].
  step; [discriminate|apply py_fmod_none in E1; lra].
Qed.

Lemma colorloop_pixel_count fx ctx :
  0 < colorloop_period fx -> (0 <= pixel_count ctx)%Z -> (0 <= device_index ctx)%Z ->
  frame_has_pixel_count (colorloop_generate_frame fx ctx) ctx.
Proof.
  intros Hp Hn Hd. unfold frame_has_pixel_count, colorloop_generate_frame. cbv zeta.
  assert (Hrep : forall c : HSBK,
    Z.of_nat (List.length (repeat c (Z.to_nat (pixel_count ctx)))) = pixel_count ctx).
  { intros c. rewrite repeat_length. lia. }
  assert (Hne : initial_colors fx <> [] \/ initial_colors fx = []).
  { destruct (initial_colors fx); [right|left]; congruence. }
  destruct Hne as [Hne|Hnil]; [|rewrite Hnil; eexists; split; [reflexivity|apply Hrep]].
  destruct (initial_colors fx) as [|c0 cs] eqn:Hic; [contradiction|].
  step; [|apply py_div_none in E; lra].
  destruct (synchronized fx).
  - step; [eexists; split; [reflexivity|apply Hrep]|].
    revert E0. apply synchronized_color_ok. rewrite Hic. discriminate.
  - step; [eexists; split; [reflexivity|apply Hrep]|].
    revert E0. apply spread_color_ok; [rewrite Hic; discriminate|exact Hd].
Qed.

Lemma gradient_color_ok position stops :
  (2 <= List.length stops)%nat -> gradient_color position stops <> None.
Proof.
  intros Hl. unfold gradient_color. cbv zeta.
  pose proof (clamp01_range position) as Hc.
  assert (Hs : 0 <= clamp01 position * IZR (Z.of_nat (List.length stops) - 1)).
  { apply Rmult_le_pos; [lra|apply IZR_le; lia]. }
  destruct (py_int_nonneg _ Hs) as [Hi _].
  step; [|revert E; apply py_index_in; lia].
  step; [|revert E0; apply py_index_in; lia].
  step; [discriminate|apply py_fmod_none in E1; lra].
Qed.

Lemma foreground_at_ok fx position :
  match foreground fx with
  | FgGradient stops => (2 <= List.length stops)%nat
  | FgColor _ => True
  end -> foreground_at fx position <> None.
Proof.
  unfold foreground_at. destruct (foreground fx); intros H.
  - discriminate.
  - apply gradient_color_ok, H.
Qed.

Lemma progress_pixel_count fx ctx :
  match foreground fx with
  | FgGradient stops => (2 <= List.length stops)%nat
  | FgColor _ => True
  end ->
  (0 <= pixel_count ctx)%Z ->
  frame_has_pixel_count (progress_generate_frame fx ctx) ctx.
Proof.
  intros Hfg Hn. unfold frame_has_pixel_count, progress_generate_frame. cbv zeta.
  destruct (Rlt_dec 0 (end_value fx - start_value fx)) as [Hr|Hr].
  2: cbv beta iota.
  1: step; [|absurd_none; lra].
  all: match goal with
   | |- context [if (0 <? ?z)%Z then _ else _] => destruct (0 <? z)%Z
   end; cbv beta iota.
  all: apply map_frame_pixel_count; [exact Hn|]; intros i Hi.
  all: match goal with
   | |- context [if (?a <? ?z)%Z then _ else _] => destruct (a <? z)%Z
   end; [|discriminate].
  all: step; [|absurd_none;
            match goal with H : IZR _ = 0 |- _ => apply eq_IZR_R0 in H end; lia].
  all: step; [|match goal with H : foreground_at _ _ = None |- _ => revert H end;
            apply foreground_at_ok; exact Hfg].
  all: step; [discriminate|absurd_none].
  all: first [lra
         | match goal with H : Rmax 1 ?x = 0 |- _ => pose proof (Rmax_l 1 x) end; lra].
Qed.

Lemma sun_frame_pixel_count ctx progress brightness origin :
  (0 <= pixel_count ctx)%Z -> (1 <= canvas_width ctx)%Z ->
  frame_has_pixel_count (sun_frame ctx progress brightness origin) ctx.
Proof.
  intros Hn Hw. unfold frame_has_pixel_count, sun_frame. cbv zeta.
  apply map_frame_pixel_count; [exact Hn|]. intros i Hi.
  step; [|absurd_none; lia].
  step; [|absurd_none; lia].
  match goal with
  | |- context [if Rlt_dec 0 ?m then py_div ?a ?m else Some 0] =>
      destruct (Rlt_dec 0 m) as [Hm|Hm]
  end; [step; [|absurd_none; lra] | cbv beta iota];
  (step; [|absurd_none;
           match goal with H : clamp01 ?x < 0 |- _ => pose proof (clamp01_range x) end;
           lra]);
  match goal with
  | |- context [sun_phase ?a ?b ?c ?d] =>
      destruct (sun_phase a b c d) as [[[h0 s0] b0] k0]
  end; cbv beta iota;
  match goal with
  | |- context [if Rlt_dec ?a 0.5 then _ else _] => destruct (Rlt_dec a 0.5)
  end; cbv beta iota; discriminate.
Qed.

Lemma sunrise_pixel_count fx ctx :
  (0 <= pixel_count ctx)%Z -> (1 <= canvas_width ctx)%Z ->
  frame_has_pixel_count (sunrise_generate_frame fx ctx) ctx.
Proof.
  intros Hn Hw. unfold sunrise_generate_frame.
  destruct (duration (sunrise_base fx)) as [d|];
    [destruct (Req_EM_T d 0) as [Hd|Hd]|]; cbv beta iota;
    try (apply sun_frame_pixel_count; assumption).
  step; [apply sun_frame_pixel_count; assumption|absurd_none; contradiction].
Qed.

Lemma sunset_pixel_count fx ctx :
  (0 <= pixel_count ctx)%Z -> (1 <= canvas_width ctx)%Z ->
  frame_has_pixel_count (sunset_generate_frame fx ctx) ctx.
Proof.
  intros Hn Hw. unfold sunset_generate_frame.
  destruct (duration (sunset_base fx)) as [d|];
    [destruct (Req_EM_T d 0) as [Hd|Hd]|]; cbv beta iota;
    try (apply sun_frame_pixel_count; assumption).
  step; [apply sun_frame_pixel_count; assumption|absurd_none; contradiction].
Qed.

(** *** Concrete frames *)

Lemma py_div_eval x y : y <> 0 -> py_div x y = Some (x / y).
Proof. intros H. unfold py_div. destruct (Req_EM_T y 0); [contradiction|reflexivity]. Qed.

Lemma py_pow_zero y : py_pow 0 y = Some 0.
Proof.
  unfold py_pow. destruct (Rlt_dec 0 0); [lra|].
  destruct (Req_EM_T 0 0); [reflexivity|contradiction].
Qed.

Lemma py_pow_pos x y : 0 < x -> py_pow x y = Some (Rpower x y).
Proof.
  intros Hx. unfold py_pow. destruct (Rlt_dec x 0); [lra|].
  destruct (Req_EM_T x 0); [lra|reflexivity].
Qed.

Lemma clamp01_id x : 0 <= x <= 1 -> clamp01 x = x.
Proof.
  intros Hx. unfold clamp01. rewrite Rmin_right by lra. apply Rmax_right. lra.
Qed.

Lemma clamp01_below x y : x < y -> 0 < y -> clamp01 x < y.
Proof.
  intros Hxy Hy. unfold clamp01. apply Rmax_lub_lt; [exact Hy|].
  apply Rle_lt_trans with x; [apply Rmin_r|exact Hxy].
Qed.

Lemma out_of_false lo hi x : out_of lo hi x = false -> lo <= x <= hi.
Proof.
  unfold out_of. destruct (Rle_dec lo x), (Rle_dec x hi); try discriminate. auto.
Qed.

Lemma map_frame_nth {A} (f : Z -> option A) l r :
  map_frame f l = Some r ->
  forall k c, nth_error r k = Some c -> exists i, nth_error l k = Some i /\ f i = Some c.
Proof.
  revert r. induction l as [|i l IH]; intros r Hr k c Hk; simpl in Hr.
  - inversion Hr; subst. destruct k; discriminate.
  - destruct (f i) as [d|] eqn:Ed; [|discriminate].
    destruct (map_frame f l) as [ds|] eqn:Eds; [|discriminate].
    inversion Hr; subst. destruct k as [|k]; simpl in Hk.
    + inversion Hk; subst. exists i. auto.
    + destruct (IH ds eq_refl k c Hk) as [j [Hj Hf]]. exists j. auto.
Qed.

Lemma flame_init_inv MIN_KELVIN MAX_KELVIN power_on i sp kmin kmax b fx :
  EffectFlame_init MIN_KELVIN MAX_KELVIN power_on i sp kmin kmax b = Constructed fx ->
  fx = mkFlame (mkFrameEffect power_on 20 None) i sp kmin kmax b
  /\ 0 <= b <= 1 /\ 0 <= i <= 1.
Proof.
  unfold EffectFlame_init, FrameEffect_init. intros H.
  destruct (out_of 0 1 i) eqn:Ei; [discriminate|].
  destruct (Rle_dec sp 0); [discriminate|].
  destruct (kmin <? MIN_KELVIN)%Z; [discriminate|].
  destruct (MAX_KELVIN <? kmax)%Z; [discriminate|].
  destruct (kmax <? kmin)%Z; [discriminate|].
  destruct (out_of 0 1 b) eqn:Eb; [discriminate|].
  destruct (Rle_dec 20 0); [discriminate|].
  inversion H; subst. apply out_of_false in Ei, Eb. auto.
Qed.

Ltac flame_init_compute :=
  unfold EffectFlame_init, FrameEffect_init, out_of;
  repeat match goal with
  | |- context [Rle_dec ?a ?b] => destruct (Rle_dec a b)
  end; simpl; first [reflexivity | exfalso; lra].

(** On a strip ([canvas_height <= 1]) each flame pixel has brightness
    [clamp01 (brightness * (1 - intensity + intensity * flicker))]. *)
Lemma flame_strip_brightness fx ctx frame :
  (canvas_height ctx <= 1)%Z -> flame_generate_frame fx ctx = Some frame ->
  Forall (fun c => exists fl, brightness c
            = clamp01 (flame_brightness fx * (1 - intensity fx + intensity fx * fl)))
         frame.
Proof.
  intros Hh Hf. unfold flame_generate_frame in Hf. cbv zeta in Hf.
  apply (map_frame_Forall _ _ _ _ Hf). intros i c _ Hc. cbv beta in Hc.
  assert (Hm : (1 <? canvas_height ctx)%Z = false) by (apply Z.ltb_ge; lia).
  rewrite Hm in Hc.
  destruct (py_div (IZR i) (IZR (Z.max (pixel_count ctx) 1))) as [seed|];
    [|discriminate].
  cbv iota in Hc. injection Hc as <-. eexists. reflexivity.
Qed.

Lemma sum_R_repeat b n : sum_R (repeat b n) = INR n * b.
Proof.
  induction n as [|n IH]; [simpl; ring|].
  rewrite S_INR. change (sum_R (repeat b (S n))) with (b + sum_R (repeat b n)).
  rewrite IH. ring.
Qed.

Lemma sum_R_nonneg xs : Forall (fun x => 0 <= x) xs -> 0 <= sum_R xs.
Proof. induction 1; simpl; lra. Qed.

Lemma variance_nonneg xs : 0 <= variance xs.
Proof.
  unfold variance, Rdiv. apply Rmult_le_pos.
  - apply sum_R_nonneg. apply Forall_forall. intros y Hy.
    apply in_map_iff in Hy as [x [<- _]]. apply pow2_ge_0.
  - destruct (List.length xs) as [|n]; [change (INR 0) with 0; rewrite Rinv_0; lra|].
    left. apply Rinv_0_lt_compat, lt_0_INR. lia.
Qed.

Lemma variance_repeat b n : variance (repeat b n) = 0.
Proof.
  unfold variance. destruct n as [|n]; [simpl; unfold Rdiv; ring|].
  assert (Hm : mean (repeat b (S n)) = b).
  { unfold mean. rewrite sum_R_repeat, repeat_length. field.
    apply not_0_INR. lia. }
  rewrite Hm, map_repeat, sum_R_repeat.
  replace ((b - b) ^ 2) with 0 by ring. unfold Rdiv. ring.
Qed.

Lemma brightness_repeat b frame :
  Forall (fun c => brightness c = b) frame ->
  map brightness frame = repeat b (List.length frame).
Proof. induction 1 as [|c cs Hc _ IH]; [reflexivity|]. simpl. rewrite IH, Hc. reflexivity. Qed.

Lemma zero_base_brightness i frame :
  Forall (fun c => exists fl, brightness c = clamp01 (0 * (1 - i + i * fl))) frame ->
  map brightness frame = repeat 0 (List.length frame).
Proof.
  induction 1 as [|c cs [fl Hc] _ IH]; [reflexivity|].
  simpl. rewrite IH, Hc. f_equal.
  replace (0 * (1 - i + i * fl)) with 0 by ring. apply clamp01_id. lra.
Qed.

Ltac reject_init :=
  unfold EffectRainbow_init, EffectFlame_init, FrameEffect_init;
  repeat match goal with
  | |- context [out_of ?lo ?hi ?x] =>
      first [rewrite (out_of_true lo hi x) by assumption | destruct (out_of lo hi x)]
  | |- context [Rle_dec ?a ?b] => destruct (Rle_dec a b)
  | |- context [Z.ltb ?a ?b] => destruct (Z.ltb_spec a b)
  end; try reflexivity; try lra; try lia.

(** C10: each frame-effect constructor returns [ValueError] (no effect
    object) when a parameter is out of range: [FrameEffect] for
    [fps <= 0] or a [duration <= 0]; [EffectRainbow] for [period <= 0],
    [brightness] or [saturation] outside [0, 1] or [spread] outside
    [0, 360]; [EffectFlame] for [intensity] outside [0, 1], [speed <= 0],
    [kelvin_min > kelvin_max] or [brightness] outside [0, 1]. *)
Theorem frame_effect_constructors_validate :
  (forall power_on fps duration,
     fps <= 0 -> FrameEffect_init power_on fps duration = ValueError) /\
  (forall power_on fps d,
     d <= 0 -> FrameEffect_init power_on fps (Some d) = ValueError) /\
  (forall power_on period brightness saturation spread,
     period <= 0 \/ ~ (0 <= brightness <= 1) \/ ~ (0 <= saturation <= 1)
     \/ ~ (0 <= spread <= 360) ->
     EffectRainbow_init power_on period brightness saturation spread = ValueError) /\
  (forall MIN_KELVIN MAX_KELVIN power_on intensity speed kelvin_min kelvin_max
          brightness,
     ~ (0 <= intensity <= 1) \/ speed <= 0 \/ (kelvin_max < kelvin_min)%Z
     \/ ~ (0 <= brightness <= 1) ->
     EffectFlame_init MIN_KELVIN MAX_KELVIN power_on intensity speed
       kelvin_min kelvin_max brightness = ValueError).
Proof.
  split; [|split; [|split]].
  - intros po fps d H. reject_init.
  - intros po fps d H. reject_init.
  - intros po p b s sp [H|[H|[H|H]]]; reject_init.
  - intros kl kh po i sp kmin kmax b [H|[H|[H|H]]]; reject_init.
Qed.

Lemma frame_effect_constructors_validate_witness :
  FrameEffect_init true 0 None = ValueError
  /\ EffectFlame_init 1500 9000 true 0.7 1 2500 1500 0.8 = ValueError.
Proof.
  destruct frame_effect_constructors_validate as [Hfps [_ [_ Hflame]]].
  split; [apply Hfps; lra|].
  apply Hflame. right. right. left. lia.
Defined.

(** C7 (amended): on a tick of the frame loop, for the [k]-th animator the
    loop calls [generate_frame] on the context [(elapsed_s, k, pixel_count,
    canvas_width, canvas_height)] of that animator, converts each returned
    colour with [as_tuple] and hands the result to the animator, whatever
    the length of the returned list: when every call returns a frame, the
    frames sent are exactly the converted frames, and the tick does not
    fail. *)
Theorem frame_loop_sends_generated_frames {P : Type}
  (generate_frame : FrameContext -> option (list HSBK)) (as_tuple : HSBK -> P)
  (elapsed : R) (anims : list Animator) (frames : list (list HSBK)) :
  map generate_frame (frame_contexts elapsed anims) = map Some frames ->
  frame_tick generate_frame as_tuple elapsed anims
  = (combine anims (map (map as_tuple) frames), false).
Proof.
  intros H. unfold frame_tick. apply tick_from_sends. exact H.
Qed.

Lemma frame_loop_sends_generated_frames_witness :
  frame_tick (fun ctx => Some (repeat (mkHSBK 0 1 1 3500) (Z.to_nat (pixel_count ctx))))
             hue 0 [mkAnimator 2 2 1; mkAnimator 1 1 1]
  = ([(mkAnimator 2 2 1, [0; 0]); (mkAnimator 1 1 1, [0])], false).
Proof.
  exact (frame_loop_sends_generated_frames
           (fun ctx => Some (repeat (mkHSBK 0 1 1 3500) (Z.to_nat (pixel_count ctx))))
           hue 0 [mkAnimator 2 2 1; mkAnimator 1 1 1]
           [[mkHSBK 0 1 1 3500; mkHSBK 0 1 1 3500]; [mkHSBK 0 1 1 3500]]
           eq_refl).
Defined.

(** Counterexample to C7 as stated: a [generate_frame] that returns an
    empty list for a one-pixel animator; the tick sends the empty frame and
    does not fail, so no length check is made. *)
Lemma frame_loop_length_unchecked :
  frame_tick (fun _ => Some []) hue 0 [mkAnimator 1 1 1]
  = ([(mkAnimator 1 1 1, [])], false)
  /\ Z.of_nat (List.length (@nil HSBK)) <> anim_pixel_count (mkAnimator 1 1 1).
Proof. split; [reflexivity | simpl; lia]. Qed.

(** C8 (amended): for every [FrameContext] with [pixel_count >= 0],
    [canvas_width >= 1], [canvas_height >= 1] and [device_index >= 0] (the
    frame loop passes the [enumerate] index), each catalog effect's
    [generate_frame] returns a list of [pixel_count] colours. The effects
    carry what their constructors check: a positive [period] (rainbow,
    colorloop), at least two palette entries (aurora), at least two
    gradient stops (progress). *)
Theorem catalog_frames_have_pixel_count (KELVIN_NEUTRAL : R) (ctx : FrameContext) :
  (0 <= pixel_count ctx)%Z -> (1 <= canvas_width ctx)%Z ->
  (1 <= canvas_height ctx)%Z -> (0 <= device_index ctx)%Z ->
  (forall fx, 0 < period fx ->
     frame_has_pixel_count (rainbow_generate_frame KELVIN_NEUTRAL fx ctx) ctx) /\
  (forall fx, frame_has_pixel_count (flame_generate_frame fx ctx) ctx) /\
  (forall fx, (2 <= List.length (palette fx))%nat ->
     frame_has_pixel_count (aurora_generate_frame KELVIN_NEUTRAL fx ctx) ctx) /\
  (forall fx, 0 < colorloop_period fx ->
     frame_has_pixel_count (colorloop_generate_frame fx ctx) ctx) /\
  (forall fx, match foreground fx with
              | FgGradient stops => (2 <= List.length stops)%nat
              | FgColor _ => True
              end ->
     frame_has_pixel_count (progress_generate_frame fx ctx) ctx) /\
  (forall fx, frame_has_pixel_count (sunrise_generate_frame fx ctx) ctx) /\
  (forall fx, frame_has_pixel_count (sunset_generate_frame fx ctx) ctx).
Proof.
  intros Hn Hw Hh Hd.
  split; [intros fx Hp; apply rainbow_pixel_count; assumption|].
  split; [intros fx; apply flame_pixel_count; assumption|].
  split; [intros fx Hl; apply aurora_pixel_count; [lia|assumption..]|].
  split; [intros fx Hp; apply colorloop_pixel_count; assumption|].
  split; [intros fx Hfg; apply progress_pixel_count; assumption|].
  split; [intros fx; apply sunrise_pixel_count; assumption|].
  intros fx; apply sunset_pixel_count; assumption.
Qed.

Lemma catalog_frames_have_pixel_count_witness :
  frame_has_pixel_count
    (rainbow_generate_frame 3500 (mkRainbow (mkFrameEffect true 20 None) 10 0.8 1 0)
       (mkContext 0 0 3 3 1))
    (mkContext 0 0 3 3 1).
Proof.
  destruct (catalog_frames_have_pixel_count 3500 (mkContext 0 0 3 3 1))
    as [Hr _]; simpl; try lia.
  apply Hr. simpl. lra.
Defined.

(** Counterexample to C8 as stated: a colorloop in spread mode whose setup
    found one light, on a context with [device_index = -10]: Python's
    [self._initial_colors[min(-10, 0)]] raises [IndexError], so no frame
    is returned. *)
Lemma colorloop_negative_device_index :
  0 < colorloop_period
        (mkColorloop (mkFrameEffect true 20 None) 60 20 30 None 0.8 1 None false
           [mkHSBK 0 1 1 3500] 1)
  /\ (0 <= pixel_count (mkContext 0 (-10) 1 1 1))%Z
  /\ (1 <= canvas_width (mkContext 0 (-10) 1 1 1))%Z
  /\ (1 <= canvas_height (mkContext 0 (-10) 1 1 1))%Z
  /\ colorloop_generate_frame
       (mkColorloop (mkFrameEffect true 20 None) 60 20 30 None 0.8 1 None false
          [mkHSBK 0 1 1 3500] 1)
       (mkContext 0 (-10) 1 1 1) = None.
Proof.
  split; [simpl; lra|]. split; [simpl; lia|].
  split; [simpl; lia|]. split; [simpl; lia|].
  unfold colorloop_generate_frame. cbn [initial_colors].
  rewrite py_div_eval by (simpl; lra). cbv beta iota. cbn [synchronized].
  unfold generate_spread_color. simpl. reflexivity.
Qed.

(** C9 (amended): on a strip ([canvas_height <= 1]), a flame effect built
    with [intensity = 0] and base brightness [b] gives every pixel of
    every frame brightness exactly [b], so the brightness is constant
    across the pixels, and the frame of the flame built with
    [intensity = 1] (other parameters equal) on the same context has a
    brightness variance at least as large. *)
Theorem flame_zero_intensity_constant_on_strips MIN_KELVIN MAX_KELVIN power_on speed
  kelvin_min kelvin_max b fx ctx frame :
  EffectFlame_init MIN_KELVIN MAX_KELVIN power_on 0 speed kelvin_min kelvin_max b
  = Constructed fx ->
  (canvas_height ctx <= 1)%Z ->
  flame_generate_frame fx ctx = Some frame ->
  Forall (fun c => brightness c = b) frame /\ constant_brightness frame
  /\ (forall fx1 frame1,
        EffectFlame_init MIN_KELVIN MAX_KELVIN power_on 1 speed kelvin_min kelvin_max b
        = Constructed fx1 ->
        flame_generate_frame fx1 ctx = Some frame1 ->
        brightness_variance frame <= brightness_variance frame1).
Proof.
  intros Hi Hh Hf. apply flame_init_inv in Hi as [-> [Hb _]].
  pose proof (flame_strip_brightness _ _ _ Hh Hf) as HF.
  cbn [flame_brightness intensity] in HF.
  assert (HF' : Forall (fun c => brightness c = b) frame).
  { eapply Forall_impl; [|exact HF]. intros c [fl ->].
    replace (b * (1 - 0 + 0 * fl)) with b by ring. apply clamp01_id. exact Hb. }
  split; [exact HF'|]. split.
  - intros c c' Hc Hc'. rewrite Forall_forall in HF'.
    rewrite (HF' c Hc), (HF' c' Hc'). reflexivity.
  - intros fx1 frame1 _ _. unfold brightness_variance at 1.
    rewrite (brightness_repeat _ _ HF'), variance_repeat. apply variance_nonneg.
Qed.

Lemma flame_zero_intensity_constant_on_strips_witness :
  exists frame,
    flame_generate_frame (mkFlame (mkFrameEffect true 20 None) 0 1 1500 2500 0.8)
      (mkContext 0 0 3 3 1) = Some frame
    /\ Forall (fun c => brightness c = 0.8) frame /\ constant_brightness frame.
Proof.
  destruct (flame_pixel_count (mkFlame (mkFrameEffect true 20 None) 0 1 1500 2500 0.8)
              (mkContext 0 0 3 3 1)) as [frame [Hf _]]; simpl; try lia.
  exists frame. split; [exact Hf|].
  destruct (flame_zero_intensity_constant_on_strips 1500 9000 true 1 1500 2500 0.8
           (mkFlame (mkFrameEffect true 20 None) 0 1 1500 2500 0.8)
           (mkContext 0 0 3 3 1) frame) as [Hb [Hc _]];
    [flame_init_compute | simpl; lia | exact Hf |].
  split; [exact Hb | exact Hc].
Defined.

(** Counterexample to C9 as stated, with flames as [EffectFlame] builds them
    from its default [speed] and kelvin range. (a) On a matrix canvas
    (width 1, height 2), a flame with [intensity = 0] and brightness [0.8]
    gives row 0 brightness [0.8] and row 1 less ([0.8 * (1 - 0.5 ** 0.7)]):
    the brightness is not constant. (b) With base brightness [0], the
    frames for [intensity = 1] and [intensity = 0] are all zero, so the
    variance at [intensity = 1] is not strictly greater. *)
Lemma flame_intensity_counterexample :
  (exists frame,
        flame_generate_frame (mkFlame (mkFrameEffect true 20 None) 0 1 1500 2500 0.8)
          (mkContext 0 0 2 1 2) = Some frame
        /\ ~ constant_brightness frame)
  /\
  (exists f0 f1,
        flame_generate_frame (mkFlame (mkFrameEffect true 20 None) 0 1 1500 2500 0)
          (mkContext 0 0 2 2 1) = Some f0
        /\ flame_generate_frame (mkFlame (mkFrameEffect true 20 None) 1 1 1500 2500 0)
          (mkContext 0 0 2 2 1) = Some f1
        /\ ~ (brightness_variance f1 > brightness_variance f0)).
Proof.
  split.
  - destruct (flame_pixel_count (mkFlame (mkFrameEffect true 20 None) 0 1 1500 2500 0.8)
                (mkContext 0 0 2 1 2)) as [frame [Hf Hl]]; simpl; try lia.
    exists frame. split; [exact Hf|].
    destruct frame as [|c0 [|c1 [|? ?]]]; simpl in Hl; try lia.
    unfold flame_generate_frame in Hf. cbv zeta in Hf.
    pose proof (map_frame_nth _ _ _ Hf 0 c0 eq_refl) as [i0 [Hi0 H0]].
    pose proof (map_frame_nth _ _ _ Hf 1 c1 eq_refl) as [i1 [Hi1 H1]].
    simpl in Hi0, Hi1. inversion Hi0; inversion Hi1; subst i0 i1. clear Hi0 Hi1 Hf.
    cbv beta in H0, H1.
    cbn [flame_brightness intensity speed kelvin_min kelvin_max elapsed_s pixel_count
         canvas_width canvas_height device_index] in H0, H1.
    rewrite py_div_eval in H0, H1 by (apply IZR_neq0; lia).
    unfold py_zdiv in H0, H1. simpl Z.eqb in H0, H1. cbv iota in H0, H1.
    rewrite py_div_eval in H0, H1 by (apply IZR_neq0; lia).
    change (1 <? 2)%Z with true in H0, H1.
    change (0 / 1)%Z with 0%Z in H0. change (1 / 1)%Z with 1%Z in H1.
    replace (IZR 0 / 2) with 0 in H0 by (simpl; lra).
    rewrite py_pow_zero in H0. rewrite py_pow_pos in H1 by (simpl; lra).
    cbv iota in H0, H1. injection H0 as <-. injection H1 as <-.
    intros Hc. specialize (Hc _ _ (or_introl eq_refl) (or_intror (or_introl eq_refl))).
    cbn [brightness] in Hc.
    match type of Hc with
    | clamp01 (0.8 * (1 - 0 + 0 * ?a) * (1 - 0)) = clamp01 (0.8 * (1 - 0 + 0 * ?b) * (1 - ?p)) =>
        replace (0.8 * (1 - 0 + 0 * a) * (1 - 0)) with 0.8 in Hc by ring;
        replace (0.8 * (1 - 0 + 0 * b) * (1 - p)) with (0.8 * (1 - p)) in Hc by ring;
        assert (Hp : 0 < p) by (unfold Rpower; apply exp_pos)
    end.
    rewrite clamp01_id in Hc by lra.
    match type of Hc with
    | 0.8 = clamp01 ?x =>
        assert (clamp01 x < 0.8) by (apply clamp01_below; lra)
    end.
    lra.
  - destruct (flame_pixel_count (mkFlame (mkFrameEffect true 20 None) 0 1 1500 2500 0)
                (mkContext 0 0 2 2 1)) as [f0 [H0 L0]]; simpl; try lia.
    destruct (flame_pixel_count (mkFlame (mkFrameEffect true 20 None) 1 1 1500 2500 0)
                (mkContext 0 0 2 2 1)) as [f1 [H1 L1]]; simpl; try lia.
    exists f0, f1. split; [exact H0|]. split; [exact H1|].
    pose proof (flame_strip_brightness _ (mkContext 0 0 2 2 1) _ (Z.le_refl 1) H0) as B0.
    pose proof (flame_strip_brightness _ (mkContext 0 0 2 2 1) _ (Z.le_refl 1) H1) as B1.
    cbn [flame_brightness intensity] in B0, B1.
    unfold brightness_variance.
    rewrite (zero_base_brightness _ _ B0), (zero_base_brightness _ _ B1).
    simpl in L0, L1.
    replace (List.length f0) with 2%nat by lia.
    replace (List.length f1) with 2%nat by lia.
    lra.
Qed.

End FramesProofs.

(* ------------------------------------------------------------------ *)
(** ** Proofs about request streams and retry backoff *)

Module ConnectionMoreProofs.
Import Connection ConnectionMore.
Local Open Scope Z_scope.



Lemma stream_attempt_props seq exp dl polls :
  forall hy0 ys hy e,
  stream_attempt seq exp dl hy0 polls = (ys, hy, e) ->
  Forall (valid_response seq exp) ys /\
  attempt_error_ok e /\
  (hy0 = true -> hy = true /\ e <> AttTimeout) /\
  (ys <> [] -> hy = true /\ e <> AttTimeout) /\
  (e = AttTimeout -> ys = [] /\ hy = hy0).
Proof.
  induction polls as [|pl rest IH]; intros hy0 ys hy e H; simpl in H.
  - inversion H; subst. simpl attempt_error_ok in *; intuition (try apply Forall_nil; try discriminate; try congruence).
  - destruct (remaining_le_zero dl (clock_top pl)).
    + destruct hy0; simpl in H; inversion H; subst;
        repeat split; try constructor; try discriminate; auto; congruence.
    + destruct (received pl) as [|h p|] eqn:Hr.
      * destruct hy0.
        -- exact (IH true ys hy e H).
        -- destruct (Qle_bool dl (clock_after pl)).
           ++ inversion H; subst. simpl attempt_error_ok in *; intuition (try apply Forall_nil; try discriminate; try congruence).
           ++ exact (IH false ys hy e H).
      * destruct (negb (Z.eqb (sequence h) seq)) eqn:Hs.
        -- exact (IH hy0 ys hy e H).
        -- apply negb_false_iff, Z.eqb_eq in Hs.
           destruct (Z.eqb (pkt_type h) STATE_UNHANDLED_PKT_TYPE) eqn:Hu.
           ++ inversion H; subst. simpl attempt_error_ok in *; intuition (try apply Forall_nil; try discriminate; try congruence).
           ++ apply Z.eqb_neq in Hu.
              destruct (stream_attempt seq exp dl true rest) as [[ys' hy'] e'] eqn:Hrec.
              destruct (IH true ys' hy' e' Hrec) as (Hf & Herr & Ht & _ & _).
              destruct (Ht eq_refl) as [Hhy He].
              destruct exp as [t|].
              ** destruct (negb (Z.eqb (pkt_type h) t)) eqn:Ht'.
                 --- inversion H; subst.
                     simpl attempt_error_ok in *; intuition (try apply Forall_nil; try discriminate; try congruence).
                 --- apply negb_false_iff, Z.eqb_eq in Ht'.
                     inversion H; subst.
                     repeat split; auto; try congruence.
                     constructor; [|exact Hf]. repeat split; auto.
              ** inversion H; subst.
                 repeat split; auto; try congruence.
                 constructor; [|exact Hf]. repeat split; auto.
      * inversion H; subst. simpl attempt_error_ok in *; intuition (try apply Forall_nil; try discriminate; try congruence).
Qed.



Lemma stream_attempts_props exp n :
  forall attempt R base counter hy0 env ys hy e,
  stream_attempts n attempt R base exp counter hy0 env = (ys, hy, e) ->
  (exists s, Forall (valid_response s exp) ys) /\
  stream_error_ok e /\
  (hy0 = true -> hy = true) /\ (ys <> [] -> hy = true).
Proof.
  induction n as [|n IH]; intros attempt R base counter hy0 env ys hy e H; simpl in H.
  - inversion H; subst. split; [exists 0; constructor|]. simpl; intuition.
  - destruct env as [|[st polls] env'].
    + inversion H; subst. split; [exists 0; constructor|]. simpl; intuition.
    + destruct (stream_attempt (fst (next_sequence counter)) exp
                  (st + current_timeout base attempt)%Q hy0 polls)
        as [[ys1 hy1] e1] eqn:Ha.
      cbn [next_sequence fst] in Ha. cbn [next_sequence] in H. rewrite Ha in H.
      destruct (stream_attempt_props _ _ _ _ _ _ _ _ Ha) as (Hf & Herr & Hhy & Hne & Hto).
      destruct e1.
      * destruct (Hto eq_refl) as [-> ->].
        destruct (Nat.ltb attempt R).
        -- destruct (stream_attempts n (S attempt) R base exp ((counter + 1) mod 256) hy0 env')
             as [[ys' hy'] e'] eqn:Hr.
           inversion H; subst. simpl. exact (IH _ _ _ _ _ _ _ _ _ Hr).
        -- inversion H; subst. split; [exists 0; constructor|]. simpl; intuition.
      * inversion H; subst. split; [eexists; exact Hf|]. simpl.
        intuition.
      * inversion H; subst. split; [eexists; exact Hf|]. simpl.
        intuition.
      * inversion H; subst. split; [eexists; exact Hf|]. simpl.
        intuition.
Qed.


(** X2: every response [request_stream] yields carries one common sequence
    number, is not a [StateUnhandled] packet, and has the expected packet
    type when one was given. *)
Theorem request_stream_yields_validated_responses (is_open : bool) (timeout : Q)
    (max_retries : nat) (expected_pkt_type : option Z) (counter : Z)
    (env : list attempt_env) :
  let '(ys, _) := request_stream is_open timeout max_retries expected_pkt_type counter env in
  exists s, Forall (fun y : yielded =>
    sequence (fst y) = s /\ pkt_type (fst y) <> STATE_UNHANDLED_PKT_TYPE /\
    match expected_pkt_type with Some t => pkt_type (fst y) = t | None => True end) ys.
Proof.
  unfold request_stream. destruct is_open; cbn [negb]; [|exists 0; constructor].
  destruct (stream_attempts (S max_retries) 0 max_retries (base_timeout timeout max_retries)
              expected_pkt_type counter false env) as [[ys hy] e] eqn:H.
  destruct (stream_attempts_props _ _ _ _ _ _ _ _ _ _ _ H) as ((s & Hs) & _).
  destruct e as [e'|]; [|destruct (negb hy)]; exists s; exact Hs.
Qed.

(** X3: once [request_stream] has yielded a response, it never ends with
    [LifxTimeoutError]. *)
Theorem request_stream_no_timeout_after_yield (is_open : bool) (timeout : Q)
    (max_retries : nat) (expected_pkt_type : option Z) (counter : Z)
    (env : list attempt_env) :
  let '(ys, e) := request_stream is_open timeout max_retries expected_pkt_type counter env in
  ys <> [] -> e <> StreamRaise LifxTimeoutError.
Proof.
  unfold request_stream. destruct is_open; cbn [negb]; [|congruence].
  destruct (stream_attempts (S max_retries) 0 max_retries (base_timeout timeout max_retries)
              expected_pkt_type counter false env) as [[ys hy] e] eqn:H.
  destruct (stream_attempts_props _ _ _ _ _ _ _ _ _ _ _ H) as (_ & Herr & _ & Hne).
  destruct e as [e'|]; cbv beta iota.
  - intro Hys. destruct e' as [|err|]; try discriminate. simpl in Herr.
    intro Heq; inversion Heq; subst. destruct Herr; discriminate.
  - destruct hy; cbv beta iota; simpl; [discriminate|].
    intro Hys. specialize (Hne Hys). discriminate.
Qed.

Lemma ack_attempt_props seq dl polls :
  forall k e, ack_attempt seq dl polls = (k, e) ->
  (k <= 1)%nat /\ (k = 1%nat -> e = AttReturn) /\ (e = AttTimeout -> k = 0%nat) /\
  match e with
  | AttRaise err => err = LifxProtocolError \/ err = LifxUnsupportedCommandError
  | _ => True end.
Proof.
  induction polls as [|pl rest IH]; intros k e H; simpl in H.
  - inversion H; subst. intuition (try lia; try discriminate).
  - destruct (remaining_le_zero dl (clock_top pl)).
    + inversion H; subst. intuition (try lia; try discriminate).
    + destruct (received pl) as [|h p|].
      * destruct (Qle_bool dl (clock_after pl)); [|exact (IH k e H)].
        inversion H; subst. intuition (try lia; try discriminate).
      * destruct (negb (Z.eqb (sequence h) seq)); [exact (IH k e H)|].
        destruct (Z.eqb (pkt_type h) STATE_UNHANDLED_PKT_TYPE);
          inversion H; subst; intuition (try lia; try discriminate).
      * inversion H; subst. intuition (try lia; try discriminate).
Qed.

Lemma ack_attempts_props n :
  forall attempt R base counter env k e,
  ack_attempts n attempt R base counter env = (k, e) ->
  (k <= 1)%nat /\ (k = 1%nat -> e = Some StreamReturn) /\ stream_error_ok e.
Proof.
  induction n as [|n IH]; intros attempt R base counter env k e H; simpl in H.
  - inversion H; subst. simpl; intuition (try lia; try discriminate).
  - destruct env as [|[st polls] env'].
    + inversion H; subst. simpl; intuition (try lia; try discriminate).
    + destruct (ack_attempt (fst (next_sequence counter))
                  (st + current_timeout base attempt)%Q polls) as [k1 e1] eqn:Ha.
      cbn [next_sequence fst] in Ha. cbn [next_sequence] in H. rewrite Ha in H.
      destruct (ack_attempt_props _ _ _ _ _ Ha) as (Hk & Hret & Hto & Herr).
      destruct e1.
      * rewrite (Hto eq_refl) in H. destruct (Nat.ltb attempt R).
        -- destruct (ack_attempts n (S attempt) R base ((counter + 1) mod 256) env')
             as [k' e'] eqn:Hr.
           inversion H; subst. exact (IH _ _ _ _ _ _ _ Hr).
        -- inversion H; subst. simpl; intuition (try lia; try discriminate).
      * inversion H; subst. simpl; intuition (try lia; try discriminate).
      * inversion H; subst. simpl. intuition (try lia; try discriminate).
      * inversion H; subst. simpl. intuition (try lia; try discriminate).
Qed.

(** X1: [request_ack_stream] yields at most one value, and when it yields
    one the generator then returns normally (no error after the
    acknowledgement). *)
Theorem request_ack_stream_yields_at_most_once (is_open : bool) (timeout : Q)
    (max_retries : nat) (counter : Z) (env : list attempt_env) :
  let '(k, e) := request_ack_stream is_open timeout max_retries counter env in
  (k <= 1)%nat /\ (k = 1%nat -> e = StreamReturn).
Proof.
  unfold request_ack_stream. destruct is_open; cbn [negb]; [|split; [lia | discriminate]].
  destruct (ack_attempts (S max_retries) 0 max_retries (base_timeout timeout max_retries)
              counter env) as [k e] eqn:H.
  destruct (ack_attempts_props _ _ _ _ _ _ _ _ H) as (Hk & Hret & _).
  destruct e as [e'|].
  - split; [exact Hk|]. intro H1. specialize (Hret H1). congruence.
  - split; [exact Hk|]. intro H1. specialize (Hret H1). discriminate.
Qed.



Lemma pow2_succ_Q a :
  (inject_Z (2 ^ Z.of_nat (S a)) == 2 * inject_Z (2 ^ Z.of_nat a))%Q.
Proof.
  rewrite Nat2Z.inj_succ, Z.pow_succ_r by lia. rewrite inject_Z_mult. reflexivity.
Qed.

Lemma pow2_nonneg_Q a : (0 <= inject_Z (2 ^ Z.of_nat a))%Q.
Proof.
  change 0%Q with (inject_Z 0). rewrite <- Zle_Qle. apply Z.pow_nonneg. lia.
Qed.

Lemma retry_sleeps_sum (us : list Q) :
  forall a, Forall (fun u => 0 <= u <= 1)%Q us ->
  Forall (fun s => 0 <= s)%Q (retry_sleeps a us) /\
  (Qsum (retry_sleeps a us)
   <= RETRY_SLEEP_BASE * (inject_Z (2 ^ Z.of_nat (a + List.length us))
                          - inject_Z (2 ^ Z.of_nat a)))%Q.
Proof.
  induction us as [|u us IH]; intros a Hu; cbn [retry_sleeps List.length].
  - split; [constructor|]. rewrite Nat.add_0_r. unfold Qsum, RETRY_SLEEP_BASE.
    cbn [fold_right]. lra.
  - inversion Hu as [|? ? Hu0 Hus]; subst.
    destruct (IH (S a) Hus) as [Hnn Hsum].
    pose proof (pow2_nonneg_Q a) as HP.
    pose proof (pow2_succ_Q a) as HS.
    replace (a + S (List.length us))%nat with (S a + List.length us)%nat in * by lia.
    unfold calculate_retry_sleep_with_jitter, uniform. cbv zeta.
    unfold RETRY_SLEEP_BASE in *. unfold Qsum in *. cbn [fold_right].
    set (X := inject_Z (2 ^ Z.of_nat a)) in *.
    set (Y := inject_Z (2 ^ Z.of_nat (S a + List.length us))) in *.
    rewrite HS in Hsum.
    split.
    + constructor; [|exact Hnn]. nra.
    + nra.
Qed.

(** X4: the jittered retry sleeps are non-negative and, over [n]
    retried attempts, add up to at most [0.1 * (2^n - 1)] seconds. *)
Theorem retry_sleeps_total_bounded (us : list Q) :
  Forall (fun u => 0 <= u <= 1)%Q us ->
  Forall (fun s => 0 <= s)%Q (retry_sleeps 0 us) /\
  (Qsum (retry_sleeps 0 us)
   <= RETRY_SLEEP_BASE * (inject_Z (2 ^ Z.of_nat (List.length us)) - 1))%Q.
Proof. intro H. exact (retry_sleeps_sum us 0 H). Qed.

Lemma retry_sleeps_total_bounded_witness :
  Forall (fun u => 0 <= u <= 1)%Q [1 # 2; 1]%Q /\
  Forall (fun s => 0 <= s)%Q (retry_sleeps 0 [1 # 2; 1]%Q) /\
  (Qsum (retry_sleeps 0 [1 # 2; 1]%Q)
   <= RETRY_SLEEP_BASE * (inject_Z (2 ^ Z.of_nat 2) - 1))%Q.
Proof.
  assert (H : Forall (fun u => 0 <= u <= 1)%Q [1 # 2; 1]%Q).
  { repeat constructor; apply Qle_bool_imp_le; reflexivity. }
  split; [exact H|]. exact (retry_sleeps_total_bounded [1 # 2; 1]%Q H).
Defined.
End ConnectionMoreProofs.

(* ------------------------------------------------------------------ *)
(** ** Proofs about pool metrics and lifecycle *)

Module PoolMoreProofs.
Import Pool PoolMore.

Lemma od_get_None_iff k (l : entries) : od_get k l = None <-> ~ In k (map fst l).
Proof.
  induction l as [|[k' v'] l IH]; simpl; [tauto|].
  destruct (String.eqb k k') eqn:E.
  - apply String.eqb_eq in E. subst. split; [discriminate|]. intro H. exfalso. apply H. auto.
  - apply String.eqb_neq in E. rewrite IH. split; intros H H'; apply H;
      [destruct H'; [congruence|assumption] | right; assumption].
Qed.

Lemma od_get_In k (l : entries) v : od_get k l = Some v -> In (k, v) l.
Proof.
  induction l as [|[k' v'] l IH]; simpl; [discriminate|].
  destruct (String.eqb k k') eqn:E; intro H.
  - apply String.eqb_eq in E. inversion H; subst. auto.
  - auto.
Qed.

Lemma map_fst_od_set_found k v (l : entries) :
  od_get k l <> None -> map fst (od_set k v l) = map fst l.
Proof.
  induction l as [|[k' v'] l IH]; simpl; intro H; [congruence|].
  destruct (String.eqb k k') eqn:E; simpl.
  - apply String.eqb_eq in E. subst. reflexivity.
  - f_equal. apply IH, H.
Qed.

Lemma map_fst_od_set_new k v (l : entries) :
  od_get k l = None -> map fst (od_set k v l) = map fst l ++ [k].
Proof.
  induction l as [|[k' v'] l IH]; simpl; intro H; [reflexivity|].
  destruct (String.eqb k k') eqn:E; [discriminate|]. simpl. f_equal. apply IH, H.
Qed.

Lemma NoDup_snoc {A} (l : list A) x : NoDup l -> ~ In x l -> NoDup (l ++ [x]).
Proof.
  induction l as [|y l IH]; simpl; intros Hl Hx.
  - constructor; [simpl; tauto|constructor].
  - inversion Hl; subst. constructor.
    + rewrite in_app_iff. simpl. intros [H|[H|H]]; [tauto|apply Hx; auto|exact H].
    + apply IH; [assumption|]. intro; apply Hx; auto.
Qed.

Lemma NoDup_od_set k v (l : entries) :
  NoDup (map fst l) -> NoDup (map fst (od_set k v l)).
Proof.
  intro H. destruct (od_get k l) eqn:E.
  - rewrite map_fst_od_set_found by congruence. exact H.
  - rewrite map_fst_od_set_new by exact E. apply NoDup_snoc; [exact H|].
    apply od_get_None_iff, E.
Qed.

Lemma Forall_od_set (P : string * (conn * Q) -> Prop) k v (l : entries) :
  Forall P l -> P (k, v) -> Forall P (od_set k v l).
Proof.
  induction l as [|[k' v'] l IH]; simpl; intros Hl Hp; [constructor; auto|].
  inversion Hl; subst. destruct (String.eqb k k'); constructor; auto.
Qed.

Lemma od_get_od_set k v (l : entries) : od_get k (od_set k v l) = Some v.
Proof.
  induction l as [|[k' v'] l IH]; simpl.
  - rewrite String.eqb_refl. reflexivity.
  - destruct (String.eqb k k') eqn:E; simpl.
    + rewrite String.eqb_refl. reflexivity.
    + rewrite E. exact IH.
Qed.

Lemma NoDup_map_filter (f : string * (conn * Q) -> bool) (l : entries) :
  NoDup (map fst l) -> NoDup (map fst (filter f l)).
Proof.
  induction l as [|[k v] l IH]; simpl; intro H; [constructor|].
  inversion H; subst. destruct (f (k, v)); simpl; [|auto].
  constructor; [|auto]. intro Hin. apply H2.
  apply in_map_iff in Hin. destruct Hin as ([k' v'] & Hk & Hin). simpl in Hk. subst.
  apply filter_In in Hin. apply in_map_iff. exists (k, v'). tauto.
Qed.

Lemma Forall_filter_sub {A} (P : A -> Prop) (f : A -> bool) l :
  Forall P l -> Forall P (filter f l).
Proof.
  rewrite !Forall_forall. intros H x Hx. apply filter_In in Hx. apply H, Hx.
Qed.

Lemma Forall_close (P : conn -> Prop) c o : Forall P o -> Forall P (close c o).
Proof. intro H. unfold close. apply Forall_filter_sub, H. Qed.

Lemma is_open_close_self c o : is_open (close c o) c = false.
Proof.
  unfold is_open, close. induction o as [|c' o IH]; simpl; [reflexivity|].
  destruct (Nat.eqb c c') eqn:E; simpl; [exact IH|]. rewrite E. exact IH.
Qed.

Lemma is_open_close_other c c' o : c <> c' -> is_open (close c o) c' = is_open o c'.
Proof.
  intro Hne. unfold is_open, close. induction o as [|x o IH]; simpl; [reflexivity|].
  destruct (Nat.eqb c x) eqn:E; simpl.
  - apply Nat.eqb_eq in E. subst. rewrite IH.
    destruct (Nat.eqb c' x) eqn:E'; [apply Nat.eqb_eq in E'; congruence|reflexivity].
  - rewrite IH. reflexivity.
Qed.

Lemma Forall_lt_succ n (l : list nat) :
  Forall (fun c => (c < n)%nat) l -> Forall (fun c => (c < S n)%nat) l.
Proof. intro H. eapply Forall_impl; [|exact H]. simpl; intros; lia. Qed.

Lemma Forall_entries_succ n (l : entries) :
  Forall (fun e => (fst (snd e) < n)%nat) l -> Forall (fun e => (fst (snd e) < S n)%nat) l.
Proof. intro H. eapply Forall_impl; [|exact H]. simpl; intros; lia. Qed.

Lemma get_connection_inv serial now p :
  pool_inv p -> pool_inv (result_pool (get_connection serial now p)).
Proof.
  intros (Hnd & Hconn & Hopen & Hm & He).
  unfold get_connection.
  destruct (od_get serial (connections p)) as [[c t]|] eqn:Hget.
  - destruct (is_open (open_conns p) c) eqn:Ho.
    + unfold result_pool, pool_inv; cbn [connections open_conns next_conn metrics
        hits misses total_requests evictions].
      rewrite (PoolProofs.hit_entries _ _ _ _ _ Hget).
      pose proof (od_get_In _ _ _ Hget) as Hin.
      repeat split; [| | exact Hopen | lia | lia].
      * rewrite map_app. apply NoDup_snoc; [apply NoDup_map_filter, Hnd|].
        apply od_get_None_iff, PoolProofs.od_get_filter_self.
      * apply Forall_app. split; [apply Forall_filter_sub, Hconn|].
        constructor; [|constructor]. simpl.
        rewrite Forall_forall in Hconn. exact (Hconn _ Hin).
    + destruct (Nat.leb (max_connections p) (List.length (connections p))).
      * destruct (connections p) as [|[k [old t']] rest] eqn:Hc; cbn [od_popitem_first].
        -- unfold result_pool, pool_inv; cbn [connections open_conns next_conn metrics
             hits misses total_requests evictions].
           repeat split; [constructor|constructor| |lia|lia].
           constructor; [lia|]. apply Forall_lt_succ; auto.
        -- unfold result_pool, pool_inv; cbn [connections open_conns next_conn metrics
             hits misses total_requests evictions].
           simpl in Hnd. inversion Hnd; subst. inversion Hconn; subst.
           repeat split; [| | |lia|lia].
           ++ apply NoDup_od_set. assumption.
           ++ apply Forall_od_set; [apply Forall_entries_succ; assumption|simpl; lia].
           ++ apply Forall_close. constructor; [lia|]. apply Forall_lt_succ; auto.
      * unfold result_pool, pool_inv; cbn [connections open_conns next_conn metrics
          hits misses total_requests evictions].
        repeat split; [| | |lia|lia].
        -- apply NoDup_od_set, Hnd.
        -- apply Forall_od_set; [apply Forall_entries_succ; assumption|simpl; lia].
        -- constructor; [lia|]. apply Forall_lt_succ; auto.
  - destruct (Nat.leb (max_connections p) (List.length (connections p))).
    + destruct (connections p) as [|[k [old t']] rest] eqn:Hc; cbn [od_popitem_first].
      * unfold result_pool, pool_inv; cbn [connections open_conns next_conn metrics
          hits misses total_requests evictions].
        repeat split; [constructor|constructor| |lia|lia].
        constructor; [lia|]. apply Forall_lt_succ; auto.
      * unfold result_pool, pool_inv; cbn [connections open_conns next_conn metrics
          hits misses total_requests evictions].
        simpl in Hnd. inversion Hnd; subst. inversion Hconn; subst.
        repeat split; [| | |lia|lia].
        -- apply NoDup_od_set. assumption.
        -- apply Forall_od_set; [apply Forall_entries_succ; assumption|simpl; lia].
        -- apply Forall_close. constructor; [lia|]. apply Forall_lt_succ; auto.
    + unfold result_pool, pool_inv; cbn [connections open_conns next_conn metrics
        hits misses total_requests evictions].
      repeat split; [| | |lia|lia].
      * apply NoDup_od_set, Hnd.
      * apply Forall_od_set; [apply Forall_entries_succ; assumption|simpl; lia].
      * constructor; [lia|]. apply Forall_lt_succ; auto.
Qed.

Lemma reachable_inv max p : reachable max p -> pool_inv p /\ max_connections p = max.
Proof.
  induction 1 as [|serial now p Hr [IH Hmax]|c p Hr [IH Hmax]].
  - unfold pool_inv, new_pool; simpl. repeat split; constructor.
  - split; [apply get_connection_inv, IH|]. rewrite PoolProofs.get_connection_max. exact Hmax.
  - destruct IH as (Hnd & Hconn & Hopen & Hm & He). unfold close_elsewhere, pool_inv; simpl.
    repeat split; auto. apply Forall_close, Hopen.
Qed.


Lemma reachable_bounded max p : reachable max p -> (List.length (connections p) <= max)%nat.
Proof.
  intro Hr.
  induction Hr as [|serial now p Hr IH|c p Hr IH].
  - simpl. lia.
  - pose proof (proj2 (reachable_inv max p Hr)) as Hmax. subst max.
    apply PoolProofs.get_connection_bounded, IH.
  - simpl. exact IH.
Qed.

Lemma get_connection_leaves_open serial t p p1 c :
  pool_inv p -> get_connection serial t p = PoolOk p1 c ->
  od_get serial (connections p1) = Some (c, t) /\ is_open (open_conns p1) c = true /\
  c <> next_conn p1.
Proof.
  intros (Hnd & Hconn & Hopen & _ & _) H. unfold get_connection in H.
  destruct (od_get serial (connections p)) as [[c0 t0]|] eqn:Hget.
  - destruct (is_open (open_conns p) c0) eqn:Ho.
    + inversion H; subst. cbn [connections open_conns next_conn].
      rewrite (PoolProofs.hit_entries _ _ _ _ _ Hget).
      rewrite PoolProofs.od_get_app_none by apply PoolProofs.od_get_filter_self.
      simpl. rewrite String.eqb_refl. repeat split; [exact Ho|].
      pose proof (od_get_In _ _ _ Hget) as Hin. rewrite Forall_forall in Hconn.
      specialize (Hconn _ Hin). simpl in Hconn. lia.
    + destruct (Nat.leb (max_connections p) (List.length (connections p))).
      * destruct (connections p) as [|[k [old t']] rest] eqn:Hc; cbn [od_popitem_first] in H;
          [discriminate|].
        inversion H; subst. cbn [connections open_conns next_conn].
        rewrite od_get_od_set. rewrite Forall_cons_iff in Hconn.
        destruct Hconn as [Hold _]. cbn [fst snd] in Hold.
        destruct (Nat.eqb_spec old (next_conn p)); [lia|]. unfold is_open. simpl.
        rewrite Nat.eqb_refl. repeat split. lia.
      * inversion H; subst. cbn [connections open_conns next_conn].
        rewrite od_get_od_set. unfold is_open. simpl.
        rewrite Nat.eqb_refl. repeat split. lia.
  - destruct (Nat.leb (max_connections p) (List.length (connections p))).
    + destruct (connections p) as [|[k [old t']] rest] eqn:Hc; cbn [od_popitem_first] in H;
        [discriminate|].
      inversion H; subst. cbn [connections open_conns next_conn].
      rewrite od_get_od_set. rewrite Forall_cons_iff in Hconn.
      destruct Hconn as [Hold _]. cbn [fst snd] in Hold.
      destruct (Nat.eqb_spec old (next_conn p)); [lia|]. unfold is_open. simpl.
      rewrite Nat.eqb_refl. repeat split. lia.
    + inversion H; subst. cbn [connections open_conns next_conn].
      rewrite od_get_od_set. unfold is_open. simpl.
      rewrite Nat.eqb_refl. repeat split. lia.
Qed.

Lemma is_open_close_closed c c' o : is_open o c = false -> is_open (close c' o) c = false.
Proof.
  unfold is_open, close. intro H. apply Bool.not_true_iff_false. intro H'.
  apply existsb_exists in H'. destruct H' as (x & Hx & Heq).
  apply filter_In in Hx. apply Bool.not_true_iff_false in H. apply H.
  apply existsb_exists. exists x. split; [tauto|exact Heq].
Qed.

Lemma close_all_closes (l : entries) :
  forall o e, In e l -> is_open (fold_left (fun o e => close (fst (snd e)) o) l o) (fst (snd e)) = false.
Proof.
  induction l as [|e' l IH]; intros o e Hin; [destruct Hin|].
  simpl. destruct Hin as [<-|Hin]; [|apply IH, Hin].
  clear IH. generalize (close (fst (snd e')) o) (is_open_close_self (fst (snd e')) o).
  induction l as [|e'' l IH]; intros o' Ho'; simpl; [exact Ho'|].
  apply IH. apply is_open_close_closed, Ho'.
Qed.


(** X5: in every reachable pool state, hits plus misses equal the total
    requests, evictions never exceed misses, and the hit rate is in
    [[0, 1]]. *)
Theorem pool_metrics_consistent max p :
  reachable max p ->
  (hits (metrics p) + misses (metrics p) = total_requests (metrics p))%nat /\
  (evictions (metrics p) <= misses (metrics p))%nat /\
  (0 <= hit_rate (metrics p) <= 1)%Q.
Proof.
  intro Hr. destruct (proj1 (reachable_inv max p Hr)) as (_ & _ & _ & Hsum & Hev).
  split; [exact Hsum|]. split; [exact Hev|].
  unfold hit_rate. destruct (Nat.ltb_spec 0 (total_requests (metrics p))) as [Hlt|Hge].
  - assert (Hpos : (0 < inject_Z (Z.of_nat (total_requests (metrics p))))%Q).
    { unfold Qlt, inject_Z. simpl. lia. }
    split.
    + apply Qle_shift_div_l; [exact Hpos|]. rewrite Qmult_0_l.
      unfold Qle, inject_Z. simpl. lia.
    + apply Qle_shift_div_r; [exact Hpos|]. rewrite Qmult_1_l.
      unfold Qle, inject_Z. simpl. lia.
  - split; discriminate.
Qed.

(** X6: a pool of capacity 0 raises [KeyError] on every request, stays
    empty, and leaves the connection it just opened open. *)
Theorem pool_zero_capacity_raises p serial now :
  reachable 0 p ->
  exists p', get_connection serial now p = PoolKeyError p' /\
             connections p' = [] /\
             is_open (open_conns p') (next_conn p) = true.
Proof.
  intro Hr. pose proof (reachable_bounded 0 p Hr) as Hb.
  pose proof (proj2 (reachable_inv 0 p Hr)) as Hm.
  destruct (connections p) eqn:Hc; [|simpl in Hb; lia].
  unfold get_connection. rewrite Hc, Hm. cbn.
  eexists. split; [reflexivity|]. split; [reflexivity|].
  unfold is_open. simpl. rewrite Nat.eqb_refl. reflexivity.
Qed.

(** X7: a second request for a serial just served returns the same
    connection as a hit, without opening a connection or counting a miss. *)
Theorem pool_repeat_request_hits max p serial t1 t2 p1 c :
  reachable max p ->
  get_connection serial t1 p = PoolOk p1 c ->
  exists p2, get_connection serial t2 p1 = PoolOk p2 c /\
             hits (metrics p2) = S (hits (metrics p1)) /\
             misses (metrics p2) = misses (metrics p1) /\
             next_conn p2 = next_conn p1 /\
             open_conns p2 = open_conns p1.
Proof.
  intros Hr H. pose proof (proj1 (reachable_inv max p Hr)) as Hinv.
  destruct (get_connection_leaves_open serial t1 p p1 c Hinv H) as (Hg & Ho & _).
  unfold get_connection at 1. rewrite Hg, Ho.
  eexists. repeat split; reflexivity.
Qed.

(** X8: [close_all] closes every pooled connection and empties the pool;
    with capacity at least 1, the next request opens a fresh connection,
    counted as a miss. *)
Theorem pool_close_all_closes_every_connection max p :
  reachable max p ->
  connections (close_all p) = [] /\
  (forall e, In e (connections p) -> is_open (open_conns (close_all p)) (fst (snd e)) = false) /\
  ((1 <= max)%nat -> forall serial now,
     exists p', get_connection serial now (close_all p) = PoolOk p' (next_conn p) /\
                misses (metrics p') = S (misses (metrics p)) /\
                (forall e, In e (connections p) -> fst (snd e) <> next_conn p)).
Proof.
  intro Hr. destruct (reachable_inv max p Hr) as [(_ & Hconn & _) Hm].
  split; [reflexivity|]. split.
  - intros e Hin. apply close_all_closes, Hin.
  - intros H1 serial now. unfold get_connection, close_all. cbn [connections max_connections].
    simpl od_get. rewrite Hm. destruct max as [|m]; [lia|]. cbn.
    eexists. split; [reflexivity|]. split; [reflexivity|].
    intros e Hin. rewrite Forall_forall in Hconn. specialize (Hconn e Hin). unfold conn in *. lia.
Qed.


Lemma pool_metrics_consistent_witness :
  let p := result_pool (get_connection "a" 3 (result_pool (get_connection "b" 2
             (result_pool (get_connection "a" 1 (new_pool 2)))))) in
  reachable 2 p /\
  (hits (metrics p) + misses (metrics p) = total_requests (metrics p))%nat /\
  (evictions (metrics p) <= misses (metrics p))%nat /\
  (0 <= hit_rate (metrics p) <= 1)%Q.
Proof.
  intro p. assert (Hr : reachable 2 p) by (apply reach_get, reach_get, reach_get, reach_new).
  split; [exact Hr|]. exact (pool_metrics_consistent 2 p Hr).
Defined.

Lemma pool_zero_capacity_raises_witness :
  let p := result_pool (get_connection "a" 1 (new_pool 0)) in
  reachable 0 p /\
  exists p', get_connection "b" 2 p = PoolKeyError p' /\
             connections p' = [] /\
             is_open (open_conns p') (next_conn p) = true.
Proof.
  intro p. assert (Hr : reachable 0 p) by (apply reach_get, reach_new).
  split; [exact Hr|]. exact (pool_zero_capacity_raises p "b" 2 Hr).
Defined.

Lemma pool_repeat_request_hits_witness :
  let p := result_pool (get_connection "a" 1 (new_pool 1)) in
  let p1 := result_pool (get_connection "a" 2 p) in
  reachable 1 p /\ get_connection "a" 2 p = PoolOk p1 0%nat /\
  exists p2, get_connection "a" 3 p1 = PoolOk p2 0%nat /\
             hits (metrics p2) = S (hits (metrics p1)) /\
             misses (metrics p2) = misses (metrics p1) /\
             next_conn p2 = next_conn p1 /\
             open_conns p2 = open_conns p1.
Proof.
  intros p p1. assert (Hr : reachable 1 p) by (apply reach_get, reach_new).
  assert (Hg : get_connection "a" 2 p = PoolOk p1 0%nat) by (vm_compute; reflexivity).
  split; [exact Hr|]. split; [exact Hg|].
  exact (pool_repeat_request_hits 1 p "a" 2 3 p1 0%nat Hr Hg).
Defined.

Lemma pool_close_all_closes_every_connection_witness :
  let p := result_pool (get_connection "b" 2 (result_pool (get_connection "a" 1 (new_pool 2)))) in
  reachable 2 p /\
  connections (close_all p) = [] /\
  (forall e, In e (connections p) -> is_open (open_conns (close_all p)) (fst (snd e)) = false) /\
  ((1 <= 2)%nat -> forall serial now,
     exists p', get_connection serial now (close_all p) = PoolOk p' (next_conn p) /\
                misses (metrics p') = S (misses (metrics p)) /\
                (forall e, In e (connections p) -> fst (snd e) <> next_conn p)).
Proof.
  intro p. assert (Hr : reachable 2 p) by (apply reach_get, reach_get, reach_new).
  split; [exact Hr|]. exact (pool_close_all_closes_every_connection 2 p Hr).
Defined.


End PoolMoreProofs.

(* ------------------------------------------------------------------ *)
(** ** Proofs about removing lights and effect cleanup *)

Module ConductorMoreProofs.
Import Dict Conductor ConductorMore ConductorProofs.

Local Open Scope nat_scope.

Lemma get_del {A} (k l : string) (d : dict A) :
  get k (del l d) = if String.eqb k l then None else get k d.
Proof.
  destruct (String.eqb_spec k l) as [<-|Hne]; [apply get_del_self|].
  unfold del. induction d as [|[k' v'] d IH]; simpl; [reflexivity|].
  destruct (String.eqb_spec l k') as [<-|Hlk]; simpl.
  - rewrite IH. apply String.eqb_neq in Hne. rewrite Hne. reflexivity.
  - destruct (String.eqb k k'); [reflexivity|exact IH].
Qed.

Lemma In_del {A} (k l : string) (v : A) (d : dict A) :
  In (k, v) (del l d) <-> In (k, v) d /\ k <> l.
Proof.
  unfold del. rewrite filter_In. simpl.
  rewrite negb_true_iff, String.eqb_neq. intuition congruence.
Qed.

Lemma NoDup_del {A} (l : string) (d : dict A) :
  NoDup (map fst d) -> NoDup (map fst (del l d)).
Proof.
  unfold del. induction d as [|[k v] d IH]; simpl; intro H; [constructor|].
  inversion H as [|? ? Hn Hd]; subst.
  destruct (negb (String.eqb l k)); simpl; [|apply IH, Hd].
  constructor; [|apply IH, Hd].
  intro Hin. apply Hn. apply in_map_iff in Hin. destruct Hin as [[k' v'] [Hk Hin]].
  apply filter_In in Hin. apply in_map_iff. exists (k', v'). tauto.
Qed.

Lemma get_In {A} (k : string) (d : dict A) (v : A) : get k d = Some v -> In (k, v) d.
Proof.
  induction d as [|[k' v'] d IH]; simpl; [discriminate|].
  destruct (String.eqb_spec k k') as [<-|_]; intro H.
  - injection H as <-. left. reflexivity.
  - right. apply IH, H.
Qed.

Lemma In_get {A} (k : string) (d : dict A) (v : A) :
  NoDup (map fst d) -> In (k, v) d -> get k d = Some v.
Proof.
  induction d as [|[k' v'] d IH]; simpl; intros Hnd Hin; [contradiction|].
  inversion Hnd as [|? ? Hn Hd]; subst.
  destruct Hin as [Heq|Hin].
  - injection Heq as <- <-. rewrite String.eqb_refl. reflexivity.
  - destruct (String.eqb_spec k k') as [<-|_].
    + exfalso. apply Hn. apply in_map_iff. exists (k, v). auto.
    + apply IH; assumption.
Qed.


Section RemoveProofs.
Variable PreState : Type.
Variable is_frame_effect : effect_id -> bool.

Lemma remove_loop_registry (rs : bool) (lights : list Light) :
  forall (s : ConductorState PreState) an c r s' an' c' r',
  remove_lights_loop is_frame_effect rs lights s an c r = (s', an', c', r') ->
  (forall l, In l lights -> get l (running s') = None) /\
  (forall l, ~ In l lights -> get l (running s') = get l (running s)) /\
  (forall l p, In (l, p) r' <->
     In (l, p) r \/ (rs = true /\ In l lights /\
                     exists x, get l (running s) = Some x /\ prestate x = p)).
Proof.
  induction lights as [|l ls IH]; intros s an c r s' an' c' r' H; simpl in H.
  - injection H as <- <- <- <-. split; [intros l []|]. split; [reflexivity|].
    intros l p. simpl. intuition.
  - destruct (get l (running s)) as [x|] eqn:Hg.
    + destruct (IH _ _ _ _ _ _ _ _ H) as (H1 & H2 & H3). cbn [running] in H1, H2, H3.
      split; [|split].
      * intros l' [<-|Hin].
        -- destruct (in_dec String.string_dec l ls) as [Hin|Hnin]; [apply H1, Hin|].
           rewrite H2, get_del_self by exact Hnin. reflexivity.
        -- apply H1, Hin.
      * intros l' Hnin. rewrite H2 by (intro; apply Hnin; right; assumption).
        rewrite get_del. destruct (String.eqb_spec l' l) as [->|]; [|reflexivity].
        exfalso. apply Hnin. left. reflexivity.
      * intros l' p. rewrite H3. rewrite get_del.
        destruct rs.
        -- rewrite in_app_iff. simpl.
           destruct (String.eqb_spec l' l) as [->|Hne].
           ++ rewrite Hg. split.
              ** intros [[Hr|[Heq|[]]]|(_ & _ & y & Hy & _)]; [tauto| |discriminate].
                 injection Heq as <-. right. split; [reflexivity|]. split; [left; reflexivity|].
                 exists x. split; reflexivity.
              ** intros [Hr|(_ & _ & y & Hy & Hp)]; [tauto|].
                 injection Hy as <-. left. right. left. rewrite Hp. reflexivity.
           ++ split.
              ** intros [[Hr|[Heq|[]]]|(_ & Hin & Hy)]; [tauto| |].
                 --- injection Heq as Heq. congruence.
                 --- right. split; [reflexivity|]. split; [right; exact Hin|exact Hy].
              ** intros [Hr|(_ & [Heq|Hin] & Hy)]; [tauto|congruence|].
                 right. split; [reflexivity|]. split; [exact Hin|exact Hy].
        -- split.
           ++ intros [Hr|(Hf & _)]; [tauto|discriminate].
           ++ intros [Hr|(Hf & _)]; [tauto|discriminate].
    + destruct (IH _ _ _ _ _ _ _ _ H) as (H1 & H2 & H3).
      split; [|split].
      * intros l' [<-|Hin].
        -- destruct (in_dec String.string_dec l ls) as [Hin|Hnin]; [apply H1, Hin|].
           rewrite H2 by exact Hnin. exact Hg.
        -- apply H1, Hin.
      * intros l' Hnin. apply H2. intro; apply Hnin; right; assumption.
      * intros l' p. rewrite H3. split.
        -- intros [Hr|(Hrs & Hin & Hy)]; [tauto|]. right. split; [exact Hrs|].
           split; [right; exact Hin|exact Hy].
        -- intros [Hr|(Hrs & [<-|Hin] & y & Hy & Hp)]; [tauto| |].
           ++ rewrite Hg in Hy. discriminate.
           ++ right. split; [exact Hrs|]. split; [exact Hin|]. exists y. tauto.
Qed.

Lemma NoDup_all_eq_length {A} (xs : list A) (a : A) :
  NoDup xs -> (forall y, In y xs -> y = a) -> (List.length xs <= 1)%nat.
Proof.
  destruct xs as [|x [|x' xs]]; simpl; intros Hnd Hall; try lia.
  inversion Hnd as [|? ? Hn _]; subst. exfalso. apply Hn.
  rewrite (Hall x) by auto. rewrite (Hall x') by auto. left. reflexivity.
Qed.

Lemma NoDup_map_fst_filter {A} (f : string * A -> bool) (d : list (string * A)) :
  NoDup (map fst d) -> NoDup (map fst (filter f d)).
Proof.
  induction d as [|[k v] d IH]; simpl; intro H; [constructor|].
  inversion H as [|? ? Hn Hd]; subst.
  destruct (f (k, v)); simpl; [|apply IH, Hd].
  constructor; [|apply IH, Hd].
  intro Hin. apply Hn. apply in_map_iff in Hin. destruct Hin as [[k' v'] [Hk Hin]].
  apply filter_In in Hin. apply in_map_iff. exists (k', v'). tauto.
Qed.

Lemma count_running_le1 (t : task_id) (e : effect_id) (d : dict (RunningEffect PreState))
    (l : string) (x : RunningEffect PreState) :
  NoDup (map fst d) -> In (l, x) d -> task x = t ->
  (forall k y, In (k, y) d -> task y = t -> effect y = e) ->
  ((count_running t e d <= 1)%nat <-> forall k y, In (k, y) d -> task y = t -> k = l).
Proof.
  intros Hnd Hin Ht He. unfold count_running.
  set (F := filter (fun kv => Nat.eqb (task (snd kv)) t && Nat.eqb (effect (snd kv)) e) d).
  assert (HF : forall k y, In (k, y) F <-> In (k, y) d /\ task y = t).
  { intros k y. unfold F. rewrite filter_In. simpl.
    rewrite andb_true_iff, !Nat.eqb_eq. split; [tauto|].
    intros [Hi Hy]. split; [exact Hi|]. split; [exact Hy|]. apply (He k y Hi Hy). }
  split.
  - intros Hlen k y Hky Hy. assert (Hl : In (l, x) F) by (apply HF; tauto).
    assert (Hk : In (k, y) F) by (apply HF; tauto).
    destruct F as [|a [|a' F']]; simpl in Hlen; [destruct Hl| |lia].
    destruct Hl as [Ha|[]]. destruct Hk as [Hk|[]]. congruence.
  - intro Hall. rewrite <- (length_map fst).
    apply (NoDup_all_eq_length _ l); [apply NoDup_map_fst_filter, Hnd|].
    intros k Hk. apply in_map_iff in Hk. destruct Hk as [[k' y] [<- Hk]].
    apply HF in Hk. apply (Hall k' y); tauto.
Qed.

Lemma In_set_add (t t' : task_id) (ts : list task_id) :
  In t (set_add t' ts) <-> t = t' \/ In t ts.
Proof.
  unfold set_add. destruct (existsb (Nat.eqb t') ts) eqn:E.
  - apply existsb_exists in E. destruct E as [y [Hy Heq]]. apply Nat.eqb_eq in Heq.
    subst y. split; [tauto|]. intros [->|H]; assumption.
  - rewrite in_app_iff. simpl. intuition.
Qed.

Lemma other_entry_dec (t : task_id) (l : string) (d : dict (RunningEffect PreState)) :
  (exists k y, In (k, y) d /\ task y = t /\ k <> l) \/
  ~ (exists k y, In (k, y) d /\ task y = t /\ k <> l).
Proof.
  destruct (existsb (fun kv => Nat.eqb (task (snd kv)) t && negb (String.eqb (fst kv) l)) d)
    eqn:E.
  - left. apply existsb_exists in E. destruct E as [[k y] [Hin Hb]].
    apply andb_true_iff in Hb. destruct Hb as [Ht Hk]. simpl in *.
    apply Nat.eqb_eq in Ht. apply negb_true_iff, String.eqb_neq in Hk. exists k, y. tauto.
  - right. intros (k & y & Hin & Ht & Hk). apply Bool.not_true_iff_false in E. apply E.
    apply existsb_exists. exists (k, y). split; [exact Hin|]. simpl.
    rewrite Ht, Nat.eqb_refl. simpl. apply negb_true_iff, String.eqb_neq. exact Hk.
Qed.

Lemma remove_loop_cancel (rs : bool) (t : task_id) (e : effect_id) (lights : list Light) :
  forall (s : ConductorState PreState) an c r s' an' c' r',
  remove_lights_loop is_frame_effect rs lights s an c r = (s', an', c', r') ->
  NoDup (map fst (running s)) ->
  (forall k x, In (k, x) (running s) -> task x = t -> effect x = e) ->
  (In t c' <-> In t c \/ covers t (running s) lights).
Proof.
  induction lights as [|l ls IH]; intros s an c r s' an' c' r' H Hnd He; simpl in H.
  - injection H as <- <- <- <-. unfold covers. split; [tauto|].
    intros [Hc|[(k & x & Hin & Hx) Hall]]; [exact Hc|]. destruct (Hall k x Hin Hx).
  - destruct (get l (running s)) as [x|] eqn:Hg.
    + assert (Hlx : In (l, x) (running s)) by (apply get_In, Hg).
      rewrite (IH _ _ _ _ _ _ _ _ H) by
        (cbn [running]; first [apply NoDup_del, Hnd |
         intros k y Hin Hy; apply In_del in Hin; apply (He k y); tauto]).
      cbn [running].
      assert (Hcov : forall k y, In (k, y) (running s) -> task y = t -> k <> l ->
                     In (k, y) (del l (running s))) by (intros; apply In_del; tauto).
      destruct (Nat.eq_dec (task x) t) as [Hxt|Hxt].
      * pose proof (He l x Hlx Hxt) as Hxe. rewrite Hxt, Hxe.
        pose proof (count_running_le1 t e (running s) l x Hnd Hlx Hxt He) as Hc1.
        destruct (Nat.leb_spec (count_running t e (running s)) 1) as [Hle|Hgt].
        -- rewrite In_set_add. split; [|intros _; left; left; reflexivity].
           intros _. right. split; [exists l, x; tauto|].
           intros k y Hin Hy. left. symmetry. apply (proj1 Hc1 Hle k y Hin Hy).
        -- assert (Hex : exists k y, In (k, y) (running s) /\ task y = t /\ k <> l).
           { destruct (other_entry_dec t l (running s)) as [Hex|Hno]; [exact Hex|].
             exfalso. apply (Nat.lt_irrefl 1). apply (Nat.lt_le_trans _ _ _ Hgt).
             apply Hc1. intros k y Hin Hy. destruct (String.eqb_spec k l) as [->|Hne];
             [reflexivity|]. exfalso. apply Hno. exists k, y. tauto. }
           unfold covers. split.
           ++ intros [Hc|[_ Hall]]; [tauto|]. right. split; [exists l, x; tauto|].
              intros k y Hin Hy. destruct (String.eqb_spec k l) as [->|Hne]; [left; reflexivity|].
              right. apply (Hall k y); [apply Hcov|]; assumption.
           ++ intros [Hc|[_ Hall]]; [tauto|]. right.
              destruct Hex as (k & y & Hin & Hy & Hne). split; [exists k, y; split; [apply Hcov|]; assumption|].
              intros k' y' Hin' Hy'. apply In_del in Hin'. destruct Hin' as [Hin' Hne'].
              destruct (Hall k' y' Hin' Hy') as [Heq|Hin'']; [congruence|exact Hin''].
      * assert (Hc'' : In t (if Nat.leb (count_running (task x) (effect x) (running s)) 1
                             then set_add (task x) c else c) <-> In t c).
        { destruct (Nat.leb _ _); [rewrite In_set_add|]; intuition congruence. }
        rewrite Hc''.
        assert (Hnl : forall k y, In (k, y) (running s) -> task y = t -> k <> l).
        { intros k y Hin Hy ->. rewrite (In_get l (running s) y Hnd Hin) in Hg.
          injection Hg as ->. contradiction. }
        unfold covers. split.
        -- intros [Hc|[(k & y & Hin & Hy) Hall]]; [tauto|]. right.
           apply In_del in Hin. split; [exists k, y; tauto|].
           intros k' y' Hin' Hy'. right. apply (Hall k' y'); [|exact Hy'].
           apply Hcov; [exact Hin' | exact Hy' | exact (Hnl k' y' Hin' Hy')].
        -- intros [Hc|[(k & y & Hin & Hy) Hall]]; [tauto|]. right.
           split; [exists k, y; split; [apply Hcov; [exact Hin | exact Hy | exact (Hnl k y Hin Hy)] | exact Hy]|].
           intros k' y' Hin' Hy'. apply In_del in Hin'. destruct Hin' as [Hin' Hne'].
           destruct (Hall k' y' Hin' Hy') as [Heq|Hin'']; [congruence|exact Hin''].
    + rewrite (IH _ _ _ _ _ _ _ _ H Hnd He).
      assert (Hnl : forall k y, In (k, y) (running s) -> k <> l).
      { intros k y Hin ->. rewrite (In_get l (running s) y Hnd Hin) in Hg. discriminate. }
      unfold covers. split.
      * intros [Hc|[Hex Hall]]; [tauto|]. right. split; [exact Hex|].
        intros k y Hin Hy. right. apply (Hall k y Hin Hy).
      * intros [Hc|[Hex Hall]]; [tauto|]. right. split; [exact Hex|].
        intros k y Hin Hy. destruct (Hall k y Hin Hy) as [Heq|H']; [|exact H'].
        exfalso. apply (Hnl k y Hin). symmetry. exact Heq.
Qed.

Lemma existsb_eqb_In (z : string) (xs : list string) :
  existsb (String.eqb z) xs = true <-> In z xs.
Proof.
  rewrite existsb_exists. split.
  - intros [y [Hy Heq]]. apply String.eqb_eq in Heq. subst y. exact Hy.
  - intro H. exists z. split; [exact H | apply String.eqb_refl].
Qed.

Lemma filter_notin_ext {B} (R1 R2 : list string) (xs : list (string * B)) :
  (forall z, In z R1 <-> In z R2) ->
  filter (fun pa => negb (existsb (String.eqb (fst pa)) R1)) xs
  = filter (fun pa => negb (existsb (String.eqb (fst pa)) R2)) xs.
Proof.
  intro H. apply filter_ext. intros [z b]. simpl. f_equal.
  apply Bool.eq_iff_eq_true. rewrite !existsb_eqb_In. apply H.
Qed.

Lemma filter_filter_and {B} (f g : B -> bool) (xs : list B) :
  filter f (filter g xs) = filter (fun x => g x && f x) xs.
Proof.
  induction xs as [|x xs IH]; simpl; [reflexivity|].
  destruct (g x); simpl; [destruct (f x); simpl; rewrite IH; reflexivity | exact IH].
Qed.

Lemma index_of_None (l : string) (P : list Light) : index_of l P = None -> ~ In l P.
Proof.
  induction P as [|p P IH]; simpl; [tauto|].
  destruct (String.eqb_spec p l) as [->|Hne]; [discriminate|].
  destruct (index_of l P); [discriminate|]. intros _ [Heq|Hin]; [congruence|].
  apply IH; [reflexivity|exact Hin].
Qed.

Lemma index_of_lt (l : string) (P : list Light) (i : nat) :
  index_of l P = Some i -> (i < List.length P)%nat.
Proof.
  revert i. induction P as [|p P IH]; simpl; intros i H; [discriminate|].
  destruct (String.eqb p l); [injection H as <-; lia|].
  destruct (index_of l P) as [j|]; [|discriminate]. injection H as <-.
  specialize (IH j eq_refl). lia.
Qed.

Lemma filter_neq_notin (l : string) (P : list Light) :
  ~ In l P -> filter (fun p => negb (String.eqb p l)) P = P.
Proof.
  induction P as [|p P IH]; simpl; intro H; [reflexivity|].
  destruct (String.eqb_spec p l) as [->|_]; [exfalso; apply H; left; reflexivity|].
  simpl. f_equal. apply IH. tauto.
Qed.

Lemma filter_combine_notin {B} (l : string) (P : list Light) (A : list B) :
  ~ In l P -> filter (fun pa => negb (String.eqb (fst pa) l)) (combine P A) = combine P A.
Proof.
  revert A. induction P as [|p P IH]; intros A H; simpl; [reflexivity|].
  destruct A as [|a A]; [reflexivity|]. simpl.
  destruct (String.eqb_spec p l) as [->|_]; [exfalso; apply H; left; reflexivity|].
  simpl. f_equal. apply IH. intro; apply H; right; assumption.
Qed.

Lemma combine_pop {B} (l : string) (P : list Light) (A : list B) (i : nat) :
  NoDup P -> List.length A = List.length P -> index_of l P = Some i ->
  combine (filter (fun p => negb (String.eqb p l)) P) (pop_at i A)
  = filter (fun pa => negb (String.eqb (fst pa) l)) (combine P A) /\
  NoDup (filter (fun p => negb (String.eqb p l)) P) /\
  List.length (pop_at i A) = List.length (filter (fun p => negb (String.eqb p l)) P).
Proof.
  revert A i. induction P as [|p P IH]; intros A i Hnd Hlen Hi; [discriminate|].
  destruct A as [|a A]; [discriminate|]. simpl in Hlen, Hi |- *.
  inversion Hnd as [|? ? Hn Hd]; subst.
  destruct (String.eqb_spec p l) as [->|Hne].
  - injection Hi as <-. simpl. rewrite filter_neq_notin, filter_combine_notin by exact Hn.
    split; [reflexivity|]. split; [exact Hd|]. exact (eq_add_S _ _ Hlen).
  - destruct (index_of l P) as [j|] eqn:Hj; [|discriminate]. injection Hi as <-.
    destruct (IH A j Hd ltac:(lia) eq_refl) as (H1 & H2 & H3).
    simpl. simpl.
    split; [f_equal; exact H1|]. split; [|simpl; f_equal; exact H3].
    constructor; [|exact H2]. intro Hin. apply filter_In in Hin. tauto.
Qed.

Lemma remove_loop_align (rs : bool) (e : effect_id) (He : is_frame_effect e = true)
    (lights : list Light) :
  forall (s : ConductorState PreState) an c r s' an' c' r',
  remove_lights_loop is_frame_effect rs lights s an c r = (s', an', c', r') ->
  NoDup (participants s e) -> List.length (an e) = List.length (participants s e) ->
  combine (participants s' e) (an' e)
  = filter (fun pa => negb (existsb (String.eqb (fst pa))
                                    (filter (registered_to e (running s)) lights)))
           (combine (participants s e) (an e)) /\
  NoDup (participants s' e) /\ List.length (an' e) = List.length (participants s' e).
Proof.
  induction lights as [|l ls IH]; intros s an c r s' an' c' r' H Hnd Hlen; simpl in H.
  - injection H as <- <- <- <-. simpl. split; [|tauto].
    induction (combine _ _) as [|y ys IHy]; simpl; [reflexivity|f_equal; exact IHy].
  - destruct (get l (running s)) as [x|] eqn:Hg.
    + destruct (Nat.eq_dec (effect x) e) as [Hxe|Hxe].
      * subst e. rewrite He in H.
        set (P := participants s (effect x)) in *.
        set (A := an (effect x)) in *.
        assert (Hstep : exists an1 c1 r1, remove_lights_loop is_frame_effect rs ls
                   (mkConductor (del l (running s))
                      (set_participants (participants s) (effect x)
                         (filter (fun p => negb (String.eqb p l)) P)) (next_task s))
                   an1 c1 r1 = (s', an', c', r') /\
                   @combine Light animator (filter (fun p => negb (String.eqb p l)) P) (an1 (effect x))
                   = filter (fun pa => negb (String.eqb (fst pa) l)) (combine P A) /\
                   NoDup (filter (fun p => negb (String.eqb p l)) P) /\
                   List.length (an1 (effect x))
                   = List.length (filter (fun p => negb (String.eqb p l)) P)).
        { destruct (index_of l P) as [i|] eqn:Hi.
          - pose proof (index_of_lt l P i Hi) as Hlt.
            destruct (Nat.ltb_spec i (List.length A)) as [_|Hge]; [|lia].
            do 3 eexists. split; [exact H|]. unfold set_animators. rewrite Nat.eqb_refl.
            apply combine_pop; assumption.
          - do 3 eexists. split; [exact H|]. apply index_of_None in Hi.
            rewrite filter_neq_notin, filter_combine_notin by exact Hi. tauto. }
        destruct Hstep as (an1 & c1 & r1 & Hl & Hc & Hnd1 & Hlen1).
        destruct (IH _ _ _ _ _ _ _ _ Hl) as (H1 & H2 & H3);
          [cbn [participants]; unfold set_participants; rewrite Nat.eqb_refl; exact Hnd1 |
           cbn [participants]; unfold set_participants; rewrite Nat.eqb_refl; exact Hlen1 | ].
        cbn [participants running] in H1. unfold set_participants in H1.
        rewrite Nat.eqb_refl in H1.  rewrite Hc, filter_filter_and in H1.
        split; [|split; assumption]. rewrite H1. apply filter_ext. intros [z b]. simpl.
        unfold registered_to at 2. rewrite Hg, Nat.eqb_refl. simpl.
        destruct (String.eqb_spec z l) as [->|Hzl]; simpl; [reflexivity|].
        f_equal. apply Bool.eq_iff_eq_true. rewrite !existsb_eqb_In, !filter_In.
        unfold registered_to. rewrite get_del. apply String.eqb_neq in Hzl. rewrite Hzl.
        reflexivity.
      * assert (Hp : participants (mkConductor (del l (running s))
                   (set_participants (participants s) (effect x)
                      (filter (fun p => negb (String.eqb p l)) (participants s (effect x))))
                   (next_task s)) e = participants s e).
        { cbn [participants]. unfold set_participants.
          destruct (Nat.eqb_spec e (effect x)); [congruence|reflexivity]. }
        set (an1 := if is_frame_effect (effect x) then _ else an) in H.
        assert (Ha : an1 e = an e).
        { unfold an1. destruct (is_frame_effect (effect x)); [|reflexivity].
          destruct (index_of _ _); [|reflexivity].
          destruct (Nat.ltb _ _); [|reflexivity].
          unfold set_animators. destruct (Nat.eqb_spec e (effect x)); [congruence|reflexivity]. }
        destruct (IH _ _ _ _ _ _ _ _ H) as (H1 & H2 & H3);
          [rewrite Hp; exact Hnd | rewrite Hp, Ha; exact Hlen | ].
        rewrite Hp, Ha in H1. split; [|split; assumption]. rewrite H1.
        apply filter_notin_ext. intro z. rewrite !filter_In. simpl.
        unfold registered_to. rewrite get_del.
        destruct (String.eqb_spec z l) as [->|Hzl].
        -- rewrite Hg. destruct (Nat.eqb_spec (effect x) e); [congruence|].
           split; intros [_ Hf]; discriminate.
        -- split; [tauto|]. intros [[Heq|Hin] Hr]; [congruence|tauto].
    + destruct (IH _ _ _ _ _ _ _ _ H Hnd Hlen) as (H1 & H2 & H3).
      split; [|split; assumption]. rewrite H1.
      symmetry. cbn [filter]. unfold registered_to at 1. rewrite Hg. reflexivity.
Qed.

(** X10: after [remove_lights], the removed lights have no effect, the
    other lights keep their entries, and a pre-state is restored exactly
    for the removed lights that were running, when restoring is asked. *)
Theorem remove_lights_deregisters (rs : bool) (lights : list Light)
    (s : ConductorState PreState) (anims : effect_id -> list animator) :
  let '(s', _, _, restore) := remove_lights is_frame_effect rs lights s anims in
  (forall l, In l lights -> effect_of s' l = None) /\
  (forall l, ~ In l lights -> get l (running s') = get l (running s)) /\
  (forall l p, In (l, p) restore <->
     rs = true /\ In l lights /\ exists x, get l (running s) = Some x /\ prestate x = p).
Proof.
  unfold remove_lights.
  destruct (remove_lights_loop is_frame_effect rs lights s anims [] []) as [[[s' an'] c'] r'] eqn:H.
  destruct (remove_loop_registry rs lights s anims [] [] s' an' c' r' H) as (H1 & H2 & H3).
  split; [|split].
  - intros l Hin. unfold effect_of. rewrite H1 by exact Hin. reflexivity.
  - exact H2.
  - intros l p. rewrite H3. simpl. tauto.
Qed.

(** X11: [remove_lights] cancels a task exactly when some light runs it and
    every light running it is among the removed lights. *)
Theorem remove_lights_cancels_task_of_last_light (rs : bool) (lights : list Light)
    (s : ConductorState PreState) (anims : effect_id -> list animator)
    (t : task_id) (e : effect_id) :
  NoDup (map fst (running s)) ->
  (forall k x, In (k, x) (running s) -> task x = t -> effect x = e) ->
  let '(_, _, tasks_to_cancel, _) := remove_lights is_frame_effect rs lights s anims in
  In t tasks_to_cancel <->
  (exists k x, In (k, x) (running s) /\ task x = t) /\
  (forall k x, In (k, x) (running s) -> task x = t -> In k lights).
Proof.
  intros Hnd He. unfold remove_lights.
  destruct (remove_lights_loop is_frame_effect rs lights s anims [] []) as [[[s' an'] c'] r'] eqn:H.
  rewrite (remove_loop_cancel rs t e lights s anims [] [] s' an' c' r' H Hnd He).
  unfold covers. simpl. tauto.
Qed.

(** X12: for a frame effect, [remove_lights] drops the removed participants
    together with their animators, so participants and animators stay
    paired, duplicate-free and of equal length. *)
Theorem remove_lights_keeps_animators_aligned (rs : bool) (lights : list Light)
    (s : ConductorState PreState) (anims : effect_id -> list animator) (e : effect_id) :
  is_frame_effect e = true ->
  NoDup (participants s e) -> List.length (anims e) = List.length (participants s e) ->
  let '(s', anims', _, _) := remove_lights is_frame_effect rs lights s anims in
  combine (participants s' e) (anims' e)
  = filter (fun pa => negb (existsb (String.eqb (fst pa))
                                    (filter (registered_to e (running s)) lights)))
           (combine (participants s e) (anims e)) /\
  NoDup (participants s' e) /\ List.length (anims' e) = List.length (participants s' e).
Proof.
  intros Hf Hnd Hlen. unfold remove_lights.
  destruct (remove_lights_loop is_frame_effect rs lights s anims [] []) as [[[s' an'] c'] r'] eqn:H.
  exact (remove_loop_align rs e Hf lights s anims [] [] s' an' c' r' H Hnd Hlen).
Qed.

End RemoveProofs.

Section StartProofs.
Variable PreState : Type.
Variable is_light_compatible : effect_id -> Light -> bool.
Variable inherit_prestate : effect_id -> effect_id -> bool.
Variable capture_state : Light -> PreState.

Lemma effect_of_start (e : effect_id) (P : list Light) (s : ConductorState PreState) (l : Light) :
  In l (filter_compatible is_light_compatible e P) ->
  effect_of (start is_light_compatible inherit_prestate capture_state e P s) l = Some e.
Proof.
  intro Hin. unfold start.
  destruct (filter_compatible is_light_compatible e P) as [|p ps] eqn:Hf; [destruct Hin|].
  unfold effect_of. cbn [running]. rewrite get_register_all.
  replace (existsb (String.eqb l) (p :: ps)) with true; [reflexivity|].
  symmetry. apply existsb_eqb_In, Hin.
Qed.

(** X13: when an effect finishes or fails on lights that a later effect
    has taken over, its cleanup deletes those lights' registration, so the
    later effect is no longer recorded on them. *)
Theorem cleanup_deregisters_taken_over_lights (e1 e2 : effect_id) (P Q : list Light)
    (s0 : ConductorState PreState) (o : outcome) (restore_on_complete : bool) (l : Light) :
  In l (filter_compatible is_light_compatible e1 P) ->
  In l (filter_compatible is_light_compatible e2 Q) ->
  o <> Cancelled ->
  let s1 := start is_light_compatible inherit_prestate capture_state e1 P s0 in
  let s2 := start is_light_compatible inherit_prestate capture_state e2 Q s1 in
  effect_of s2 l = Some e2 /\
  effect_of (fst (run_effect_cleanup o restore_on_complete
                    (filter_compatible is_light_compatible e1 P) s2)) l = None.
Proof.
  intros H1 H2 Ho s1 s2. split; [apply effect_of_start, H2|].
  unfold run_effect_cleanup, effect_of.
  destruct o; [| |contradiction]; cbn [fst running]; rewrite get_fold_del by exact H1;
    reflexivity.
Qed.

Lemma find_task_none (e : effect_id) (d : dict (RunningEffect PreState)) :
  (forall k x, In (k, x) d -> effect x <> e) -> find_task e d = None.
Proof.
  induction d as [|[k x] d IH]; simpl; intro H; [reflexivity|].
  destruct (Nat.eqb_spec (effect x) e) as [Heq|_].
  - exfalso. apply (H k x); [left; reflexivity|exact Heq].
  - apply IH. intros k' x' Hin. apply (H k' x'). right. exact Hin.
Qed.

(** X14: [add_lights] for an effect that no light is running changes
    nothing. *)
Theorem add_lights_without_running_effect_is_noop (e : effect_id) (L : list Light)
    (s : ConductorState PreState) :
  (forall k x, In (k, x) (running s) -> effect x <> e) ->
  add_lights is_light_compatible capture_state e L s = s.
Proof.
  intro H. unfold add_lights.
  destruct (filter_compatible is_light_compatible e L); [reflexivity|].
  destruct (not_running_effect e (running s) _); [reflexivity|].
  rewrite find_task_none by exact H. reflexivity.
Qed.

End StartProofs.

Lemma remove_lights_cancels_task_of_last_light_witness :
  let s := mkConductor [("a"%string, mkRunning 1 10 0); ("b"%string, mkRunning 1 11 0);
                        ("c"%string, mkRunning 2 12 1)]
             (fun e => if Nat.eqb e 1 then ["a"; "b"]%string
                       else if Nat.eqb e 2 then ["c"%string] else []) 2 in
  NoDup (map fst (running s)) /\
  (forall k x, In (k, x) (running s) -> task x = 0 -> effect x = 1) /\
  let '(_, _, tasks_to_cancel, _) :=
    remove_lights (fun _ => true) true ["a"; "c"]%string s (fun _ => []) in
  In 0 tasks_to_cancel <->
  (exists k x, In (k, x) (running s) /\ task x = 0) /\
  (forall k x, In (k, x) (running s) -> task x = 0 -> In k ["a"; "c"]%string).
Proof.
  intro s.
  assert (Hnd : NoDup (map fst (running s))).
  { simpl. repeat constructor; simpl; intuition discriminate. }
  assert (He : forall k x, In (k, x) (running s) -> task x = 0 -> effect x = 1).
  { intros k x Hin Ht. simpl in Hin.
    destruct Hin as [E|[E|[E|[]]]]; injection E as _ <-; [reflexivity|reflexivity|discriminate]. }
  split; [exact Hnd|]. split; [exact He|].
  exact (remove_lights_cancels_task_of_last_light nat (fun _ => true) true ["a"; "c"]%string
           s (fun _ => []) 0 1 Hnd He).
Defined.

Lemma remove_lights_keeps_animators_aligned_witness :
  let s := mkConductor [("a"%string, mkRunning 1 10 0); ("b"%string, mkRunning 1 11 0);
                        ("c"%string, mkRunning 2 12 1)]
             (fun e => if Nat.eqb e 1 then ["a"; "b"]%string
                       else if Nat.eqb e 2 then ["c"%string] else []) 2 in
  let anims := fun e => if Nat.eqb e 1 then [100; 101] else if Nat.eqb e 2 then [102] else [] in
  NoDup (participants s 1) /\ List.length (anims 1) = List.length (participants s 1) /\
  let '(s', anims', _, _) := remove_lights (fun _ => true) true ["a"; "c"]%string s anims in
  combine (participants s' 1) (anims' 1)
  = filter (fun pa => negb (existsb (String.eqb (fst pa))
                                    (filter (registered_to 1 (running s)) ["a"; "c"]%string)))
           (combine (participants s 1) (anims 1)) /\
  NoDup (participants s' 1) /\ List.length (anims' 1) = List.length (participants s' 1).
Proof.
  intros s anims.
  assert (Hnd : NoDup (participants s 1)).
  { simpl. repeat constructor; simpl; intuition discriminate. }
  assert (Hlen : List.length (anims 1) = List.length (participants s 1)) by reflexivity.
  split; [exact Hnd|]. split; [exact Hlen|].
  exact (remove_lights_keeps_animators_aligned nat (fun _ => true) true ["a"; "c"]%string
           s anims 1 eq_refl Hnd Hlen).
Defined.

Lemma cleanup_deregisters_taken_over_lights_witness :
  let s0 := mkConductor [] (fun _ => []) 0 : ConductorState nat in
  In "b"%string (filter_compatible (fun _ _ => true) 1 ["a"; "b"]%string) /\
  In "b"%string (filter_compatible (fun _ _ => true) 2 ["b"]%string) /\
  Completed <> Cancelled /\
  let s1 := start (fun _ _ => true) (fun _ _ => false) String.length 1 ["a"; "b"]%string s0 in
  let s2 := start (fun _ _ => true) (fun _ _ => false) String.length 2 ["b"]%string s1 in
  effect_of s2 "b"%string = Some 2 /\
  effect_of (fst (run_effect_cleanup Completed true
                    (filter_compatible (fun _ _ => true) 1 ["a"; "b"]%string) s2)) "b"%string
  = None.
Proof.
  intro s0.
  assert (H1 : In "b"%string (filter_compatible (fun _ _ => true) 1 ["a"; "b"]%string))
    by (simpl; tauto).
  assert (H2 : In "b"%string (filter_compatible (fun _ _ => true) 2 ["b"]%string))
    by (simpl; tauto).
  assert (Ho : Completed <> Cancelled) by discriminate.
  split; [exact H1|]. split; [exact H2|]. split; [exact Ho|].
  exact (cleanup_deregisters_taken_over_lights nat (fun _ _ => true) (fun _ _ => false)
           String.length 1 2 ["a"; "b"]%string ["b"]%string s0 Completed true "b"%string
           H1 H2 Ho).
Defined.

Lemma add_lights_without_running_effect_is_noop_witness :
  let s := mkConductor [("a"%string, mkRunning 1 10 0)] (fun _ => []) 1 : ConductorState nat in
  (forall k x, In (k, x) (running s) -> effect x <> 2) /\
  add_lights (fun _ _ => true) String.length 2 ["b"]%string s = s.
Proof.
  intro s.
  assert (H : forall k x, In (k, x) (running s) -> effect x <> 2).
  { intros k x Hin. simpl in Hin. destruct Hin as [E|[]]. injection E as _ <-. discriminate. }
  split; [exact H|].
  exact (add_lights_without_running_effect_is_noop nat (fun _ _ => true) String.length 2
           ["b"]%string s H).
Defined.

End ConductorMoreProofs.

(* ------------------------------------------------------------------ *)
(** ** Properties of the frame effects *)

Module FramesMoreProofs.
Import Frames FramesProofs FramesMore.
Local Open Scope R_scope.

Lemma py_floor_IZR n : py_floor (IZR n) = n.
Proof.
  unfold py_floor. rewrite <- (tech_up (IZR n) (n + 1)); [lia| |];
    rewrite plus_IZR; simpl; lra.
Qed.

Lemma py_round_IZR n : py_round (IZR n) = n.
Proof.
  unfold py_round. rewrite py_floor_IZR.
  destruct (Rlt_dec (IZR n - IZR n) (1 / 2)); [reflexivity|lra].
Qed.

(** [round] of a float between two integers stays between them. *)
Lemma py_round_bounds a b x : IZR a <= x <= IZR b -> (a <= py_round x <= b)%Z.
Proof.
  intros [Ha Hb]. pose proof (py_floor_spec x) as [F1 F2].
  assert (Haf : (a <= py_floor x)%Z).
  { assert (H : IZR a < IZR (py_floor x + 1)) by (rewrite plus_IZR; simpl; lra).
    apply lt_IZR in H. lia. }
  assert (Hfb : (py_floor x <= b)%Z) by (apply le_IZR; lra).
  unfold py_round.
  destruct (Rlt_dec (x - IZR (py_floor x)) (1 / 2)); [lia|].
  assert (Hlt : (py_floor x < b)%Z) by (apply lt_IZR; lra).
  destruct (Req_EM_T (x - IZR (py_floor x)) (1 / 2));
    [destruct (Z.even (py_floor x)); lia | lia].
Qed.

Lemma py_round_range a b x :
  IZR a <= x <= IZR b -> IZR a <= IZR (py_round x) <= IZR b.
Proof.
  intros H. apply py_round_bounds in H. split; apply IZR_le; lia.
Qed.

Lemma py_fmod_range x m r : 0 < m -> py_fmod x m = Some r -> 0 <= r < m.
Proof.
  intros Hm. unfold py_fmod. destruct (Req_EM_T m 0); [lra|].
  intros H. injection H as <-.
  pose proof (py_floor_spec (x / m)) as [F1 F2].
  set (F := IZR (py_floor (x / m))) in *.
  assert (Hx : x = m * (x / m)) by (field; lra).
  set (y := x / m) in *. rewrite Hx. nra.
Qed.

Lemma flicker_range t s : 0 <= flicker t s <= 1.
Proof.
  unfold flicker.
  pose proof (SIN_bound (t * 3.7 + s * 17.1)).
  pose proof (SIN_bound (t * 7.3 + s * 31.7)).
  pose proof (SIN_bound (t * 13.1 + s * 53.3)).
  lra.
Qed.

Lemma clamp01_nonpos x : x <= 0 -> clamp01 x = 0.
Proof.
  intros Hx. unfold clamp01. apply Rmax_left.
  apply Rle_trans with x; [apply Rmin_r | exact Hx].
Qed.

Lemma clamp01_ge1 x : 1 <= x -> clamp01 x = 1.
Proof.
  intros Hx. unfold clamp01. rewrite Rmin_left by lra. apply Rmax_right. lra.
Qed.

Lemma clamp01_le x : 0 < clamp01 x -> clamp01 x <= x.
Proof.
  unfold clamp01. intros H.
  destruct (Rle_dec 0 (Rmin 1 x)).
  - rewrite Rmax_right by exact r. apply Rmin_r.
  - rewrite Rmax_left in H |- * by lra. lra.
Qed.

Lemma map_frame_const {A} (f : Z -> option A) (c : A) l :
  (forall i, In i l -> f i = Some c) -> map_frame f l = Some (repeat c (List.length l)).
Proof.
  induction l as [|i l IH]; intros Hf; [reflexivity|].
  simpl. rewrite (Hf i (or_introl eq_refl)).
  rewrite IH by (intros j Hj; apply Hf; right; exact Hj). reflexivity.
Qed.

Lemma flame_init_kelvin MIN_KELVIN MAX_KELVIN power_on i sp kmin kmax b fx :
  EffectFlame_init MIN_KELVIN MAX_KELVIN power_on i sp kmin kmax b = Constructed fx ->
  (kmin <= kmax)%Z.
Proof.
  unfold EffectFlame_init. intros H.
  destruct (out_of 0 1 i); [discriminate|].
  destruct (Rle_dec sp 0); [discriminate|].
  destruct (kmin <? MIN_KELVIN)%Z; [discriminate|].
  destruct (MAX_KELVIN <? kmax)%Z; [discriminate|].
  destruct (Z.ltb_spec kmax kmin); [discriminate|lia].
Qed.

Ltac open_some H :=
  repeat match type of H with
  | context [match ?e with Some _ => _ | None => None end] =>
      let x := fresh "v" in
      let E := fresh "E" in
      destruct e as [x|] eqn:E; [|discriminate]
  end.

(** X15: every pixel of a frame of a validly constructed flame has hue in
    [[0, 40]], saturation in [[0.85, 1]], brightness in [[0, 1]] and kelvin
    between [kelvin_min] and [kelvin_max]. *)
Theorem flame_pixels_in_range MIN_KELVIN MAX_KELVIN power_on intensity speed
  kelvin_min kelvin_max brightness fx ctx :
  EffectFlame_init MIN_KELVIN MAX_KELVIN power_on intensity speed
    kelvin_min kelvin_max brightness = Constructed fx ->
  match flame_generate_frame fx ctx with
  | Some frame =>
      Forall (fun c => 0 <= hue c <= 40 /\ 0.85 <= saturation c <= 1
                       /\ 0 <= Frames.brightness c <= 1
                       /\ IZR kelvin_min <= kelvin c <= IZR kelvin_max) frame
  | None => True
  end.
Proof.
  intros Hi. pose proof (flame_init_kelvin _ _ _ _ _ _ _ _ _ Hi) as Hk.
  apply flame_init_inv in Hi as [-> _].
  destruct (flame_generate_frame _ ctx) as [frame|] eqn:Hf; [|exact I].
  unfold flame_generate_frame in Hf. cbv zeta in Hf.
  apply (map_frame_Forall _ _ _ _ Hf). intros i c _ Hc. cbv beta in Hc.
  open_some Hc. injection Hc as <-. simpl.
  pose proof (flicker_range (elapsed_s ctx * speed) v) as Hfl.
  set (fl := flicker (elapsed_s ctx * speed) v) in *.
  apply IZR_le in Hk.
  split; [|split; [lra|split; [apply clamp01_range|]]].
  - apply (py_round_range 0 40). lra.
  - apply py_round_range. rewrite minus_IZR. nra.
Qed.

Lemma palette_hue_range fx position z :
  palette_hue fx position = Some z -> (0 <= z <= 360)%Z.
Proof.
  unfold palette_hue. cbv zeta. intros H. open_some H.
  injection H as <-. apply py_fmod_range in E3; [|lra].
  apply (py_round_bounds 0 360). simpl. lra.
Qed.

(** X16: every aurora pixel has hue in [[0, 360]], saturation in
    [[0.4, 1]], brightness in [[0, 1]] and kelvin [KELVIN_NEUTRAL]. *)
Theorem aurora_pixels_in_range KELVIN_NEUTRAL fx ctx :
  match aurora_generate_frame KELVIN_NEUTRAL fx ctx with
  | Some frame =>
      Forall (fun c => 0 <= hue c <= 360 /\ 0.4 <= saturation c <= 1
                       /\ 0 <= Frames.brightness c <= 1
                       /\ kelvin c = KELVIN_NEUTRAL) frame
  | None => True
  end.
Proof.
  destruct (aurora_generate_frame _ fx ctx) as [frame|] eqn:Hf; [|exact I].
  unfold aurora_generate_frame in Hf. cbv zeta in Hf. open_some Hf.
  apply (map_frame_Forall _ _ _ _ Hf). intros i c _ Hc. cbv beta in Hc.
  open_some Hc. injection Hc as <-. simpl.
  match goal with
  | H : palette_hue _ _ = Some _ |- _ => apply palette_hue_range in H
  | _ => idtac
  end.
  match goal with
  | |- context [sin (?p * 2 * PI)] => pose proof (SIN_bound (p * 2 * PI))
  end.
  split; [|split; [lra|split; [apply clamp01_range|reflexivity]]].
  split; [apply (IZR_le 0) | apply (IZR_le _ 360)]; lia.
Qed.

(** X17: every rainbow pixel has hue in [[0, 360]], the effect's
    saturation and brightness, and kelvin [KELVIN_NEUTRAL]. *)
Theorem rainbow_pixels_in_range KELVIN_NEUTRAL fx ctx :
  match rainbow_generate_frame KELVIN_NEUTRAL fx ctx with
  | Some frame =>
      Forall (fun c => 0 <= hue c <= 360
                       /\ saturation c = rainbow_saturation fx
                       /\ Frames.brightness c = rainbow_brightness fx
                       /\ kelvin c = KELVIN_NEUTRAL) frame
  | None => True
  end.
Proof.
  destruct (rainbow_generate_frame _ fx ctx) as [frame|] eqn:Hf; [|exact I].
  unfold rainbow_generate_frame in Hf. cbv zeta in Hf. open_some Hf.
  apply (map_frame_Forall _ _ _ _ Hf). intros i c _ Hc. cbv beta in Hc.
  open_some Hc. injection Hc as <-. simpl.
  match goal with
  | H : py_fmod _ 360 = Some _ |- _ => apply py_fmod_range in H; [|lra]
  end.
  split; [|auto]. apply (py_round_range 0 360). simpl. lra.
Qed.

Lemma colorloop_init_inv power_on period change spread brightness smin smax
  transition synchronized fx :
  EffectColorloop_init power_on period change spread brightness smin smax
    transition synchronized = Constructed fx ->
  0 < period /\ 0 <= change <= 360 /\
  fx = mkColorloop
         (mkFrameEffect power_on
            (if Rlt_dec 0 change then Rmax 20 (360 / change / period) else 20) None)
         period change spread brightness smin smax transition synchronized [] 1.
Proof.
  unfold EffectColorloop_init, FrameEffect_init. intros H.
  destruct (Rle_dec period 0); [discriminate|].
  destruct (out_of 0 360 change) eqn:Ec; [discriminate|].
  destruct (out_of 0 360 spread); [discriminate|].
  destruct (match brightness with Some b => out_of 0 1 b | None => false end);
    [discriminate|].
  destruct (out_of 0 1 smin); [discriminate|].
  destruct (out_of 0 1 smax); [discriminate|].
  destruct (Rlt_dec smax smin); [discriminate|].
  destruct (match transition with
            | Some t => if Rlt_dec t 0 then true else false
            | None => false end); [discriminate|].
  apply out_of_false in Ec.
  destruct (Rle_dec (if Rlt_dec 0 change then Rmax 20 (360 / change / period) else 20) 0);
    [discriminate|].
  injection H as <-. split; [lra|auto].
Qed.

(** X18: a constructed colorloop runs at least at 20 fps and at least at
    [(360 / change) / period] fps when [change > 0], has no duration, and
    until [async_setup] runs it shows the fallback colour on every pixel. *)
Theorem colorloop_init_fps_and_fallback power_on period change spread brightness
  saturation_min saturation_max transition synchronized fx :
  EffectColorloop_init power_on period change spread brightness
    saturation_min saturation_max transition synchronized = Constructed fx ->
  20 <= fps (colorloop_base fx)
  /\ (0 < change -> 360 / change / period <= fps (colorloop_base fx))
  /\ duration (colorloop_base fx) = None
  /\ (forall ctx, colorloop_generate_frame fx ctx
                  = Some (repeat (mkHSBK 0 1 0.8 3500) (Z.to_nat (pixel_count ctx)))).
Proof.
  intros H. apply colorloop_init_inv in H as [Hp [Hc ->]]. simpl.
  split; [|split; [|split; [reflexivity | reflexivity]]].
  - destruct (Rlt_dec 0 change); [apply Rmax_l | lra].
  - intros Hc0. destruct (Rlt_dec 0 change); [apply Rmax_r | lra].
Qed.

(** X19: [EffectColorloop] raises [ValueError] for a non-positive period,
    change or spread outside [[0, 360]], a brightness or a saturation bound
    outside [[0, 1]], [saturation_min > saturation_max] or a negative
    transition. *)
Theorem colorloop_init_validates power_on period change spread brightness
  saturation_min saturation_max transition synchronized :
  (period <= 0 \/ ~ (0 <= change <= 360) \/ ~ (0 <= spread <= 360)
   \/ (exists b, brightness = Some b /\ ~ (0 <= b <= 1))
   \/ ~ (0 <= saturation_min <= 1) \/ ~ (0 <= saturation_max <= 1)
   \/ saturation_max < saturation_min
   \/ (exists t, transition = Some t /\ t < 0)) ->
  EffectColorloop_init power_on period change spread brightness
    saturation_min saturation_max transition synchronized = ValueError.
Proof.
  intros H. destruct (EffectColorloop_init _ _ _ _ _ _ _ _ _) as [fx|] eqn:E;
    [|reflexivity].
  exfalso. unfold EffectColorloop_init in E.
  destruct (Rle_dec period 0); [discriminate|].
  destruct (out_of 0 360 change) eqn:Ec; [discriminate|].
  destruct (out_of 0 360 spread) eqn:Es; [discriminate|].
  destruct (match brightness with Some b => out_of 0 1 b | None => false end)
    eqn:Eb; [discriminate|].
  destruct (out_of 0 1 saturation_min) eqn:E1; [discriminate|].
  destruct (out_of 0 1 saturation_max) eqn:E2; [discriminate|].
  destruct (Rlt_dec saturation_max saturation_min); [discriminate|].
  destruct (match transition with
            | Some t => if Rlt_dec t 0 then true else false
            | None => false end) eqn:Et; [discriminate|].
  apply out_of_false in Ec, Es, E1, E2.
  destruct H as [H|[H|[H|[[b [-> H]]|[H|[H|[H|[t [-> H]]]]]]]]]; try tauto.
  - apply out_of_false in Eb. tauto.
  - destruct (Rlt_dec t 0); [discriminate|lra].
Qed.

(** X20: in synchronized mode a colorloop frame does not depend on the
    device index: all devices with the same pixel count get the same frame. *)
Theorem colorloop_synchronized_ignores_device_index fx ctx1 ctx2 :
  synchronized fx = true ->
  elapsed_s ctx1 = elapsed_s ctx2 -> pixel_count ctx1 = pixel_count ctx2 ->
  colorloop_generate_frame fx ctx1 = colorloop_generate_frame fx ctx2.
Proof.
  intros Hs He Hn. unfold colorloop_generate_frame.
  rewrite Hs, He, Hn. reflexivity.
Qed.

(** X21: when the position is at or below [start_value], or the value range
    is empty, every progress pixel is the background colour. *)
Theorem progress_empty_bar_is_background fx ctx :
  position fx <= start_value fx \/ end_value fx <= start_value fx ->
  progress_generate_frame fx ctx
  = Some (repeat (background fx) (Z.to_nat (pixel_count ctx))).
Proof.
  intros Hpos. unfold progress_generate_frame. cbv zeta.
  assert (Hfill : exists q, (if Rlt_dec 0 (end_value fx - start_value fx)
                  then py_div (position fx - start_value fx)
                         (end_value fx - start_value fx)
                  else Some 0) = Some q /\ q <= 0).
  { destruct (Rlt_dec 0 (end_value fx - start_value fx)) as [Hr|Hr].
    - rewrite py_div_eval by lra. eexists. split; [reflexivity|].
      destruct Hpos as [Hp|Hp]; [|lra].
      unfold Rdiv. pose proof (Rinv_0_lt_compat _ Hr). nra.
    - exists 0. split; [reflexivity|lra]. }
  destruct Hfill as [q [-> Hq]].
  rewrite (clamp01_nonpos q Hq), Rmult_0_l, py_round_IZR. simpl.
  rewrite <- py_range_length. apply map_frame_const.
  intros i Hi. apply py_range_in in Hi.
  destruct (Z.ltb_spec i 0); [lia|reflexivity].
Qed.

(** X22: when the position is at or past [end_value], a solid-colour
    progress bar is produced and every pixel has the foreground hue,
    saturation and kelvin, with brightness in [[0, 1]]. *)
Theorem progress_full_bar_solid_color fx ctx c :
  foreground fx = FgColor c -> start_value fx < end_value fx ->
  end_value fx <= position fx -> (0 <= pixel_count ctx)%Z ->
  exists frame, progress_generate_frame fx ctx = Some frame
    /\ Z.of_nat (List.length frame) = pixel_count ctx
    /\ Forall (fun p => hue p = hue c /\ saturation p = saturation c
                        /\ kelvin p = kelvin c /\ 0 <= Frames.brightness p <= 1) frame.
Proof.
  intros Hfg Hr Hp Hn. unfold progress_generate_frame. cbv zeta.
  destruct (Rlt_dec 0 (end_value fx - start_value fx)) as [Hr'|]; [|lra].
  rewrite py_div_eval by lra.
  rewrite clamp01_ge1.
  2:{ apply (Rmult_le_reg_r (end_value fx - start_value fx)); [lra|].
      unfold Rdiv. rewrite Rmult_assoc, Rinv_l by lra. lra. }
  rewrite Rmult_1_l, py_round_IZR.
  set (sp := if (0 <? pixel_count ctx)%Z
             then (IZR (pixel_count ctx)
                     * ((sin (elapsed_s ctx * spot_speed fx * 2 * PI) + 1) / 2),
                   Rmax 1 (spot_width fx * IZR (pixel_count ctx)))
             else (0, 1)).
  assert (Hw : 1 <= snd sp).
  { unfold sp. destruct (0 <? pixel_count ctx)%Z; simpl; [apply Rmax_l | lra]. }
  destruct sp as [spot_pos w]. simpl in Hw.
  set (f := fun i => if (i <? pixel_count ctx)%Z then _ else _).
  assert (Hf : forall i, (0 <= i < pixel_count ctx)%Z ->
            exists p, f i = Some p /\ hue p = hue c /\ saturation p = saturation c
                      /\ kelvin p = kelvin c /\ 0 <= Frames.brightness p <= 1).
  { intros i Hi. unfold f. destruct (Z.ltb_spec i (pixel_count ctx)); [|lia].
    rewrite py_div_eval by (apply IZR_neq0; lia).
    unfold foreground_at. rewrite Hfg.
    rewrite py_div_eval by lra.
    eexists. split; [reflexivity|]. simpl.
    split; [reflexivity|split; [reflexivity|split; [reflexivity|apply clamp01_range]]]. }
  destruct (map_frame_pixel_count f (pixel_count ctx) Hn) as [frame [Hm Hl]].
  { intros i Hi. destruct (Hf i Hi) as [p [-> _]]. discriminate. }
  exists frame. split; [exact Hm|]. split; [exact Hl|].
  apply (map_frame_Forall _ _ _ _ Hm). intros i p Hi Hp'.
  apply py_range_in in Hi. destruct (Hf i Hi) as [p' [Hp'' Hprop]].
  rewrite Hp' in Hp''. injection Hp'' as ->. exact Hprop.
Qed.

Lemma sun_phase_range pp norm_dist brightness pp_bright :
  0 <= pp <= 1 -> 0 <= norm_dist -> (0.2 <= pp -> norm_dist <= 7 / 3) ->
  let '(_, s, _, k) := sun_phase pp norm_dist brightness pp_bright in
  (1500 <= k <= 4000)%Z /\ 0 <= s <= 1.
Proof.
  intros Hpp Hd Hnd. unfold sun_phase.
  destruct (Rlt_dec pp 0.2); [split; [lia|lra]|].
  destruct (Rlt_dec pp 0.4).
  { split; [|specialize (Hnd ltac:(lra)); lra].
    apply (py_round_bounds 1500 4000). lra. }
  destruct (Rlt_dec pp 0.6).
  { split; [apply (py_round_bounds 1500 4000); lra | lra]. }
  destruct (Rlt_dec pp 0.8).
  { split; [apply (py_round_bounds 1500 4000); lra | lra]. }
  split; [apply (py_round_bounds 1500 4000); lra|].
  split; [apply Rle_trans with 0.1; [lra|apply Rmax_l]|].
  apply Rmax_lub; lra.
Qed.

(** X23: every pixel of a sunrise or sunset frame has hue in [[0, 360]],
    saturation and brightness in [[0, 1]] and kelvin in [[1500, 4000]]. *)
Theorem sun_frame_pixels_in_range ctx progress brightness origin :
  match sun_frame ctx progress brightness origin with
  | Some frame =>
      Forall (fun c => 0 <= hue c <= 360 /\ 0 <= saturation c <= 1
                       /\ 0 <= Frames.brightness c <= 1
                       /\ 1500 <= kelvin c <= 4000) frame
  | None => True
  end.
Proof.
  destruct (sun_frame ctx progress brightness origin) as [frame|] eqn:Hf;
    [|exact I].
  unfold sun_frame in Hf. cbv zeta in Hf.
  apply (map_frame_Forall _ _ _ _ Hf). intros i c _ Hc. cbv beta in Hc.
  open_some Hc.
  assert (Hnd : 0 <= v1).
  { revert E1. match goal with
    | |- (if Rlt_dec 0 ?M then py_div ?D _ else _) = _ -> _ =>
        destruct (Rlt_dec 0 M) as [HM|HM]; intros E1
    end.
    - apply py_div_some in E1 as [Ev _]. rewrite Ev. unfold Rdiv.
      apply Rmult_le_pos; [apply sqrt_pos|].
      left. apply Rinv_0_lt_compat. exact HM.
    - injection E1 as <-. lra. }
  set (pp := clamp01 _) in Hc.
  assert (Hpp : 0 <= pp <= 1) by apply clamp01_range.
  assert (Hcut : 0.2 <= pp -> v1 <= 7 / 3).
  { intros H. pose proof (clamp01_le (clamp01 progress * (1 + 0.6) - v1 * 0.6))
      as Hle.
    fold pp in Hle. pose proof (clamp01_range progress). lra. }
  pose proof (sun_phase_range pp v1 brightness v2 Hpp Hnd Hcut) as Hph.
  destruct (sun_phase pp v1 brightness v2) as [[[h0 s0] b0] k0].
  destruct Hph as [Hk Hs].
  destruct (Rlt_dec v1 0.5); injection Hc as <-; simpl.
  - split; [split; [apply (IZR_le 0) | apply (IZR_le _ 360)]; lia|].
    split; [split; [apply Rle_trans with s0; [lra|]; apply Rmin_glb; lra
                   | apply Rmin_l]|].
    split; [apply clamp01_range|]. split; apply IZR_le; lia.
  - split; [split; [apply (IZR_le 0) | apply (IZR_le _ 360)]; lia|].
    split; [lra|]. split; [apply clamp01_range|]. split; apply IZR_le; lia.
Qed.

(** X24: with the same duration, brightness and origin, the sunset frame at
    elapsed time [t] is the sunrise frame at elapsed time [duration - t]. *)
Theorem sunset_mirrors_sunrise rise set d ctx :
  duration (sunrise_base rise) = Some d -> duration (sunset_base set) = Some d ->
  d <> 0 ->
  sunset_brightness set = sunrise_brightness rise ->
  sunset_origin set = sunrise_origin rise ->
  sunset_generate_frame set ctx
  = sunrise_generate_frame rise (with_elapsed ctx (d - elapsed_s ctx)).
Proof.
  intros Hr Hs Hd Hb Ho. unfold sunset_generate_frame, sunrise_generate_frame.
  rewrite Hr, Hs, Hb, Ho.
  destruct (Req_EM_T d 0); [contradiction|].
  rewrite !py_div_eval by exact Hd. simpl.
  replace (1 - elapsed_s ctx / d) with ((d - elapsed_s ctx) / d)
    by (field; exact Hd).
  reflexivity.
Qed.

(** X25: after its duration has elapsed, a sunrise or sunset keeps showing
    the frame it shows at the end of the duration. *)
Theorem sun_effects_hold_final_frame rise set d ctx :
  0 < d -> d <= elapsed_s ctx ->
  (duration (sunrise_base rise) = Some d ->
   sunrise_generate_frame rise ctx = sunrise_generate_frame rise (with_elapsed ctx d))
  /\ (duration (sunset_base set) = Some d ->
   sunset_generate_frame set ctx = sunset_generate_frame set (with_elapsed ctx d)).
Proof.
  intros Hd Ht.
  assert (Hq : 1 <= elapsed_s ctx / d).
  { apply (Rmult_le_reg_r d); [lra|].
    unfold Rdiv. rewrite Rmult_assoc, Rinv_l by lra. lra. }
  split; intros H.
  - unfold sunrise_generate_frame, sun_frame. rewrite H.
    destruct (Req_EM_T d 0); [lra|].
    rewrite !py_div_eval by lra. simpl.
    rewrite (clamp01_ge1 (elapsed_s ctx / d)) by exact Hq.
    rewrite (clamp01_ge1 (d / d)) by (unfold Rdiv; rewrite Rinv_r by lra; lra).
    reflexivity.
  - unfold sunset_generate_frame, sun_frame. rewrite H.
    destruct (Req_EM_T d 0); [lra|].
    rewrite !py_div_eval by lra. simpl.
    rewrite (clamp01_nonpos (1 - elapsed_s ctx / d)) by lra.
    rewrite (clamp01_nonpos (1 - d / d)) by (unfold Rdiv; rewrite Rinv_r by lra; lra).
    reflexivity.
Qed.

Lemma flame_pixels_in_range_witness :
  match flame_generate_frame
          (mkFlame (mkFrameEffect true 20 None) 0.7 1 2500 3500 0.8)
          (mkContext 1 0 3 3 1) with
  | Some frame =>
      Forall (fun c => 0 <= hue c <= 40 /\ 0.85 <= saturation c <= 1
                       /\ 0 <= Frames.brightness c <= 1
                       /\ IZR 2500 <= kelvin c <= IZR 3500) frame
  | None => True
  end.
Proof.
  apply (flame_pixels_in_range 1500 9000 true 0.7 1 2500 3500 0.8).
  flame_init_compute.
Defined.

Lemma colorloop_init_fps_and_fallback_witness :
  let fx := mkColorloop (mkFrameEffect true (Rmax 20 (360 / 20 / 60)) None)
              60 20 30 None 0.8 1 None false [] 1 in
  20 <= fps (colorloop_base fx)
  /\ (0 < 20 -> 360 / 20 / 60 <= fps (colorloop_base fx))
  /\ duration (colorloop_base fx) = None
  /\ (forall ctx, colorloop_generate_frame fx ctx
                  = Some (repeat (mkHSBK 0 1 0.8 3500) (Z.to_nat (pixel_count ctx)))).
Proof.
  intros fx.
  apply (colorloop_init_fps_and_fallback true 60 20 30 None 0.8 1 None false fx).
  unfold EffectColorloop_init, FrameEffect_init, out_of.
  destruct (Rlt_dec 0 20); [|exfalso; lra].
  assert (H20 : 20 <= Rmax 20 (360 / 20 / 60)) by apply Rmax_l.
  repeat match goal with
  | |- context [Rle_dec ?a ?b] => destruct (Rle_dec a b)
  | |- context [Rlt_dec ?a ?b] => destruct (Rlt_dec a b)
  end; simpl; first [reflexivity | exfalso; lra].
Defined.

Lemma colorloop_init_validates_witness :
  EffectColorloop_init true 60 20 30 None 0.9 0.5 None false = ValueError.
Proof.
  apply colorloop_init_validates. right. right. right. right. right. right.
  left. lra.
Defined.

Lemma colorloop_synchronized_ignores_device_index_witness :
  let fx := mkColorloop (mkFrameEffect true 20 None) 60 20 30 None 0.8 1 None true
              [mkHSBK 120 1 0.5 3500; mkHSBK 240 1 0.7 2700] 1 in
  colorloop_generate_frame fx (mkContext 5 0 3 1 1)
  = colorloop_generate_frame fx (mkContext 5 1 3 1 1).
Proof.
  intros fx. apply colorloop_synchronized_ignores_device_index; reflexivity.
Defined.

Lemma progress_empty_bar_is_background_witness :
  let fx := mkProgress (mkFrameEffect true 20 None) 0 100 0
              (FgColor (mkHSBK 120 1 1 3500)) (mkHSBK 0 0 0.05 3500) 1 0.15 1 in
  progress_generate_frame fx (mkContext 2 0 4 4 1)
  = Some (repeat (mkHSBK 0 0 0.05 3500) 4).
Proof.
  intros fx.
  apply (progress_empty_bar_is_background fx (mkContext 2 0 4 4 1)).
  left. simpl. lra.
Defined.

Lemma progress_full_bar_solid_color_witness :
  let fx := mkProgress (mkFrameEffect true 20 None) 0 100 100
              (FgColor (mkHSBK 120 1 1 3500)) (mkHSBK 0 0 0.05 3500) 1 0.15 1 in
  exists frame, progress_generate_frame fx (mkContext 2 0 4 4 1) = Some frame
    /\ Z.of_nat (List.length frame) = 4%Z
    /\ Forall (fun p => hue p = 120 /\ saturation p = 1
                        /\ kelvin p = 3500 /\ 0 <= Frames.brightness p <= 1) frame.
Proof.
  intros fx.
  apply (progress_full_bar_solid_color fx (mkContext 2 0 4 4 1) (mkHSBK 120 1 1 3500));
    simpl; first [reflexivity | lra | lia].
Defined.

Lemma sunset_mirrors_sunrise_witness :
  sunset_generate_frame (mkSunset (mkFrameEffect false 20 (Some 60)) 1 true Bottom)
    (mkContext 15 0 4 2 2)
  = sunrise_generate_frame (mkSunrise (mkFrameEffect true 20 (Some 60)) 1 Bottom)
      (with_elapsed (mkContext 15 0 4 2 2) (60 - 15)).
Proof.
  apply (sunset_mirrors_sunrise _ _ 60); simpl; first [reflexivity | lra].
Defined.

Lemma sun_effects_hold_final_frame_witness :
  let rise := mkSunrise (mkFrameEffect true 20 (Some 60)) 1 Center in
  let set := mkSunset (mkFrameEffect false 20 (Some 60)) 1 true Center in
  let ctx := mkContext 90 0 4 2 2 in
  sunrise_generate_frame rise ctx = sunrise_generate_frame rise (with_elapsed ctx 60)
  /\ sunset_generate_frame set ctx = sunset_generate_frame set (with_elapsed ctx 60).
Proof.
  intros rise set ctx.
  destruct (sun_effects_hold_final_frame rise set 60 ctx) as [H1 H2];
    [lra | simpl; lra | ].
  split; [apply H1 | apply H2]; reflexivity.
Defined.

End FramesMoreProofs.
